(** * Process supervision in the remote-tunnel service, the smoke-test
      server launcher and the main-process logger service

    A shallow embedding of

    - [waitForEndpoint] and [teardown] of the browser smoke-test launcher,
    - [RemoteTunnelService] (vs/platform/remoteTunnel/node), and
    - [LoggerMainService] (vs/platform/log/electron-main),

    followed by the properties established about them. *)

From Stdlib Require Import ZArith Ascii String List Bool Lia.
From stdpp Require Import base option list strings gmap pretty.
Import ListNotations.

Local Open Scope string_scope.
Local Open Scope list_scope.

(* ===================================================================== *)
(** * JavaScript promises: a promise settles at most once *)
(* ===================================================================== *)

Module Promise.

Inductive t (A E : Type) : Type :=
| Pending
| Resolved (value : A)
| Rejected (reason : E).
Arguments Pending {A E}.
Arguments Resolved {A E} value.
Arguments Rejected {A E} reason.

(** [resolve] and [reject] of the executor: only the first call has an
    effect. *)
Definition resolve {A E} (v : A) (p : t A E) : t A E :=
  match p with Pending => Resolved v | _ => p end.

Definition reject {A E} (e : E) (p : t A E) : t A E :=
  match p with Pending => Rejected e | _ => p end.

Definition settled {A E} (p : t A E) : bool :=
  match p with Pending => false | _ => true end.

End Promise.

(* ===================================================================== *)
(** * The readiness watcher: [waitForEndpoint] *)
(* ===================================================================== *)

Module Readiness.

Import Promise.

(** ** Text helpers *)

(** A chunk is a [Buffer]: a sequence of bytes, here a [string] whose
    characters are the bytes. *)
Definition Buffer := string.

(** [data.toString('ascii')]: each byte is decoded with its high bit
    unset. *)
Definition clearHighBit (c : ascii) : ascii :=
  match c with
  | Ascii b0 b1 b2 b3 b4 b5 b6 _ => Ascii b0 b1 b2 b3 b4 b5 b6 false
  end.

Fixpoint toStringAscii (data : Buffer) : string :=
  match data with
  | EmptyString => EmptyString
  | String c rest => String (clearHighBit c) (toStringAscii rest)
  end.

(** The characters that [.] of a regular expression does not match.
    Of the four line terminators of the language only line feed and
    carriage return are 8-bit characters. *)
Definition isLineTerminator (c : ascii) : bool :=
  Ascii.eqb c "010"%char || Ascii.eqb c "013"%char.

(** The greedy run matched by [.+] (or [.*]): the longest prefix free of
    line terminators. *)
Fixpoint dotRun (s : string) : string :=
  match s with
  | EmptyString => EmptyString
  | String c rest =>
      if isLineTerminator c then EmptyString else String c (dotRun rest)
  end.

Fixpoint stripPrefix (p s : string) : option string :=
  match p, s with
  | EmptyString, _ => Some s
  | String a p', String b s' =>
      if Ascii.eqb a b then stripPrefix p' s' else None
  | String _ _, EmptyString => None
  end.

Definition marker : string := "Web UI available at ".

(** [/Web UI available at (.+)/] tried at the start of [s]; the result is
    the first capturing group. *)
Definition matchHere (s : string) : option string :=
  match stripPrefix marker s with
  | Some rest =>
      match dotRun rest with
      | EmptyString => None
      | g => Some g
      end
  | None => None
  end.

(** [s.match(/Web UI available at (.+)/)] : the leftmost match;
    [None] is [null], [Some g] is [matches[1]]. *)
Fixpoint regexMatch (s : string) : option string :=
  match matchHere s with
  | Some g => Some g
  | None =>
      match s with
      | EmptyString => None
      | String _ rest => regexMatch rest
      end
  end.

(** [hay.indexOf(needle) !== -1].  The needle used below is 7-bit text,
    and UTF-8 decoding maps 7-bit bytes to themselves and every other
    byte sequence to characters outside that range, so the test on the
    decoded text and the test on the bytes agree. *)
Fixpoint contains (needle hay : string) : bool :=
  match stripPrefix needle hay with
  | Some _ => true
  | None =>
      match hay with
      | EmptyString => false
      | String _ rest => contains needle rest
      end
  end.

Definition EADDRINUSE : string := "EADDRINUSE".

(** No character of [s] is a line terminator. *)
Fixpoint lineFree (s : string) : bool :=
  match s with
  | EmptyString => true
  | String c rest => negb (isLineTerminator c) && lineFree rest
  end.

(** [s] is empty or begins with a line terminator. *)
Definition atLineEnd (s : string) : bool :=
  match s with
  | EmptyString => true
  | String c _ => isLineTerminator c
  end.

(** ** The watcher *)

(** What the server process can do while it is watched. *)
Inductive ServerEvent : Type :=
| StdoutData (data : Buffer)
| StderrData (error : Buffer)
| Exit (code : option Z)
| SpawnError.

Inductive LogLine : Type :=
| LogStdout (data : Buffer)
| LogStderr (error : Buffer).

(** The closure of [waitForEndpoint]: the local [endpointFound], the
    promise it returns (rejection reason: the text given to
    [new Error]), and the lines handed to [logger.log]. *)
Record Watcher : Type := mkWatcher {
  endpointFound : bool;
  future : Promise.t string string;
  logged : list LogLine
}.

Definition unsettled : Watcher :=
  {| endpointFound := false; future := Pending; logged := [] |}.

(** [server.stdout?.on('data', data => ...)] *)
Definition onStdout (data : Buffer) (w : Watcher) : Watcher :=
  let logged' :=
    if endpointFound w then logged w else logged w ++ [LogStdout data] in
  match regexMatch (toStringAscii data) with
  | Some endpoint =>
      {| endpointFound := true;
         future := resolve endpoint (future w);
         logged := logged' |}
  | None =>
      {| endpointFound := endpointFound w;
         future := future w;
         logged := logged' |}
  end.

(** [server.stderr?.on('data', error => ...)] *)
Definition onStderr (error : Buffer) (w : Watcher) : Watcher :=
  let logged' :=
    if endpointFound w then logged w else logged w ++ [LogStderr error] in
  if contains EADDRINUSE error then
    {| endpointFound := endpointFound w;
       future := reject error (future w);
       logged := logged' |}
  else
    {| endpointFound := endpointFound w;
       future := future w;
       logged := logged' |}.

(** No listener is attached for ['exit'] or ['error']. *)
Definition deliver (w : Watcher) (e : ServerEvent) : Watcher :=
  match e with
  | StdoutData data => onStdout data w
  | StderrData error => onStderr error w
  | Exit _ => w
  | SpawnError => w
  end.

Definition runFrom (w : Watcher) (events : list ServerEvent) : Watcher :=
  fold_left deliver events w.

Definition waitForEndpoint (events : list ServerEvent) : Watcher :=
  runFrom unsettled events.

(** ** Classification of events *)

Definition isReady (e : ServerEvent) : bool :=
  match e with
  | StdoutData data => bool_decide (is_Some (regexMatch (toStringAscii data)))
  | _ => false
  end.

Definition isPortConflict (e : ServerEvent) : bool :=
  match e with
  | StderrData error => contains EADDRINUSE error
  | _ => false
  end.

Definition notReady (e : ServerEvent) : bool := negb (isReady e).

(** An event that calls neither [resolve] nor [reject]. *)
Definition quiet (e : ServerEvent) : bool :=
  negb (isReady e) && negb (isPortConflict e).

(** As long as no chunk of the output matches, the promise is pending or
    rejected with a chunk that names the port conflict. *)
Definition unresolved (w : Watcher) : Prop :=
  match future w with
  | Pending => True
  | Rejected reason => contains EADDRINUSE reason = true
  | Resolved _ => False
  end.

End Readiness.

(* ===================================================================== *)
(** * Tearing the server down: [teardown] *)
(* ===================================================================== *)

Module Teardown.

(** What [teardown] does to the outside world. *)
Inductive Effect : Type :=
| TreeKill (pid : Z)                               (* promisify(kill)(pid) *)
| Probe (pid : Z)                                  (* process.kill(pid, 0) *)
| LogError (pid : Z) (attempt : nat) (error : string)
| LogGaveUp (attempts : nat).

(** The answers of the operating system, by attempt number (the value of
    [retries] when the request is made): [treeKill n] is [None] when the
    n-th tree-kill calls back without an error and [Some error] when it
    fails; [probe n] is [true] when signal 0 can be delivered (the
    process exists) and [false] when [process.kill] throws. *)
Record Env : Type := mkEnv {
  treeKill : nat -> option string;
  probe : nat -> bool
}.

(** Statements either complete normally or throw; a trace of effects is
    collected on the way. *)
Inductive Completion (A : Type) : Type :=
| Normal (a : A)
| Throws (error : string).
Arguments Normal {A} a.
Arguments Throws {A} error.

Definition Run (A : Type) : Type := (list Effect * Completion A)%type.

Definition pure {A} (a : A) : Run A := ([], Normal a).

Definition andThen {A B} (m : Run A) (k : A -> Run B) : Run B :=
  match m with
  | (t, Normal a) => let '(t', r) := k a in (t ++ t', r)
  | (t, Throws e) => (t, Throws e)
  end.

Definition perform (a : Effect) : Run unit := ([a], Normal tt).

Definition throw {A} (e : string) : Run A := ([], Throws e).

(** [try { body } catch (error) { handler }] *)
Definition tryCatch {A} (body : Run A) (handler : string -> Run A) : Run A :=
  match body with
  | (t, Normal a) => (t, Normal a)
  | (t, Throws e) => let '(t', r) := handler e in (t ++ t', r)
  end.

Notation "'let*' x ':=' m 'in' k" := (andThen m (fun x => k))
  (at level 10, x name, m at level 100, k at level 200, only parsing).
Notation "m >> k" := (andThen m (fun _ => k))
  (at level 100, k at level 200, right associativity, only parsing).

(** [await promisify(kill)(serverPid)] *)
Definition killTree (env : Env) (pid : Z) (attempt : nat) : Run unit :=
  perform (TreeKill pid) >>
  match treeKill env attempt with
  | None => pure tt
  | Some error => throw error
  end.

(** [process.kill(serverPid, 0)] *)
Definition probeAlive (env : Env) (pid : Z) (attempt : nat) : Run unit :=
  perform (Probe pid) >>
  if probe env attempt then pure tt else throw "ESRCH".

(** How one turn of the loop body ends. *)
Inductive Flow : Type := ReturnFromFunction | NextIteration.

(** The body of the [while] loop, after [retries++]. *)
Definition attempt (env : Env) (pid : Z) (retries : nat) : Run Flow :=
  tryCatch
    (killTree env pid retries >> pure ReturnFromFunction)
    (fun error =>
       tryCatch
         (probeAlive env pid retries >>
          perform (LogError pid retries error) >>
          pure NextIteration)
         (fun _ => pure ReturnFromFunction)).

(** [while (retries < 3) { retries++; ... }] and the statement after it.
    [None] would mean that the fuel did not suffice. *)
Fixpoint retryLoop (fuel : nat) (env : Env) (pid : Z) (retries : nat)
  : option (Run unit) :=
  match fuel with
  | O => None
  | S fuel' =>
      if (retries <? 3)%nat then
        let retries' := S retries in
        match attempt env pid retries' with
        | (t, Normal ReturnFromFunction) => Some (t, Normal tt)
        | (t, Normal NextIteration) =>
            match retryLoop fuel' env pid retries' with
            | Some (t', r) => Some (t ++ t', r)
            | None => None
            end
        | (t, Throws e) => Some (t, Throws e)
        end
      else Some (perform (LogGaveUp retries))
  end.

(** [teardown(serverPid, logger)]; [None] stands for [undefined]. *)
Definition teardown (env : Env) (serverPid : option Z) : option (Run unit) :=
  match serverPid with
  | None => Some (pure tt)
  | Some pid => retryLoop 4 env pid 0
  end.

(** Three operating systems used as examples. *)
Definition killedAtSecondTry : Env :=
  {| treeKill := fun n => if (n =? 2)%nat then None else Some "EPERM";
     probe := fun _ => true |}.

Definition alreadyGone : Env :=
  {| treeKill := fun _ => Some "no such process";
     probe := fun _ => false |}.

Definition unkillable : Env :=
  {| treeKill := fun _ => Some "EPERM"; probe := fun _ => true |}.

Definition isTreeKill (a : Effect) : bool :=
  match a with TreeKill _ => true | _ => false end.

Definition killRequests (t : list Effect) : nat :=
  length (List.filter isTreeKill t).

End Teardown.

(* ===================================================================== *)
(** * Per-window logger resources: [LoggerMainService] *)
(* ===================================================================== *)

Module LoggerMain.

(** A [ResourceMap] keys its entries by the text of the URI. *)
Definition URI := string.

Record ILoggerResource : Type := mkLoggerResource {
  resource : URI;
  name : string;
  hidden : bool
}.

#[export] Instance ILoggerResource_eq_dec : EqDecision ILoggerResource.
Proof. solve_decision. Defined.

Section Service.

(** The base class [LoggerService] is not part of the sources at hand;
    its state and the three methods that the subclass calls through
    [super] are parameters. *)
Variable Base : Type.
Variable superRegisterLogger : ILoggerResource -> Base -> Base.
Variable superDeregisterLogger : URI -> Base -> Base.
Variable superGetRegisteredLoggers : Base -> list ILoggerResource.

Record LoggerMainService : Type := mkService {
  base : Base;
  loggerResourcesByWindow : gmap string Z
}.

Definition registerLogger (r : ILoggerResource) (windowId : option Z)
    (s : LoggerMainService) : LoggerMainService :=
  {| base := superRegisterLogger r (base s);
     loggerResourcesByWindow :=
       match windowId with
       | Some w => <[resource r := w]> (loggerResourcesByWindow s)
       | None => loggerResourcesByWindow s
       end |}.

Definition deregisterLogger (u : URI) (s : LoggerMainService)
    : LoggerMainService :=
  {| base := superDeregisterLogger u (base s);
     loggerResourcesByWindow := delete u (loggerResourcesByWindow s) |}.

(** [loggerWindowId === undefined || loggerWindowId === windowId] *)
Definition isInterestedLoggerResource (u : URI) (windowId : option Z)
    (s : LoggerMainService) : bool :=
  match loggerResourcesByWindow s !! u with
  | None => true
  | Some loggerWindowId =>
      match windowId with
      | Some w => bool_decide (loggerWindowId = w)
      | None => false
      end
  end.

Definition getRegisteredLoggers (windowId : option Z)
    (s : LoggerMainService) : list ILoggerResource :=
  filter (fun r => isInterestedLoggerResource (resource r) windowId s = true)
         (superGetRegisteredLoggers (base s)).

(** A sequence of [registerLogger] calls, oldest first. *)
Definition registerAll (calls : list (ILoggerResource * option Z))
    (s : LoggerMainService) : LoggerMainService :=
  fold_left (fun acc c => registerLogger c.1 c.2 acc) calls s.

End Service.

(** A base class kept in a list, used as an example: a logger whose
    resource is registered already is not added again. *)
Definition listRegisterLogger (r : ILoggerResource)
    (b : list ILoggerResource) : list ILoggerResource :=
  if bool_decide (resource r ∈ (resource <$> b)) then b else b ++ [r].

Definition mainLog : ILoggerResource :=
  {| resource := "file:///logs/main.log"; name := "Main"; hidden := false |}.

Definition rendererLog (n : Z) : ILoggerResource :=
  {| resource := if bool_decide (n = 1%Z)
                 then "file:///logs/window1/renderer.log"
                 else "file:///logs/window2/renderer.log";
     name := "Window"; hidden := false |}.

(** Whether a logger registered as [(r, windowId)] is meant for window
    [w]. *)
Definition visibleTo (w : Z) (c : ILoggerResource * option Z) : Prop :=
  c.2 = None \/ c.2 = Some w.

#[export] Instance visibleTo_dec w c : Decision (visibleTo w c).
Proof. unfold visibleTo. apply _. Defined.

(** The window id given by the latest call in [calls] (oldest first) that
    registered the resource [u] with a window id, if there is one. *)
Fixpoint latestWindow (u : URI) (calls : list (ILoggerResource * option Z))
  : option Z :=
  match calls with
  | [] => None
  | c :: rest =>
      match latestWindow u rest with
      | Some w => Some w
      | None => if bool_decide (resource c.1 = u) then c.2 else None
      end
  end.

(** After the calls [calls], the resource of [r] was never registered
    with a window id, or the latest window id given for it is [w]. *)
Definition recordedFor (w : Z) (calls : list (ILoggerResource * option Z))
    (r : ILoggerResource) : Prop :=
  latestWindow (resource r) calls = None
  \/ latestWindow (resource r) calls = Some w.

#[export] Instance recordedFor_dec w calls r : Decision (recordedFor w calls r).
Proof. unfold recordedFor. apply _. Defined.

End LoggerMain.

(* ===================================================================== *)
(** * The tunnel supervisor: [RemoteTunnelService] *)
(* ===================================================================== *)

Module RemoteTunnel.

Import Promise.

Record IRemoteTunnelAccount : Type := mkAccount {
  authenticationProviderId : string;
  token : string
}.

#[export] Instance IRemoteTunnelAccount_eq_dec : EqDecision IRemoteTunnelAccount.
Proof. solve_decision. Defined.

(** The two call sites of [runCodeTunneCommand]. *)
Inductive Phase : Type := LoggingIn | Serving.

#[export] Instance Phase_eq_dec : EqDecision Phase.
Proof. solve_decision. Defined.

Definition logLabel (p : Phase) : string :=
  match p with LoggingIn => "login" | Serving => "tunnel" end.

(** Why a promise is rejected: [reject()] of the ['error'] listener, or
    the cancellation of the operation. *)
Inductive Reason : Type := ProcessError | Cancellation.

Definition PromiseState : Type := Promise.t unit Reason.

(** The child process as the operating system sees it.  [kill()] only
    sends a signal: the child stays alive until it exits. *)
Inductive ChildStatus : Type :=
| Running
| Signalled
| Exited (code : option Z)
| Failed.

Definition alive (c : ChildStatus) : bool :=
  match c with Running | Signalled => true | Exited _ | Failed => false end.

Definition unsignalled (c : ChildStatus) : bool :=
  match c with Running => true | _ => false end.

(** One call of [runCodeTunneCommand]: the cancelable promise it returns
    together with the closure of its executor.  The operation stored at
    index [i] owns the child with pid [i]. *)
Record Operation : Type := mkOperation {
  phase : Phase;
  commandArgs : list string;
  isCancellationRequested : bool;   (* the token *)
  tunnelProcess : bool;             (* is the local [tunnelProcess] defined *)
  executor : PromiseState;          (* the promise built by the executor *)
  promise : PromiseState;           (* the cancelable promise *)
  child : ChildStatus
}.

Record Service : Type := mkService {
  _account : option IRemoteTunnelAccount;
  _tunnelProcess : option nat;      (* a reference to an operation *)
  operations : list Operation;
  microtasks : list nat             (* settled promises with a pending reaction *)
}.

Definition initial : Service :=
  {| _account := None; _tunnelProcess := None;
     operations := []; microtasks := [] |}.

(** What the service does that others can see.  Logger calls are left
    out. *)
Inductive Action : Type :=
| DidChangeAccount (account : option IRemoteTunnelAccount)
| TokenFailed (value : bool)
| TunnelFailed
| PublicLog2 (enabled : bool)
| CancelToken (operation : nat)
| Kill (pid : nat)
| Spawn (pid : nat) (command : string) (args : list string).

(** What happens to the service: a call of [updateAccount], or an event
    of one of its children. *)
Inductive Event : Type :=
| UpdateAccount (account : option IRemoteTunnelAccount)
| ChildExit (pid : nat) (code : option Z)
| ChildError (pid : nat).

(** ** State and trace *)

Definition M (A : Type) : Type := Service -> A * Service * list Action.

Definition ret {A} (a : A) : M A := fun s => (a, s, []).

Definition bind {A B} (m : M A) (k : A -> M B) : M B :=
  fun s =>
    let '(a, s1, t1) := m s in
    let '(b, s2, t2) := k a s1 in
    (b, s2, t1 ++ t2).

Notation "'let*' x ':=' m 'in' k" := (bind m (fun x => k))
  (at level 10, x name, m at level 100, k at level 200, only parsing).
Notation "m >> k" := (bind m (fun _ => k))
  (at level 100, k at level 200, right associativity, only parsing).

Definition emit (a : Action) : M unit := fun s => (tt, s, [a]).

Definition getAccount : M (option IRemoteTunnelAccount) :=
  fun s => (_account s, s, []).

Definition getTunnelProcess : M (option nat) :=
  fun s => (_tunnelProcess s, s, []).

Definition getOperation (i : nat) : M (option Operation) :=
  fun s => (operations s !! i, s, []).

Definition setAccount (a : option IRemoteTunnelAccount) : M unit :=
  fun s => (tt, {| _account := a; _tunnelProcess := _tunnelProcess s;
                   operations := operations s;
                   microtasks := microtasks s |}, []).

Definition setTunnelProcess (p : option nat) : M unit :=
  fun s => (tt, {| _account := _account s; _tunnelProcess := p;
                   operations := operations s;
                   microtasks := microtasks s |}, []).

Definition updateOperation (i : nat) (f : Operation -> Operation) : M unit :=
  fun s => (tt, {| _account := _account s;
                   _tunnelProcess := _tunnelProcess s;
                   operations := alter f i (operations s);
                   microtasks := microtasks s |}, []).

Definition pushOperation (op : Operation) : M nat :=
  fun s => (length (operations s),
            {| _account := _account s;
               _tunnelProcess := _tunnelProcess s;
               operations := operations s ++ [op];
               microtasks := microtasks s |}, []).

Definition enqueue (i : nat) : M unit :=
  fun s => (tt, {| _account := _account s;
                   _tunnelProcess := _tunnelProcess s;
                   operations := operations s;
                   microtasks := microtasks s ++ [i] |}, []).

Definition takeMicrotasks : M (list nat) :=
  fun s => (microtasks s,
            {| _account := _account s;
               _tunnelProcess := _tunnelProcess s;
               operations := operations s;
               microtasks := [] |}, []).

(** ** Field updates of an operation *)

Definition withToken (b : bool) (op : Operation) : Operation :=
  {| phase := phase op; commandArgs := commandArgs op;
     isCancellationRequested := b; tunnelProcess := tunnelProcess op;
     executor := executor op; promise := promise op; child := child op |}.

Definition withTunnelProcess (b : bool) (op : Operation) : Operation :=
  {| phase := phase op; commandArgs := commandArgs op;
     isCancellationRequested := isCancellationRequested op;
     tunnelProcess := b;
     executor := executor op; promise := promise op; child := child op |}.

Definition withExecutor (p : PromiseState) (op : Operation) : Operation :=
  {| phase := phase op; commandArgs := commandArgs op;
     isCancellationRequested := isCancellationRequested op;
     tunnelProcess := tunnelProcess op;
     executor := p; promise := promise op; child := child op |}.

Definition withPromise (p : PromiseState) (op : Operation) : Operation :=
  {| phase := phase op; commandArgs := commandArgs op;
     isCancellationRequested := isCancellationRequested op;
     tunnelProcess := tunnelProcess op;
     executor := executor op; promise := p; child := child op |}.

Definition withChild (c : ChildStatus) (op : Operation) : Operation :=
  {| phase := phase op; commandArgs := commandArgs op;
     isCancellationRequested := isCancellationRequested op;
     tunnelProcess := tunnelProcess op;
     executor := executor op; promise := promise op; child := c |}.

(** [kill()] delivers the signal to a child that has not exited. *)
Definition signal (op : Operation) : Operation :=
  withChild (match child op with Running => Signalled | c => c end) op.

(** ** The cancelable-promise primitive *)

(** What [cancel()] does to the promise it belongs to. *)
Inductive CancelPolicy : Type :=
| SettlesWithWork     (* the promise settles when the wrapped work does *)
| ResolvesOnCancel    (* [cancel()] resolves the promise *)
| RejectsOnCancel.    (* [cancel()] rejects the promise *)

(** The launch configuration. *)
Record Environment : Type := mkEnvironment {
  VSCODE_DEV : bool;
  tunnelCommand : string
}.

Section Supervisor.

Variable policy : CancelPolicy.
Variable env : Environment.

(** The cancelable promise settles: only the first settlement counts,
    and its reactions are queued as microtasks. *)
Definition settlePromise (i : nat) (outcome : PromiseState) : M unit :=
  let* o := getOperation i in
  match o with
  | Some op =>
      if settled (promise op) then ret tt
      else updateOperation i (withPromise outcome) >> enqueue i
  | None => ret tt
  end.

(** [resolve()] or [reject()] inside the executor; the cancelable
    promise follows the promise of the wrapped work. *)
Definition settleExecutor (i : nat) (outcome : PromiseState) : M unit :=
  let* o := getOperation i in
  match o with
  | Some op =>
      if settled (executor op) then ret tt
      else updateOperation i (withExecutor outcome) >>
           settlePromise i outcome
  | None => ret tt
  end.

(** The listener registered with [token.onCancellationRequested]. *)
Definition onCancellationRequested (i : nat) : M unit :=
  let* o := getOperation i in
  match o with
  | Some op =>
      if tunnelProcess op
      then emit (Kill i) >> updateOperation i signal
      else ret tt
  | None => ret tt
  end.

(** Modelled from the spec: [cancel()] of the cancelable promise made by
    [createCancelablePromise] (vs/base/common/async, not part of the
    sources at hand).  It flips the token, which runs the listener of
    the wrapped work; it is a no-op when called again or after the
    promise has settled.  Whether the cancelled promise is resolved,
    rejected or left to the wrapped work is the implementer's choice:
    the parameter [policy]. *)
Definition cancel (i : nat) : M unit :=
  let* o := getOperation i in
  match o with
  | Some op =>
      if isCancellationRequested op || settled (promise op) then ret tt
      else
        updateOperation i (withToken true) >>
        emit (CancelToken i) >>
        onCancellationRequested i >>
        match policy with
        | SettlesWithWork => ret tt
        | ResolvesOnCancel => settlePromise i (Resolved tt)
        | RejectsOnCancel => settlePromise i (Rejected Cancellation)
        end
  | None => ret tt
  end.

(** Modelled from the spec: [createCancelablePromise] (same file as
    [cancel]) hands the wrapped work a fresh token, one that is not
    cancelled, and returns the operation. *)
Definition createCancelablePromise (callback : bool -> M nat) : M nat :=
  callback false.

(** ** [runCodeTunneCommand] *)

Definition spawnCommand (args : list string) : string * list string :=
  if VSCODE_DEV env
  then ("cargo", "run" :: "--" :: args)
  else (tunnelCommand env, args).

(** The callback given to [createCancelablePromise]; its argument is
    [token.isCancellationRequested] at the time the executor runs. *)
Definition launch (ph : Phase) (args : list string)
    (isCancellationRequested0 : bool) : M nat :=
  (* if (token.isCancellationRequested) { resolve(); }
     is not followed by a return: the child is spawned in any case *)
  let* id := pushOperation
    {| phase := ph; commandArgs := args;
       isCancellationRequested := isCancellationRequested0;
       tunnelProcess := true;
       executor := if isCancellationRequested0
                   then Resolved tt else Pending;
       promise := Pending;
       child := Running |} in
  emit (Spawn id (spawnCommand args).1 (spawnCommand args).2) >>
  (if isCancellationRequested0
   then settlePromise id (Resolved tt) else ret tt) >>
  ret id.

Definition runCodeTunneCommand (ph : Phase) (args : list string) : M nat :=
  createCancelablePromise (launch ph args).

(** [tunnelProcess.on('exit', e => ...)] *)
Definition onExit (pid : nat) (code : option Z) : M unit :=
  let* o := getOperation pid in
  match o with
  | Some op =>
      if alive (child op) then
        updateOperation pid (withChild (Exited code)) >>
        if tunnelProcess op then
          updateOperation pid (withTunnelProcess false) >>
          settleExecutor pid (Resolved tt)
        else ret tt
      else ret tt
  | None => ret tt
  end.

(** [tunnelProcess.on('error', e => ...)]; a child that reports an
    error is counted as gone. *)
Definition onError (pid : nat) : M unit :=
  let* o := getOperation pid in
  match o with
  | Some op =>
      if alive (child op) then
        updateOperation pid (withChild Failed) >>
        if tunnelProcess op then
          updateOperation pid (withTunnelProcess false) >>
          settleExecutor pid (Rejected ProcessError)
        else ret tt
      else ret tt
  | None => ret tt
  end.

(** ** [updateTunnelProcess] *)

(** Up to [await loginProcess]. *)
Definition updateTunnelProcess : M unit :=
  let* active := getTunnelProcess in
  match active with
  | Some i => cancel i >> setTunnelProcess None
  | None => ret tt
  end >>
  let* account := getAccount in
  match account with
  | None => ret tt
  | Some a =>
      let* loginProcess :=
        runCodeTunneCommand LoggingIn
          ["tunnel"; "user"; "login";
           "--provider"; authenticationProviderId a;
           "--access-token"; token a] in
      setTunnelProcess (Some loginProcess)
  end.

(** The handler given to [serveCommand.finally]. *)
Definition afterServe (serveCommand : nat) : M unit :=
  let* active := getTunnelProcess in
  if bool_decide (active = Some serveCommand) then
    setTunnelProcess None >>
    setAccount None >>
    emit TunnelFailed
  else ret tt.

(** From [await loginProcess] on, once [loginProcess] has settled. *)
Definition afterLogin (loginProcess : nat) : M unit :=
  let* o := getOperation loginProcess in
  match o with
  | Some op =>
      match promise op with
      | Rejected _ =>
          setTunnelProcess None >> emit (TokenFailed true)
      | _ => ret tt
      end
  | None => ret tt
  end >>
  let* active := getTunnelProcess in
  if bool_decide (active = Some loginProcess) then
    let* serveCommand := runCodeTunneCommand Serving ["tunnel"] in
    setTunnelProcess (Some serveCommand)
  else ret tt.

(** The reaction attached to an operation where it is created. *)
Definition reaction (i : nat) : M unit :=
  let* o := getOperation i in
  match o with
  | Some op =>
      match phase op with
      | LoggingIn => afterLogin i
      | Serving => afterServe i
      end
  | None => ret tt
  end.

Fixpoint runReactions (queue : list nat) : M unit :=
  match queue with
  | [] => ret tt
  | i :: rest => reaction i >> runReactions rest
  end.

Definition drainMicrotasks : M unit :=
  let* queue := takeMicrotasks in
  runReactions queue.

(** ** [updateAccount] *)

Definition accountChanged (account current : option IRemoteTunnelAccount)
    : bool :=
  match account, current with
  | Some a, Some c =>
      negb (String.eqb (token a) (token c))
      || negb (String.eqb (authenticationProviderId a)
                          (authenticationProviderId c))
  | None, None => false
  | _, _ => true
  end.

Definition updateAccount (account : option IRemoteTunnelAccount) : M unit :=
  let* current := getAccount in
  if accountChanged account current then
    setAccount account >>
    emit (DidChangeAccount account) >>
    emit (PublicLog2 (bool_decide (is_Some account))) >>
    updateTunnelProcess
  else ret tt.

(** ** Running the service *)

Definition handle (e : Event) : M unit :=
  match e with
  | UpdateAccount account => updateAccount account
  | ChildExit pid code => onExit pid code
  | ChildError pid => onError pid
  end.

(** One turn of the event loop: the handler runs to its end, then the
    microtasks. *)
Definition step (e : Event) (s : Service) : Service * list Action :=
  let '(_, s', t) := (handle e >> drainMicrotasks) s in (s', t).

Fixpoint run (events : list Event) (s : Service) : Service * list Action :=
  match events with
  | [] => (s, [])
  | e :: rest =>
      let '(s1, t1) := step e s in
      let '(s2, t2) := run rest s1 in
      (s2, t1 ++ t2)
  end.

Definition stateAfter (events : list Event) : Service :=
  (run events initial).1.

Definition traceOf (events : list Event) : list Action :=
  (run events initial).2.

End Supervisor.

(** ** Observations *)

(** The children that have been spawned and have not exited. *)
Definition liveChildren (s : Service) : nat :=
  length (List.filter (fun op => alive (child op)) (operations s)).

Definition isSpawn (a : Action) : bool :=
  match a with Spawn _ _ _ => true | _ => false end.


Definition isTunnelFailed (a : Action) : bool :=
  match a with TunnelFailed => true | _ => false end.

Definition isDidChangeAccount (a : Action) : bool :=
  match a with DidChangeAccount _ => true | _ => false end.

Definition isCancelToken (a : Action) : bool :=
  match a with CancelToken _ => true | _ => false end.

Definition count (p : Action -> bool) (t : list Action) : nat :=
  length (List.filter p t).

(** Identity of accounts: both absent, or both present with equal
    fields. *)
Definition sameAccount (a b : option IRemoteTunnelAccount) : Prop :=
  match a, b with
  | None, None => True
  | Some x, Some y =>
      authenticationProviderId x = authenticationProviderId y
      /\ token x = token y
  | _, _ => False
  end.

End RemoteTunnel.

(* ===================================================================== *)
(** * The handlers of the tunnel supervisor, operation by operation *)
(* ===================================================================== *)

Module TunnelSummary.

Import Promise RemoteTunnel.

(** An operation as [runCodeTunneCommand] returns it: not cancelled, not
    settled, its child running and known to the closure. *)
Definition fresh (op : Operation) : Prop :=
  isCancellationRequested op = false /\ tunnelProcess op = true /\
  executor op = Pending /\ promise op = Pending /\ child op = Running.

(** Between two turns of the event loop no microtask is pending, and the
    operation that [_tunnelProcess] refers to is as it was created. *)
Definition Inv (s : Service) : Prop :=
  microtasks s = [] /\
  forall i, _tunnelProcess s = Some i ->
    exists op, operations s !! i = Some op /\ fresh op.

(** The effect of a settlement on one operation: the operation afterwards,
    and whether its reaction is queued. *)
Definition settledPromise (o : PromiseState) (op : Operation) : Operation * bool :=
  if settled (promise op) then (op, false) else (withPromise o op, true).

Definition settledExecutor (o : PromiseState) (op : Operation) : Operation * bool :=
  if settled (executor op) then (op, false)
  else settledPromise o (withExecutor o op).

(** The effect of the ['exit'] listener on the operation of the child. *)
Definition exitedOp (code : option Z) (op : Operation) : Operation * bool :=
  if alive (child op) then
    if tunnelProcess op then
      settledExecutor (Resolved tt)
        (withTunnelProcess false (withChild (Exited code) op))
    else (withChild (Exited code) op, false)
  else (op, false).

(** The effect of the ['error'] listener on the operation of the child. *)
Definition failedOp (op : Operation) : Operation * bool :=
  if alive (child op) then
    if tunnelProcess op then
      settledExecutor (Rejected ProcessError)
        (withTunnelProcess false (withChild Failed op))
    else (withChild Failed op, false)
  else (op, false).

(** The microtasks queued by a handler for the operation [i]. *)
Definition queued (b : bool) (i : nat) : list nat := if b then [i] else [].

(** The effect of [cancel()] on an operation that is neither cancelled nor
    settled. *)
Definition cancelledOp (policy : CancelPolicy) (op : Operation) : Operation * bool :=
  let op1 := withToken true op in
  let op2 := if tunnelProcess op then signal op1 else op1 in
  match policy with
  | SettlesWithWork => (op2, false)
  | ResolvesOnCancel => settledPromise (Resolved tt) op2
  | RejectsOnCancel => settledPromise (Rejected Cancellation) op2
  end.

(** The operation pushed by [runCodeTunneCommand]. *)
Definition newOperation (ph : Phase) (args : list string) : Operation :=
  {| phase := ph; commandArgs := args; isCancellationRequested := false;
     tunnelProcess := true; executor := Pending; promise := Pending;
     child := Running |}.

(** The arguments of the login command for an account. *)
Definition loginArgs (a : IRemoteTunnelAccount) : list string :=
  ["tunnel"; "user"; "login"; "--provider"; authenticationProviderId a;
   "--access-token"; token a].

(** An event of the child with pid [i] that ends it. *)
Definition finishes (i : nat) (e : Event) : Prop :=
  (exists code, e = ChildExit i code) \/ e = ChildError i.

(** A cancelled operation never keeps a child that was not signalled. *)
Definition signalledIfCancelled (op : Operation) : Prop :=
  isCancellationRequested op = true -> unsignalled (child op) = false.

(** What cancelling the active operation shows to the outside. *)
Definition cancelPart (active : option nat) : list Action :=
  match active with
  | Some i => [CancelToken i; Kill i]
  | None => []
  end.

(** Whether the reaction of a cancelled operation takes the [catch]
    branch of [updateTunnelProcess]. *)
Definition cancelRejectsLogin (policy : CancelPolicy) (ph : Phase) : bool :=
  match policy, ph with
  | RejectsOnCancel, LoggingIn => true
  | _, _ => false
  end.

(** The operation is a login whose promise is rejected. *)
Definition rejectedLogin (op : Operation) : bool :=
  match phase op, promise op with
  | LoggingIn, Rejected _ => true
  | _, _ => false
  end.


Section WithEnvironment.

Variable env : Environment.

(** The [spawn] call of [runCodeTunneCommand] for the child with pid [n]. *)
Definition spawned (n : nat) (args : list string) : Action :=
  Spawn n (spawnCommand env args).1 (spawnCommand env args).2.

(** The new login operation, if the account is present: the operation that
    becomes active, the operations, and what is spawned. *)
Definition started (a : option IRemoteTunnelAccount) (ops : list Operation)
  : option nat * list Operation * list Action :=
  match a with
  | Some acc =>
      (Some (List.length ops), ops ++ [newOperation LoggingIn (loginArgs acc)],
       [spawned (List.length ops) (loginArgs acc)])
  | None => (None, ops, [])
  end.

(** Running the queue of microtasks: one reaction, or none. *)
Definition react (b : bool) (i : nat) (s : Service) : Service * list Action :=
  if b then let '(_, s', t) := reaction env i s in (s', t) else (s, []).

End WithEnvironment.

(** A packaged build and two accounts, used in the concrete runs. *)
Definition packaged : Environment :=
  {| VSCODE_DEV := false; tunnelCommand := "code-tunnel" |}.

Definition accountA : option IRemoteTunnelAccount :=
  Some {| authenticationProviderId := "github"; token := "t1" |}.

Definition accountB : option IRemoteTunnelAccount :=
  Some {| authenticationProviderId := "github"; token := "t2" |}.

End TunnelSummary.

(* ===================================================================== *)
(** * What the readiness watcher logs *)
(* ===================================================================== *)

Module ReadinessLog.
Import Promise Readiness.

(** What [logger.log] receives for an event while the endpoint is not
    found. *)
Definition logLineOf (e : ServerEvent) : list LogLine :=
  match e with
  | StdoutData data => [LogStdout data]
  | StderrData error => [LogStderr error]
  | Exit _ | SpawnError => []
  end.

Definition settles (e : ServerEvent) : bool := isReady e || isPortConflict e.

End ReadinessLog.

(* ===================================================================== *)
(** * Counting the requests of [teardown] *)
(* ===================================================================== *)

Module TeardownCount.
Import Teardown.

Definition isProbe (a : Effect) : bool :=
  match a with Probe _ => true | _ => false end.

Definition probeRequests (t : list Effect) : nat :=
  length (List.filter isProbe t).

Definition isGaveUp (a : Effect) : bool :=
  match a with LogGaveUp _ => true | _ => false end.

End TeardownCount.

(* ===================================================================== *)
(** * Per-window events of [LoggerMainService] *)
(* ===================================================================== *)

Module LoggerMainEvents.
Import LoggerMain.

(** [DidChangeLoggersEvent] *)
Record DidChangeLoggersEvent : Type := mkLoggersEvent {
  added : list ILoggerResource;
  removed : list ILoggerResource
}.

Section Service.

Variable Base : Type.
Variable superDeregisterLogger : URI -> Base -> Base.
(** The type [LogLevel] is declared outside the sources at hand. *)
Variable LogLevel : Type.

(** The argument of [onDidChangeLogLevel]: [LogLevel | [URI, LogLevel]]. *)
Inductive LogLevelChange : Type :=
| GlobalLevel (level : LogLevel)
| ResourceLevel (resource : URI) (level : LogLevel).

(** The predicate given to [Event.filter] in
    [getOnDidChangeLogLevelEvent]. *)
Definition passesLogLevelFilter (windowId : Z) (s : LoggerMainService Base)
    (arg : LogLevelChange) : bool :=
  match arg with
  | GlobalLevel _ => true
  | ResourceLevel u _ => isInterestedLoggerResource Base u (Some windowId) s
  end.

(** The predicate given to [Event.filter] in
    [getOnDidChangeVisibilityEvent]. *)
Definition passesVisibilityFilter (windowId : Z) (s : LoggerMainService Base)
    (arg : URI * bool) : bool :=
  isInterestedLoggerResource Base arg.1 (Some windowId) s.

(** [getOnDidChangeLoggersEvent]: what a listener of window [windowId]
    receives for an event [e] of [onDidChangeLoggers], if anything. *)
Definition loggersEventFor (windowId : Z) (s : LoggerMainService Base)
    (e : DidChangeLoggersEvent) : option DidChangeLoggersEvent :=
  let interested (r : ILoggerResource) :=
    isInterestedLoggerResource Base (resource r) (Some windowId) s = true in
  let r := {| added := filter interested (added e);
              removed := filter interested (removed e) |} in
  if bool_decide (0 < length (added r))%nat
     || bool_decide (0 < length (removed r))%nat
  then Some r else None.

(** [deregisterLoggers]: the loop visits the entries of
    [loggerResourcesByWindow] in the order of their insertion, here the
    list [entries]. *)
Definition deregisterLoggersIn (entries : list (URI * Z)) (windowId : Z)
    (s : LoggerMainService Base) : LoggerMainService Base :=
  fold_left
    (fun acc entry =>
       if bool_decide (entry.2 = windowId)
       then deregisterLogger Base superDeregisterLogger entry.1 acc
       else acc)
    entries s.

End Service.

(** The list-kept base class of the examples forgets a resource. *)
Definition listDeregisterLogger (u : URI) (b : list ILoggerResource)
  : list ILoggerResource :=
  filter (fun r => resource r <> u) b.

(** The services of the examples: none registered, and the main log with
    the logs of two windows. *)
Definition noLoggers : LoggerMainService (list ILoggerResource) :=
  {| base := []; loggerResourcesByWindow := ∅ |}.

Definition threeLoggers : LoggerMainService (list ILoggerResource) :=
  registerAll (list ILoggerResource) listRegisterLogger
    [(mainLog, None); (rendererLog 1, Some 1%Z); (rendererLog 2, Some 2%Z)]
    noLoggers.

End LoggerMainEvents.

(* ===================================================================== *)
(** * Disposal and the turns of the tunnel supervisor *)
(* ===================================================================== *)

Module TunnelLifecycle.

Import Promise RemoteTunnel TunnelSummary.

Section Supervisor.

Variable policy : CancelPolicy.
Variable env : Environment.



(** [getAccount], read between two turns. *)
Definition storedAccount (s : Service) : option IRemoteTunnelAccount :=
  (getAccount s).1.1.

(** One turn of the event loop in a state that satisfies [Inv], case by
    case. *)
Inductive Turn : Service -> Event -> Service * list Action -> Prop :=
| TurnSameAccount acc tp ops a :
    accountChanged a acc = false ->
    Turn (mkService acc tp ops []) (UpdateAccount a)
         (mkService acc tp ops [], [])
| TurnStart acc ops a :
    accountChanged a acc = true ->
    Turn (mkService acc None ops []) (UpdateAccount a)
         (mkService a (started env a ops).1.1 (started env a ops).1.2 [],
          [DidChangeAccount a; PublicLog2 (bool_decide (is_Some a))]
            ++ (started env a ops).2)
| TurnRestart acc i ops op a :
    ops !! i = Some op -> fresh op ->
    accountChanged a acc = true ->
    Turn (mkService acc (Some i) ops []) (UpdateAccount a)
         (mkService a
            (if cancelRejectsLogin policy (phase op) then None
             else (started env a
                     (<[i := (cancelledOp policy op).1]> ops)).1.1)
            (started env a (<[i := (cancelledOp policy op).1]> ops)).1.2 [],
          [DidChangeAccount a; PublicLog2 (bool_decide (is_Some a));
           CancelToken i; Kill i]
            ++ (started env a (<[i := (cancelledOp policy op).1]> ops)).2
            ++ (if cancelRejectsLogin policy (phase op)
                then [TokenFailed true] else []))
| TurnLoginExit acc i ops op code :
    ops !! i = Some op -> fresh op -> phase op = LoggingIn ->
    Turn (mkService acc (Some i) ops []) (ChildExit i code)
         (mkService acc (Some (List.length ops))
            (<[i := (exitedOp code op).1]> ops
             ++ [newOperation Serving ["tunnel"]]) [],
          [spawned env (List.length ops) ["tunnel"]])
| TurnLoginError acc i ops op :
    ops !! i = Some op -> fresh op -> phase op = LoggingIn ->
    Turn (mkService acc (Some i) ops []) (ChildError i)
         (mkService acc None (<[i := (failedOp op).1]> ops) [],
          [TokenFailed true])
| TurnServeExit acc i ops op code :
    ops !! i = Some op -> fresh op -> phase op = Serving ->
    Turn (mkService acc (Some i) ops []) (ChildExit i code)
         (mkService None None (<[i := (exitedOp code op).1]> ops) [],
          [TunnelFailed])
| TurnServeError acc i ops op :
    ops !! i = Some op -> fresh op -> phase op = Serving ->
    Turn (mkService acc (Some i) ops []) (ChildError i)
         (mkService None None (<[i := (failedOp op).1]> ops) [],
          [TunnelFailed])
| TurnStaleExit acc tp i ops op code :
    tp <> Some i -> ops !! i = Some op ->
    Turn (mkService acc tp ops []) (ChildExit i code)
         (mkService acc tp (<[i := (exitedOp code op).1]> ops) [], [])
| TurnStaleError acc tp i ops op :
    tp <> Some i -> ops !! i = Some op ->
    (failedOp op).2 && rejectedLogin (failedOp op).1 = false ->
    Turn (mkService acc tp ops []) (ChildError i)
         (mkService acc tp (<[i := (failedOp op).1]> ops) [], [])
| TurnStaleLoginError acc tp i ops op :
    tp <> Some i -> ops !! i = Some op ->
    (failedOp op).2 && rejectedLogin (failedOp op).1 = true ->
    Turn (mkService acc tp ops []) (ChildError i)
         (mkService acc None (<[i := (failedOp op).1]> ops) [],
          [TokenFailed true])
| TurnUnknownExit acc tp i ops code :
    ops !! i = None ->
    Turn (mkService acc tp ops []) (ChildExit i code)
         (mkService acc tp ops [], [])
| TurnUnknownError acc tp i ops :
    ops !! i = None ->
    Turn (mkService acc tp ops []) (ChildError i)
         (mkService acc tp ops [], []).

(** Where a process spawned in the turn of the event [e] comes from: the
    login command for the account given to [updateAccount], which is the
    account stored afterwards, or the serve command after the exit of the
    active login.  With [VSCODE_DEV] set the command is run through
    [cargo run --], otherwise it is the tunnel command of the product.
    Its pid is the index of the new operation. *)
Definition spawnOrigin (s : Service) (e : Event)
    (r : Service * list Action) (a : Action) : Prop :=
  exists cargs : list string,
    a = (if VSCODE_DEV env
         then Spawn (List.length (operations s)) "cargo"
                ("run" :: "--" :: cargs)
         else Spawn (List.length (operations s)) (tunnelCommand env) cargs)
    /\ ((exists acc,
           e = UpdateAccount (Some acc)
           /\ cargs = ["tunnel"; "user"; "login";
                       "--provider"; authenticationProviderId acc;
                       "--access-token"; token acc]
           /\ storedAccount r.1 = Some acc)
        \/ (exists i op code,
              e = ChildExit i code /\ _tunnelProcess s = Some i
              /\ operations s !! i = Some op /\ phase op = LoggingIn
              /\ cargs = ["tunnel"])).

End Supervisor.

(** A build run out of the sources, used in the concrete runs. *)
Definition development : Environment :=
  {| VSCODE_DEV := true; tunnelCommand := "code-tunnel" |}.

Definition isKill (a : Action) : bool :=
  match a with Kill _ => true | _ => false end.

Definition isChildEvent (e : Event) : bool :=
  match e with UpdateAccount _ => false | _ => true end.

(** The events after which, with the given primitive, no promise of a
    cancelled login is rejected. *)
Definition calm (policy : CancelPolicy) (e : Event) : bool :=
  match policy, e with
  | ResolvesOnCancel, _ => true
  | SettlesWithWork, ChildError _ => false
  | SettlesWithWork, _ => true
  | RejectsOnCancel, _ => false
  end.

(** Every child that runs and was not signalled belongs to the active
    operation; with a primitive that resolves on cancel, every other
    operation is settled. *)
Definition soleRunner (policy : CancelPolicy) (s : Service) : Prop :=
  forall j op,
    operations s !! j = Some op -> _tunnelProcess s <> Some j ->
    child op <> Running
    /\ (policy = ResolvesOnCancel -> settled (promise op) = true).

(** Between [op] and [op'], one operation before and after a turn, the
    promise of a login whose token is cancelled went from pending to
    rejected. *)
Definition cancelledLoginRejected (op op' : Operation) : bool :=
  isCancellationRequested op' && rejectedLogin op'
  && negb (settled (promise op)).

(** The turn that leads from [s] to [s'] rejects the promise of a
    cancelled login. *)
Definition rejectsCancelledLogin (s s' : Service) : bool :=
  existsb
    (fun i =>
       match operations s !! i, operations s' !! i with
       | Some op, Some op' => cancelledLoginRejected op op'
       | _, _ => false
       end)
    (seq 0 (List.length (operations s))).

(** No turn of the history [events], run from [s], rejects the promise of
    a cancelled login. *)
Fixpoint noCancelledLoginRejected (policy : CancelPolicy)
    (env : Environment) (events : list Event) (s : Service) : bool :=
  match events with
  | [] => true
  | e :: rest =>
      negb (rejectsCancelledLogin s (step policy env e s).1)
      && noCancelledLoginRejected policy env rest (step policy env e s).1
  end.

(** Every operation but the active one has no child that runs
    unsignalled, and is settled or cancelled. *)
Definition othersDone (s : Service) : Prop :=
  forall j op,
    operations s !! j = Some op -> _tunnelProcess s <> Some j ->
    child op <> Running
    /\ (settled (promise op) = true \/ isCancellationRequested op = true).

Definition latestIsActive (s : Service) : Prop :=
  forall i, _tunnelProcess s = Some i -> S i = List.length (operations s).

Definition activeHasAccount (s : Service) : Prop :=
  _account s = None -> _tunnelProcess s = None.

End TunnelLifecycle.

(* ===================================================================== *)
(** * The command line of the smoke-test server *)
(* ===================================================================== *)

Module ServerLaunch.

(** The fields of [LaunchOptions] that [launchServer] puts on the command
    line, and [codePath]. *)
Record LaunchOptions : Type := mkLaunchOptions {
  userDataDir : string;
  codePath : option string;
  extensionsPath : string;
  logsPath : string
}.

(** What the surroundings answer during one call of [launchServer]:
    whether the promise of [mkdir] is rejected, the environment variable
    [VSCODE_REMOTE_SERVER_PATH], and whether [require] of the server's
    [product.json] throws. *)
Record Call : Type := mkCall {
  options : LaunchOptions;
  mkdirFails : bool;
  VSCODE_REMOTE_SERVER_PATH : option string;
  requireFails : bool
}.

(** [let port = 9000;] *)
Definition firstPort : N := 9000%N.

(** A JavaScript number counts exactly up to 2^53; there [port + 1] is
    rounded back to [port]. *)
Definition maxExact : N := (2 ^ 53)%N.

(** The value of [port] after [port++]. *)
Definition increment (port : N) : N :=
  if (port <? maxExact)%N then (port + 1)%N else port.

(** [codePath ?? process.env.VSCODE_REMOTE_SERVER_PATH] *)
Definition codeServerPath (c : Call) : option string :=
  match codePath (options c) with
  | Some p => Some p
  | None => VSCODE_REMOTE_SERVER_PATH c
  end.

(** [if (codeServerPath)]: a string is truthy when it is not empty. *)
Definition truthy (s : option string) : bool :=
  match s with
  | Some (String _ _) => true
  | _ => false
  end.

(** The array [args] of [launchServer], after [args.push('--logsPath',
    logsPath)]; the template literal prints the port in decimal. *)
Definition serverArgs (port : N) (o : LaunchOptions) : list string :=
  ["--disable-telemetry"; "--disable-workspace-trust";
   "--port"; pretty port;
   "--driver"; "web";
   "--extensions-dir"; extensionsPath o;
   "--server-data-dir"; userDataDir o;
   "--accept-server-license-terms"]
  ++ ["--logsPath"; logsPath o].

Inductive Outcome : Type :=
| Throws
| Spawns (args : list string).

(** [launchServer] up to the call of [spawn]: the outcome, and the module
    variable [port] afterwards.  [spawn] is taken not to throw. *)
Definition launchServer (c : Call) (port : N) : Outcome * N :=
  if mkdirFails c then (Throws, port)
  else
    let args := serverArgs port (options c) in
    let port := increment port in
    if truthy (codeServerPath c) && requireFails c
    then (Throws, port)
    else (Spawns args, port).

(** Successive calls of [launchServer], in the order in which they get
    past [await mkdir]. *)
Fixpoint launchAll (calls : list Call) (port : N)
  : list Outcome * N :=
  match calls with
  | [] => ([], port)
  | c :: rest =>
      let '(outcome, port1) := launchServer c port in
      let '(more, port2) := launchAll rest port1 in
      (outcome :: more, port2)
  end.

(** The calls that took a port: those whose [mkdir] succeeded. *)
Definition portsTaken (calls : list Call) : N :=
  N.of_nat (List.length (List.filter (fun c => negb (mkdirFails c)) calls)).

(** The argument that follows the first occurrence of [flag]. *)
Fixpoint argumentOf (flag : string) (args : list string) : option string :=
  match args with
  | a :: rest =>
      if String.eqb a flag
      then match rest with v :: _ => Some v | [] => None end
      else argumentOf flag rest
  | [] => None
  end.

(** Two calls of the examples: the second is given the flag itself as
    its extensions directory. *)
Definition firstCall : Call :=
  mkCall (mkLaunchOptions "/tmp/d1" None "/tmp/ext" "/tmp/logs")
         false None false.

Definition secondCall : Call :=
  mkCall (mkLaunchOptions "/tmp/d2" (Some "/opt/server") "--port" "/tmp/logs")
         false None false.

Definition failedMkdir : Call :=
  mkCall (mkLaunchOptions "/proc/d" None "/tmp/ext" "/tmp/logs")
         true None false.

End ServerLaunch.

(* ===================================================================== *)
(** * Properties of the readiness watcher *)
(* ===================================================================== *)

Module ReadinessFacts.

Import Promise Readiness.

Lemma runFrom_app w l1 l2 :
  runFrom w (l1 ++ l2) = runFrom (runFrom w l1) l2.
Proof. unfold runFrom. apply fold_left_app. Qed.

Lemma runFrom_cons w e l : runFrom w (e :: l) = runFrom (deliver w e) l.
Proof. reflexivity. Qed.

(** A settled promise ignores every later [resolve] and [reject]. *)
Lemma handle_settled w e :
  settled (future w) = true -> future (deliver w e) = future w.
Proof.
  intros Hs. destruct e as [data|error| |]; simpl; try reflexivity.
  - unfold onStdout. destruct (regexMatch (toStringAscii data)); simpl;
      [|reflexivity].
    destruct (future w); simpl in *; congruence.
  - unfold onStderr. destruct (contains EADDRINUSE error); simpl;
      [|reflexivity].
    destruct (future w); simpl in *; congruence.
Qed.

Lemma runFrom_settled events : forall w,
  settled (future w) = true -> future (runFrom w events) = future w.
Proof.
  induction events as [|e events IH]; intros w Hs; [reflexivity|].
  rewrite runFrom_cons, IH; rewrite handle_settled; auto.
Qed.

Lemma handle_quiet w e :
  quiet e = true -> future (deliver w e) = future w.
Proof.
  unfold quiet, isReady, isPortConflict.
  destruct e as [data|error| |]; simpl; intros Hq; try reflexivity.
  - unfold onStdout.
    destruct (regexMatch (toStringAscii data)) eqn:E; [|reflexivity].
    rewrite bool_decide_eq_true_2 in Hq by eauto. discriminate.
  - unfold onStderr. destruct (contains EADDRINUSE error); [|reflexivity].
    discriminate.
Qed.

Lemma runFrom_quiet events : forall w,
  forallb quiet events = true -> future (runFrom w events) = future w.
Proof.
  induction events as [|e events IH]; intros w Hq; [reflexivity|].
  simpl in Hq. apply andb_true_iff in Hq as [He Hq].
  rewrite runFrom_cons, IH, handle_quiet; auto.
Qed.

Lemma handle_unresolved w e :
  notReady e = true -> unresolved w -> unresolved (deliver w e).
Proof.
  unfold notReady, isReady, unresolved.
  destruct e as [data|error| |]; simpl; intros Hn Hw; auto.
  - unfold onStdout.
    destruct (regexMatch (toStringAscii data)) eqn:E; [|exact Hw].
    rewrite bool_decide_eq_true_2 in Hn by eauto. discriminate.
  - unfold onStderr. destruct (contains EADDRINUSE error) eqn:E; simpl;
      [|exact Hw].
    destruct (future w); simpl; auto.
Qed.

Lemma runFrom_unresolved events : forall w,
  forallb notReady events = true -> unresolved w ->
  unresolved (runFrom w events).
Proof.
  induction events as [|e events IH]; intros w Hn Hw; [exact Hw|].
  simpl in Hn. apply andb_true_iff in Hn as [He Hn].
  rewrite runFrom_cons. apply IH; [exact Hn|].
  apply handle_unresolved; assumption.
Qed.

(** ** What the regular expression captures *)

Lemma append_empty s : String.append EmptyString s = s.
Proof. reflexivity. Qed.

Lemma append_String c s1 s2 :
  String.append (String c s1) s2 = String c (String.append s1 s2).
Proof. reflexivity. Qed.

Lemma stripPrefix_Some p : forall s rest,
  stripPrefix p s = Some rest -> s = String.append p rest.
Proof.
  induction p as [|a p IH]; intros s rest H; simpl in H.
  - rewrite append_empty. congruence.
  - destruct s as [|b s]; [discriminate|].
    destruct (Ascii.eqb a b) eqn:E; [|discriminate].
    apply Ascii.eqb_eq in E. subst b. rewrite append_String.
    f_equal. apply IH. exact H.
Qed.

Lemma dotRun_split s :
  exists after,
    s = String.append (dotRun s) after
    /\ lineFree (dotRun s) = true /\ atLineEnd after = true.
Proof.
  induction s as [|c s (after & Hs & Hl & Ha)]; simpl.
  - exists EmptyString. auto.
  - destruct (isLineTerminator c) eqn:E.
    + exists (String c s). simpl. rewrite E, append_empty. auto.
    + exists after. simpl. rewrite E, Hl, append_String. simpl.
      split; [f_equal; exact Hs | split; [reflexivity | exact Ha]].
Qed.

Lemma matchHere_Some s g :
  matchHere s = Some g ->
  exists after,
    s = String.append marker (String.append g after)
    /\ g <> EmptyString /\ lineFree g = true /\ atLineEnd after = true.
Proof.
  unfold matchHere. destruct (stripPrefix marker s) as [rest|] eqn:E;
    [|discriminate].
  apply stripPrefix_Some in E.
  destruct (dotRun_split rest) as (after & Hs & Hl & Ha).
  destruct (dotRun rest) as [|c r] eqn:D; [discriminate|].
  intros Hg. injection Hg as Hg. subst g. exists after.
  rewrite <- Hs. repeat split; auto; discriminate.
Qed.

Lemma regexMatch_Some s : forall g,
  regexMatch s = Some g ->
  exists before after,
    s = String.append before (String.append marker (String.append g after))
    /\ g <> EmptyString /\ lineFree g = true /\ atLineEnd after = true.
Proof.
  induction s as [|c s IH]; intros g H.
  - discriminate H.
  - cbn [regexMatch] in H. destruct (matchHere (String c s)) eqn:E.
    + injection H as ->. apply matchHere_Some in E as (after & Hs & Hr).
      exists EmptyString, after. rewrite append_empty. auto.
    + apply IH in H as (before & after & Hs & Hr).
      exists (String c before), after. rewrite append_String, <- Hs. auto.
Qed.

(** ** The claims *)

(** C6 (as the code has it): [waitForEndpoint] attaches no listener for
    the exit of the server.  When the process exits and no chunk of its
    output matched the readiness marker or named EADDRINUSE, before or
    after the exit, the promise stays pending. *)
Theorem exit_leaves_future_pending :
  forall (before after : list ServerEvent) (code : option Z),
    forallb quiet before = true ->
    forallb quiet after = true ->
    future (waitForEndpoint (before ++ Exit code :: after)) = Pending.
Proof.
  intros before after code Hb Ha. unfold waitForEndpoint.
  rewrite runFrom_app, runFrom_cons. simpl deliver.
  rewrite runFrom_quiet by exact Ha.
  rewrite runFrom_quiet by exact Hb. reflexivity.
Qed.

Lemma exit_leaves_future_pending_witness :
  future (waitForEndpoint
            ([StdoutData "Server bound to 127.0.0.1"] ++
             Exit (Some 1%Z) :: [StderrData "bye"])) = Pending.
Proof.
  apply (exit_leaves_future_pending
           [StdoutData "Server bound to 127.0.0.1"] [StderrData "bye"]
           (Some 1%Z)); reflexivity.
Defined.

(** C6, the claim as written, fails: the server exits with code 1 before
    any marker was seen, and the promise is not settled. *)
Lemma exit_does_not_settle :
  settled (future (waitForEndpoint [Exit (Some 1%Z)])) = false.
Proof. reflexivity. Qed.

(** C7: a chunk of the error stream that contains EADDRINUSE and comes
    before every matching chunk of the output rejects the promise with a
    port-conflict error, whatever follows; and once the promise is
    settled, no later event changes it. *)
Theorem readiness_race :
  (forall (before after : list ServerEvent) (error : Buffer),
      forallb notReady before = true ->
      contains EADDRINUSE error = true ->
      exists reason,
        future (waitForEndpoint (before ++ StderrData error :: after))
          = Rejected reason
        /\ contains EADDRINUSE reason = true)
  /\ (forall events later : list ServerEvent,
        settled (future (waitForEndpoint events)) = true ->
        future (waitForEndpoint (events ++ later))
          = future (waitForEndpoint events)).
Proof.
  split.
  - intros before after error Hb He. unfold waitForEndpoint.
    rewrite runFrom_app, runFrom_cons.
    pose proof (runFrom_unresolved before unsettled Hb I) as Hu.
    set (w := runFrom unsettled before) in *.
    assert (Hr : exists reason,
               future (deliver w (StderrData error)) = Rejected reason
               /\ contains EADDRINUSE reason = true).
    { simpl. unfold onStderr. rewrite He. simpl.
      unfold unresolved in Hu. destruct (future w) as [|v|r]; simpl.
      - eauto.
      - contradiction.
      - eauto. }
    destruct Hr as (reason & Hf & Hc). exists reason. split; [|exact Hc].
    rewrite runFrom_settled; rewrite Hf; reflexivity.
  - intros events later Hs. unfold waitForEndpoint in *.
    rewrite runFrom_app. apply runFrom_settled. exact Hs.
Qed.

Lemma readiness_race_witness :
  (exists reason,
      future (waitForEndpoint
                ([StdoutData "starting"] ++
                 StderrData "listen EADDRINUSE: address already in use"
                 :: [StdoutData "Web UI available at http://localhost:9000"]))
        = Rejected reason
      /\ contains EADDRINUSE reason = true)
  /\ future (waitForEndpoint
               ([StdoutData "Web UI available at http://localhost:9000"] ++
                [StderrData "EADDRINUSE"]))
     = future (waitForEndpoint
                 [StdoutData "Web UI available at http://localhost:9000"]).
Proof.
  split.
  - apply (proj1 readiness_race); reflexivity.
  - apply (proj2 readiness_race); reflexivity.
Defined.

(** C8: the first chunk of the output that matches
    [Web UI available at (.+)] resolves the promise with the first
    capturing group, the run of characters up to the end of the line;
    the chunk of the scenario resolves it with http://localhost:9001. *)
Theorem first_match_resolves :
  (forall (before after : list ServerEvent) (data : Buffer) (endpoint : string),
      forallb quiet before = true ->
      regexMatch (toStringAscii data) = Some endpoint ->
      future (waitForEndpoint (before ++ StdoutData data :: after))
        = Resolved endpoint)
  /\ (forall s endpoint,
        regexMatch s = Some endpoint ->
        exists before after,
          s = String.append before
                (String.append "Web UI available at "
                   (String.append endpoint after))
          /\ endpoint <> EmptyString
          /\ lineFree endpoint = true /\ atLineEnd after = true)
  /\ future (waitForEndpoint
               [StdoutData "Web UI available at http://localhost:9001"])
     = Resolved "http://localhost:9001".
Proof.
  split; [|split].
  - intros before after data endpoint Hb Hm. unfold waitForEndpoint.
    rewrite runFrom_app, runFrom_cons.
    assert (Hf : future (deliver (runFrom unsettled before) (StdoutData data))
                 = Resolved endpoint).
    { simpl. unfold onStdout. rewrite Hm. simpl.
      rewrite runFrom_quiet by exact Hb. reflexivity. }
    rewrite runFrom_settled; rewrite Hf; reflexivity.
  - intros s endpoint H. apply regexMatch_Some. exact H.
  - reflexivity.
Qed.

Lemma first_match_resolves_witness :
  future (waitForEndpoint
            ([StderrData "warning: slow start"] ++
             StdoutData "[12:00] Web UI available at http://localhost:9001?tkn=1"
             :: [StderrData "EADDRINUSE"]))
    = Resolved "http://localhost:9001?tkn=1"
  /\ exists before after,
       "x Web UI available at http://h:1" =
         String.append before
           (String.append "Web UI available at "
              (String.append "http://h:1" after))
       /\ "http://h:1" <> EmptyString
       /\ lineFree "http://h:1" = true /\ atLineEnd after = true.
Proof.
  split.
  - apply (proj1 first_match_resolves); reflexivity.
  - apply (proj1 (proj2 first_match_resolves)). reflexivity.
Defined.

End ReadinessFacts.

(* ===================================================================== *)
(** * Properties of [teardown] *)
(* ===================================================================== *)

Module TeardownFacts.

Import Teardown.

(** Splits on every answer the operating system can give in three
    attempts and evaluates the loop. *)
Ltac answers env :=
  destruct (treeKill env 1) as [?e1|] eqn:?K1;
  destruct (probe env 1) eqn:?P1;
  destruct (treeKill env 2) as [?e2|] eqn:?K2;
  destruct (probe env 2) eqn:?P2;
  destruct (treeKill env 3) as [?e3|] eqn:?K3;
  destruct (probe env 3) eqn:?P3.

Ltac evaluate :=
  unfold teardown; cbn [retryLoop Nat.ltb Nat.leb];
  unfold attempt, killTree, probeAlive, tryCatch, andThen, pure, perform,
    throw;
  cbn beta iota zeta delta [app].

Lemma teardown_total env pid :
  exists t, teardown env (Some pid) = Some (t, Normal tt)
            /\ (1 <= killRequests t <= 3)%nat.
Proof.
  evaluate. answers env; evaluate;
    repeat match goal with H : _ = _ |- _ => rewrite H; evaluate end;
    eexists; (split; [reflexivity | cbn; lia]).
Qed.

Lemma teardown_after_success env pid t r k :
  teardown env (Some pid) = Some (t, r) ->
  (1 <= k)%nat -> treeKill env k = None ->
  (killRequests t <= k)%nat
  /\ (killRequests t = k -> last t = Some (TreeKill pid)).
Proof.
  intros Ht Hk Hs.
  destruct k as [|[|[|[|k]]]]; [lia| | | |];
    [| | |destruct (teardown_total env pid) as (t' & Ht' & Hb);
          rewrite Ht' in Ht; injection Ht as <- <-; split; lia];
    revert Ht; evaluate; rewrite ?Hs; evaluate;
    answers env; evaluate; try discriminate;
    repeat match goal with H : _ = _ |- _ => rewrite H; evaluate end;
    intros Ht; injection Ht as <- <-; cbn; (split; [lia|]);
    intros; first [reflexivity | lia].
Qed.

Lemma teardown_after_gone env pid t r k error :
  teardown env (Some pid) = Some (t, r) ->
  (1 <= k)%nat -> treeKill env k = Some error -> probe env k = false ->
  (killRequests t <= k)%nat
  /\ (killRequests t = k -> last t = Some (Probe pid)).
Proof.
  intros Ht Hk Hs Hp.
  destruct k as [|[|[|[|k]]]]; [lia| | | |];
    [| | |destruct (teardown_total env pid) as (t' & Ht' & Hb);
          rewrite Ht' in Ht; injection Ht as <- <-; split; lia];
    revert Ht; evaluate; rewrite ?Hs, ?Hp; evaluate;
    answers env; evaluate; try discriminate;
    repeat match goal with H : _ = _ |- _ => rewrite H; evaluate end;
    intros Ht; injection Ht as <- <-; cbn; (split; [lia|]);
    intros; first [reflexivity | lia].
Qed.

Lemma teardown_gives_up env pid e1 e2 e3 :
  treeKill env 1 = Some e1 -> treeKill env 2 = Some e2 ->
  treeKill env 3 = Some e3 ->
  probe env 1 = true -> probe env 2 = true -> probe env 3 = true ->
  teardown env (Some pid)
  = Some ([TreeKill pid; Probe pid; LogError pid 1 e1;
           TreeKill pid; Probe pid; LogError pid 2 e2;
           TreeKill pid; Probe pid; LogError pid 3 e3;
           LogGaveUp 3], Normal tt).
Proof.
  intros K1 K2 K3 P1 P2 P3. evaluate.
  rewrite K1; evaluate; rewrite P1; evaluate.
  rewrite K2; evaluate; rewrite P2; evaluate.
  rewrite K3; evaluate; rewrite P3; evaluate. reflexivity.
Qed.

(** C9: [teardown] always settles and never throws.  Without a pid it
    returns at once and asks for no kill.  With a pid it asks for a tree
    kill at least once and at most three times; a kill that succeeds is
    the last thing it does; a failed kill followed by a probe that finds
    the process gone is followed by nothing; and after three failed kills
    of a process that is still there it logs that it gave up and
    returns. *)
Theorem teardown_settles :
  (forall env, teardown env None = Some ([], Normal tt))
  /\ (forall env pid,
        exists t, teardown env (Some pid) = Some (t, Normal tt)
                  /\ (1 <= killRequests t <= 3)%nat)
  /\ (forall env pid t r k,
        teardown env (Some pid) = Some (t, r) ->
        (1 <= k)%nat -> treeKill env k = None ->
        (killRequests t <= k)%nat
        /\ (killRequests t = k -> last t = Some (TreeKill pid)))
  /\ (forall env pid t r k error,
        teardown env (Some pid) = Some (t, r) ->
        (1 <= k)%nat -> treeKill env k = Some error -> probe env k = false ->
        (killRequests t <= k)%nat
        /\ (killRequests t = k -> last t = Some (Probe pid)))
  /\ (forall env pid e1 e2 e3,
        treeKill env 1 = Some e1 -> treeKill env 2 = Some e2 ->
        treeKill env 3 = Some e3 ->
        probe env 1 = true -> probe env 2 = true -> probe env 3 = true ->
        teardown env (Some pid)
        = Some ([TreeKill pid; Probe pid; LogError pid 1 e1;
                 TreeKill pid; Probe pid; LogError pid 2 e2;
                 TreeKill pid; Probe pid; LogError pid 3 e3;
                 LogGaveUp 3], Normal tt)).
Proof.
  split; [reflexivity|].
  split; [exact teardown_total|].
  split; [exact teardown_after_success|].
  split; [exact teardown_after_gone|exact teardown_gives_up].
Qed.

Lemma teardown_settles_witness :
  ((killRequests [TreeKill 7; Probe 7; LogError 7 1 "EPERM"; TreeKill 7]
    <= 2)%nat
   /\ (killRequests [TreeKill 7; Probe 7; LogError 7 1 "EPERM"; TreeKill 7]
       = 2%nat ->
       last [TreeKill 7; Probe 7; LogError 7 1 "EPERM"; TreeKill 7]
       = Some (TreeKill 7)))
  /\ ((killRequests [TreeKill 7; Probe 7] <= 1)%nat
      /\ (killRequests [TreeKill 7; Probe 7] = 1%nat ->
          last [TreeKill 7; Probe 7] = Some (Probe 7)))
  /\ teardown unkillable (Some 7%Z)
     = Some ([TreeKill 7; Probe 7; LogError 7 1 "EPERM";
              TreeKill 7; Probe 7; LogError 7 2 "EPERM";
              TreeKill 7; Probe 7; LogError 7 3 "EPERM";
              LogGaveUp 3], Normal tt).
Proof.
  destruct teardown_settles as (_ & _ & Hsuccess & Hgone & Hgiveup).
  split; [|split].
  - apply (Hsuccess killedAtSecondTry 7%Z _ (Normal tt) 2%nat);
      [reflexivity | lia | reflexivity].
  - apply (Hgone alreadyGone 7%Z _ (Normal tt) 1%nat "no such process");
      [reflexivity | lia | reflexivity | reflexivity].
  - apply (Hgiveup unkillable 7%Z "EPERM" "EPERM" "EPERM"); reflexivity.
Defined.

End TeardownFacts.

(* ===================================================================== *)
(** * Properties of [LoggerMainService] *)
(* ===================================================================== *)

Module LoggerMainFacts.

Import LoggerMain.

Lemma filter_fmap_fst {A B} (P : A -> Prop) (Q : A * B -> Prop)
    `{!forall a, Decision (P a)} `{!forall c, Decision (Q c)}
    (l : list (A * B)) :
  (forall c, c ∈ l -> P c.1 <-> Q c) ->
  filter P (fst <$> l) = fst <$> filter Q l.
Proof.
  induction l as [|c l IH]; intros HPQ; [reflexivity|].
  rewrite fmap_cons, !filter_cons.
  assert (Hc : P c.1 <-> Q c) by (apply HPQ; left).
  rewrite IH by (intros c' Hc'; apply HPQ; right; exact Hc').
  destruct (decide (P c.1)), (decide (Q c)); try reflexivity; tauto.
Qed.

Section Service.

Variable Base : Type.
Variable superRegisterLogger : ILoggerResource -> Base -> Base.
Variable superDeregisterLogger : URI -> Base -> Base.
Variable superGetRegisteredLoggers : Base -> list ILoggerResource.

Let Service := LoggerMainService Base.
Let getLoggers := getRegisteredLoggers Base superGetRegisteredLoggers.
Let registerCalls := registerAll Base superRegisterLogger.

(** In every state the loggers reported to a window are the registered
    ones whose resource is mapped to no window or to that window. *)
Lemma getRegisteredLoggers_elem (s : Service) (w : Z) (r : ILoggerResource) :
  r ∈ getLoggers (Some w) s <->
  r ∈ superGetRegisteredLoggers (base Base s)
  /\ (loggerResourcesByWindow Base s !! resource r = None
      \/ loggerResourcesByWindow Base s !! resource r = Some w).
Proof.
  unfold getLoggers, getRegisteredLoggers.
  rewrite list_elem_of_filter. unfold isInterestedLoggerResource.
  destruct (loggerResourcesByWindow Base s !! resource r) as [w'|];
    [|tauto].
  rewrite bool_decide_eq_true. split.
  - intros [-> Hr]. auto.
  - intros [Hr [Hw|Hw]]; [discriminate|]. injection Hw as ->. auto.
Qed.

(** Any sequence of registrations. *)

(** A call with a window id overwrites the window of its resource; a call
    without one leaves the map as it is. *)
Lemma registerAll_window (calls : list (ILoggerResource * option Z)) :
  forall (s : Service) (u : URI),
    loggerResourcesByWindow Base (registerCalls calls s) !! u
    = match latestWindow u calls with
      | Some w => Some w
      | None => loggerResourcesByWindow Base s !! u
      end.
Proof.
  induction calls as [|c calls IH]; intros s u; [reflexivity|].
  unfold registerCalls, registerAll in *. cbn [fold_left latestWindow].
  rewrite IH. destruct (latestWindow u calls) as [w|]; [reflexivity|].
  unfold registerLogger. cbn [loggerResourcesByWindow].
  destruct c.2 as [w|].
  - destruct (decide (resource c.1 = u)) as [->|Hne].
    + rewrite bool_decide_eq_true_2 by reflexivity. apply lookup_insert_eq.
    + rewrite bool_decide_eq_false_2 by exact Hne.
      apply lookup_insert_ne. exact Hne.
  - destruct (bool_decide (resource c.1 = u)); reflexivity.
Qed.

Lemma getRegisteredLoggers_recorded
    (calls : list (ILoggerResource * option Z)) (b : Base) (w : Z) :
  getLoggers (Some w)
    (registerCalls calls {| base := b; loggerResourcesByWindow := ∅ |})
  = filter (recordedFor w calls)
      (superGetRegisteredLoggers
         (base Base
            (registerCalls calls
               {| base := b; loggerResourcesByWindow := ∅ |}))).
Proof.
  unfold getLoggers, getRegisteredLoggers. apply list_filter_iff. intros r.
  unfold isInterestedLoggerResource, recordedFor.
  rewrite registerAll_window. cbn [loggerResourcesByWindow].
  rewrite lookup_empty.
  destruct (latestWindow (resource r) calls) as [w'|]; [|tauto].
  rewrite bool_decide_eq_true. split.
  - intros ->. auto.
  - intros [Hw|Hw]; [discriminate|]. injection Hw as ->. reflexivity.
Qed.

(** The base class starts without loggers and appends a logger whose
    resource is not registered yet. *)
Variable base0 : Base.
Hypothesis super_initial : superGetRegisteredLoggers base0 = [].
Hypothesis super_register :
  forall r b,
    resource r ∉ (resource <$> superGetRegisteredLoggers b) ->
    superGetRegisteredLoggers (superRegisterLogger r b)
    = superGetRegisteredLoggers b ++ [r].

Let start : Service :=
  {| base := base0; loggerResourcesByWindow := ∅ |}.

Lemma registerAll_snoc calls c (s : Service) :
  registerCalls (calls ++ [c]) s
  = registerLogger Base superRegisterLogger c.1 c.2 (registerCalls calls s).
Proof.
  unfold registerCalls, registerAll. rewrite fold_left_app. reflexivity.
Qed.

Lemma registerAll_state (calls : list (ILoggerResource * option Z)) :
  NoDup ((fun c => resource c.1) <$> calls) ->
  superGetRegisteredLoggers (base Base (registerCalls calls start))
  = fst <$> calls
  /\ (forall c, c ∈ calls ->
        loggerResourcesByWindow Base (registerCalls calls start)
          !! resource c.1 = c.2)
  /\ (forall u, u ∉ ((fun c => resource c.1) <$> calls) ->
        loggerResourcesByWindow Base (registerCalls calls start) !! u
        = None).
Proof.
  induction calls as [|c calls IH] using rev_ind; intros Hnd.
  - split; [exact super_initial|]. split.
    + intros c Hc. inversion Hc.
    + intros u _. apply lookup_empty.
  - rewrite fmap_app in Hnd. apply NoDup_app in Hnd as (Hnd & Hfresh & _).
    destruct (IH Hnd) as (Hget & Hin & Hout).
    assert (Hc : resource c.1 ∉ (fun c => resource c.1) <$> calls).
    { intros Hc. apply (Hfresh _ Hc). simpl. left. }
    rewrite registerAll_snoc. unfold registerLogger. cbn [base loggerResourcesByWindow].
    split; [|split].
    + rewrite super_register, Hget, fmap_app; [reflexivity|].
      rewrite Hget, <- list_fmap_compose. exact Hc.
    + intros c' Hc'. apply elem_of_app in Hc' as [Hc'|Hc'].
      * assert (Hne : resource c.1 <> resource c'.1).
        { intros Heq. apply Hc. rewrite Heq.
          apply (list_elem_of_fmap_2 (fun c => resource c.1)). exact Hc'. }
        destruct c.2; [rewrite lookup_insert_ne by exact Hne|]; auto.
      * apply list_elem_of_singleton in Hc'. subst c'.
        destruct c.2; [apply lookup_insert_eq|]. apply Hout. exact Hc.
    + intros u Hu. rewrite fmap_app in Hu. simpl in Hu.
      apply not_elem_of_app in Hu as [Hu Hu'].
      apply not_elem_of_cons in Hu' as [Hu' _].
      destruct c.2; [rewrite lookup_insert_ne by congruence|]; auto.
Qed.

Lemma getRegisteredLoggers_history
    (calls : list (ILoggerResource * option Z)) (w : Z) :
  NoDup ((fun c => resource c.1) <$> calls) ->
  getLoggers (Some w) (registerCalls calls start)
  = fst <$> filter (visibleTo w) calls.
Proof.
  intros Hnd. destruct (registerAll_state calls Hnd) as (Hget & Hin & _).
  unfold getLoggers, getRegisteredLoggers. rewrite Hget.
  apply filter_fmap_fst. intros c Hc.
  unfold isInterestedLoggerResource, visibleTo. rewrite (Hin c Hc).
  destruct c.2 as [w'|]; [|tauto].
  rewrite bool_decide_eq_true. split.
  - intros ->. auto.
  - intros [Hw|Hw]; [discriminate|]. injection Hw as ->. reflexivity.
Qed.


End Service.

(** C10 (as the code has it): in every state of the service
    [getRegisteredLoggers(w)] is the list of the base class's loggers
    whose resource is mapped to no window or to [w].  After any sequence
    of [registerLogger] calls the window of a resource is the window id
    of the latest call that gave one for it, so the result is the list of
    registered loggers whose resource never had a window id or had [w]
    as its latest one; a call without a window id does not make a
    resource visible to all.  When the calls are for distinct resources,
    the result is the list of the loggers registered without a window id
    or with window id [w], in the order of their registration. *)
Theorem getRegisteredLoggers_per_window :
  forall (Base : Type)
         (superRegisterLogger : ILoggerResource -> Base -> Base)
         (superGetRegisteredLoggers : Base -> list ILoggerResource),
    (forall (s : LoggerMainService Base) (w : Z) (r : ILoggerResource),
        r ∈ getRegisteredLoggers Base superGetRegisteredLoggers (Some w) s <->
        r ∈ superGetRegisteredLoggers (base Base s)
        /\ (loggerResourcesByWindow Base s !! resource r = None
            \/ loggerResourcesByWindow Base s !! resource r = Some w))
    /\ (forall (base0 : Base)
               (calls : list (ILoggerResource * option Z)) (w : Z),
          (forall u,
              loggerResourcesByWindow Base
                (registerAll Base superRegisterLogger calls
                   {| base := base0; loggerResourcesByWindow := ∅ |}) !! u
              = latestWindow u calls)
          /\ getRegisteredLoggers Base superGetRegisteredLoggers (Some w)
               (registerAll Base superRegisterLogger calls
                  {| base := base0; loggerResourcesByWindow := ∅ |})
             = filter (recordedFor w calls)
                 (superGetRegisteredLoggers
                    (base Base
                       (registerAll Base superRegisterLogger calls
                          {| base := base0;
                             loggerResourcesByWindow := ∅ |})))
          /\ (forall r w',
                (r, Some w') ∈ calls -> w' <> w ->
                (forall c, c ∈ calls -> resource c.1 = resource r ->
                           c.2 = None \/ c.2 = Some w') ->
                forall x, resource x = resource r ->
                  x ∉ getRegisteredLoggers Base superGetRegisteredLoggers
                        (Some w)
                        (registerAll Base superRegisterLogger calls
                           {| base := base0;
                              loggerResourcesByWindow := ∅ |})))
    /\ (forall base0 : Base,
          superGetRegisteredLoggers base0 = [] ->
          (forall r b,
              resource r ∉ (resource <$> superGetRegisteredLoggers b) ->
              superGetRegisteredLoggers (superRegisterLogger r b)
              = superGetRegisteredLoggers b ++ [r]) ->
          forall (calls : list (ILoggerResource * option Z)) (w : Z),
            NoDup ((fun c => resource c.1) <$> calls) ->
            getRegisteredLoggers Base superGetRegisteredLoggers (Some w)
              (registerAll Base superRegisterLogger calls
                 {| base := base0; loggerResourcesByWindow := ∅ |})
            = fst <$> filter (visibleTo w) calls).
Proof.
  intros Base superRegisterLogger superGetRegisteredLoggers.
  split; [|split].
  - apply getRegisteredLoggers_elem.
  - intros base0 calls w.
    assert (Hmap : forall u,
               loggerResourcesByWindow Base
                 (registerAll Base superRegisterLogger calls
                    {| base := base0; loggerResourcesByWindow := ∅ |}) !! u
               = latestWindow u calls).
    { intros u. rewrite registerAll_window. cbn [loggerResourcesByWindow].
      rewrite lookup_empty. destruct (latestWindow u calls); reflexivity. }
    split; [exact Hmap|]. split; [apply getRegisteredLoggers_recorded|].
    intros r w' Hin Hne Hall x Hx Hel.
    apply getRegisteredLoggers_elem in Hel as [_ Hwin].
    rewrite Hx, Hmap in Hwin.
    assert (Hlatest : latestWindow (resource r) calls = Some w').
    { clear -Hin Hall. induction calls as [|c calls IH];
        [inversion Hin|].
      cbn [latestWindow].
      assert (Hrest : forall c', c' ∈ calls ->
                        resource c'.1 = resource r ->
                        c'.2 = None \/ c'.2 = Some w')
        by (intros c' Hc'; apply Hall; right; exact Hc').
      destruct (latestWindow (resource r) calls) as [w1|] eqn:E.
      - apply elem_of_cons in Hin as [<-|Hin].
        + clear IH. revert E. clear -Hrest.
          induction calls as [|c' calls IH]; [discriminate|].
          cbn [latestWindow].
          destruct (latestWindow (resource r) calls) as [w2|] eqn:E2.
          * intros [= <-]. apply IH; [|reflexivity].
            intros c Hc. apply Hrest. right. exact Hc.
          * destruct (decide (resource c'.1 = resource r)) as [Heq|Hne].
            -- rewrite bool_decide_eq_true_2 by exact Heq. intros Hc'.
               destruct (Hrest c' ltac:(left) Heq) as [H|H]; congruence.
            -- rewrite bool_decide_eq_false_2 by exact Hne. discriminate.
        + apply IH; assumption.
      - apply elem_of_cons in Hin as [<-|Hin].
        + cbn [fst snd]. rewrite bool_decide_eq_true_2 by reflexivity.
          reflexivity.
        + specialize (IH Hin Hrest). discriminate IH. }
    rewrite Hlatest in Hwin. destruct Hwin as [H|H]; congruence.
  - intros base0 H0 Hreg calls w Hnd.
    apply (getRegisteredLoggers_history Base superRegisterLogger
             superGetRegisteredLoggers base0 H0 Hreg calls w Hnd).
Qed.

Lemma getRegisteredLoggers_per_window_witness :
  getRegisteredLoggers (list ILoggerResource) (fun b => b) (Some 1%Z)
    (registerAll (list ILoggerResource) listRegisterLogger
       [(mainLog, None); (rendererLog 1, Some 1%Z); (rendererLog 2, Some 2%Z)]
       {| base := []; loggerResourcesByWindow := ∅ |})
  = [mainLog; rendererLog 1].
Proof.
  refine (proj2 (proj2 (getRegisteredLoggers_per_window
                          (list ILoggerResource)
                          listRegisterLogger (fun b => b)))
            [] eq_refl _
            [(mainLog, None); (rendererLog 1, Some 1%Z);
             (rendererLog 2, Some 2%Z)] 1%Z _).
  - intros r b Hr. unfold listRegisterLogger.
    rewrite bool_decide_eq_false_2 by exact Hr. reflexivity.
  - apply (bool_decide_unpack _). vm_compute. exact I.
Defined.

(** C10, the claim as written, fails: the main log is registered for
    window 1 and then once more without a window id.  It was registered
    without a window id, yet window 2 is not shown it, with the list-kept
    base class of the examples and with any other. *)
Lemma registered_without_window_stays_hidden :
  (mainLog, None) ∈ filter (visibleTo 2%Z)
                      [(mainLog, Some 1%Z); (mainLog, None)]
  /\ getRegisteredLoggers (list ILoggerResource) (fun b => b) (Some 2%Z)
       (registerAll (list ILoggerResource) listRegisterLogger
          [(mainLog, Some 1%Z); (mainLog, None)]
          {| base := []; loggerResourcesByWindow := ∅ |})
     = []
  /\ (forall (Base : Type)
             (superRegisterLogger : ILoggerResource -> Base -> Base)
             (superGetRegisteredLoggers : Base -> list ILoggerResource)
             (base0 : Base),
        mainLog ∉ getRegisteredLoggers Base superGetRegisteredLoggers
                    (Some 2%Z)
                    (registerAll Base superRegisterLogger
                       [(mainLog, Some 1%Z); (mainLog, None)]
                       {| base := base0; loggerResourcesByWindow := ∅ |})).
Proof.
  split; [|split].
  - apply list_elem_of_filter. split; [left; reflexivity|].
    right. left.
  - vm_compute. reflexivity.
  - intros Base superRegisterLogger superGetRegisteredLoggers base0 H.
    apply getRegisteredLoggers_elem in H as [_ H].
    cbn in H. rewrite lookup_insert_eq in H.
    destruct H as [H|H]; discriminate H.
Qed.

End LoggerMainFacts.

(* ===================================================================== *)
(** * Properties of the tunnel supervisor *)
(* ===================================================================== *)

Module RemoteTunnelFacts.

Import Promise RemoteTunnel TunnelSummary.

Section Facts.
Variable policy : CancelPolicy.
Variable env : Environment.

Ltac unfold_m :=
  unfold step, handle, updateAccount, updateTunnelProcess, drainMicrotasks, afterLogin, afterServe, reaction,
    runCodeTunneCommand, createCancelablePromise, launch, onExit, onError, cancel, onCancellationRequested,
    settleExecutor, settlePromise,
    bind, ret, emit, getAccount, getTunnelProcess, getOperation, setAccount, setTunnelProcess,
    updateOperation, pushOperation, enqueue, takeMicrotasks.

Lemma alter_lookup (f : Operation -> Operation) i (ops : list Operation) op :
  ops !! i = Some op -> alter f i ops = <[i := f op]> ops.
Proof.
  intros H. apply list_eq. intros j.
  destruct (decide (i = j)) as [<-|Hne].
  - rewrite list_lookup_alter_eq, H, list_lookup_insert_eq; [reflexivity|].
    eapply lookup_lt_Some; eauto.
  - rewrite list_lookup_alter_ne, list_lookup_insert_ne by done. done.
Qed.

Lemma insert_lookup i (ops : list Operation) op op' :
  ops !! i = Some op -> <[i := op']> ops !! i = Some op'.
Proof. intros H. apply list_lookup_insert_eq. eapply lookup_lt_Some; eauto. Qed.

Lemma settlePromise_eq i o acc tp ops q op :
  ops !! i = Some op ->
  settlePromise i o (mkService acc tp ops q)
  = (tt, mkService acc tp (<[i := (settledPromise o op).1]> ops)
           (q ++ queued (settledPromise o op).2 i), []).
Proof.
  intros H. unfold settlePromise, settledPromise. unfold_m. cbn -[alter lookup insert].
  rewrite H. destruct (settled (promise op)); cbn -[alter lookup insert].
  - rewrite list_insert_id by done. rewrite app_nil_r. done.
  - rewrite (alter_lookup _ _ _ _ H). done.
Qed.

Lemma settleExecutor_eq i o acc tp ops q op :
  ops !! i = Some op ->
  settleExecutor i o (mkService acc tp ops q)
  = (tt, mkService acc tp (<[i := (settledExecutor o op).1]> ops)
           (q ++ queued (settledExecutor o op).2 i), []).
Proof.
  intros H. unfold settleExecutor, settledExecutor.
  unfold bind at 1. unfold getOperation at 1. cbn -[alter lookup insert settlePromise].
  rewrite H. destruct (settled (executor op)); cbn -[alter lookup insert settlePromise].
  - rewrite list_insert_id by done. rewrite app_nil_r. done.
  - unfold bind, updateOperation. cbn -[alter lookup insert settlePromise].
    rewrite (alter_lookup _ _ _ _ H).
    rewrite (settlePromise_eq i o acc tp _ q (withExecutor o op)) by (eapply insert_lookup; eauto).
    rewrite list_insert_insert_eq. done.
Qed.

Lemma onExit_eq i code acc tp ops q op :
  ops !! i = Some op ->
  onExit i code (mkService acc tp ops q)
  = (tt, mkService acc tp (<[i := (exitedOp code op).1]> ops)
           (q ++ queued (exitedOp code op).2 i), []).
Proof.
  intros H. unfold onExit, exitedOp.
  unfold bind at 1. unfold getOperation at 1.
  cbn -[alter lookup insert settleExecutor]. rewrite H.
  destruct (alive (child op)); cbn -[alter lookup insert settleExecutor].
  - unfold bind, updateOperation. cbn -[alter lookup insert settleExecutor].
    rewrite (alter_lookup _ _ _ _ H).
    destruct (tunnelProcess op); cbn -[alter lookup insert settleExecutor].
    + rewrite (alter_lookup _ _ _ (withChild (Exited code) op))
        by (eapply insert_lookup; eauto).
      rewrite list_insert_insert_eq.
      rewrite (settleExecutor_eq i _ acc tp _ q
                 (withTunnelProcess false (withChild (Exited code) op)))
        by (eapply insert_lookup; eauto).
      rewrite list_insert_insert_eq. done.
    + rewrite app_nil_r. done.
  - rewrite list_insert_id by done. rewrite app_nil_r. done.
Qed.

Lemma onError_eq i acc tp ops q op :
  ops !! i = Some op ->
  onError i (mkService acc tp ops q)
  = (tt, mkService acc tp (<[i := (failedOp op).1]> ops)
           (q ++ queued (failedOp op).2 i), []).
Proof.
  intros H. unfold onError, failedOp.
  unfold bind at 1. unfold getOperation at 1.
  cbn -[alter lookup insert settleExecutor]. rewrite H.
  destruct (alive (child op)); cbn -[alter lookup insert settleExecutor].
  - unfold bind, updateOperation. cbn -[alter lookup insert settleExecutor].
    rewrite (alter_lookup _ _ _ _ H).
    destruct (tunnelProcess op); cbn -[alter lookup insert settleExecutor].
    + rewrite (alter_lookup _ _ _ (withChild Failed op))
        by (eapply insert_lookup; eauto).
      rewrite list_insert_insert_eq.
      rewrite (settleExecutor_eq i _ acc tp _ q
                 (withTunnelProcess false (withChild Failed op)))
        by (eapply insert_lookup; eauto).
      rewrite list_insert_insert_eq. done.
    + rewrite app_nil_r. done.
  - rewrite list_insert_id by done. rewrite app_nil_r. done.
Qed.

Lemma handler_missing i acc tp ops q :
  ops !! i = None ->
  (forall code, onExit i code (mkService acc tp ops q) = (tt, mkService acc tp ops q, []))
  /\ onError i (mkService acc tp ops q) = (tt, mkService acc tp ops q, [])
  /\ cancel policy i (mkService acc tp ops q) = (tt, mkService acc tp ops q, [])
  /\ reaction env i (mkService acc tp ops q) = (tt, mkService acc tp ops q, []).
Proof.
  intros H. repeat split; intros; unfold_m; cbn -[alter lookup insert];
    rewrite H; reflexivity.
Qed.

Lemma cancel_eq i acc tp ops q op :
  ops !! i = Some op ->
  cancel policy i (mkService acc tp ops q)
  = if isCancellationRequested op || settled (promise op)
    then (tt, mkService acc tp ops q, [])
    else (tt, mkService acc tp (<[i := (cancelledOp policy op).1]> ops)
                (q ++ queued (cancelledOp policy op).2 i),
          CancelToken i :: (if tunnelProcess op then [Kill i] else [])).
Proof.
  intros H. unfold cancel, cancelledOp.
  unfold bind at 1. unfold getOperation at 1.
  cbn -[alter lookup insert settlePromise]. rewrite H.
  destruct (isCancellationRequested op || settled (promise op)); [reflexivity|].
  unfold onCancellationRequested, bind, updateOperation, emit, getOperation.
  cbn -[alter lookup insert settlePromise].
  rewrite (alter_lookup _ _ _ _ H).
  rewrite (insert_lookup _ _ _ _ H). cbn -[alter lookup insert settlePromise].
  destruct (tunnelProcess op); cbn -[alter lookup insert settlePromise].
  - rewrite (alter_lookup _ _ _ (withToken true op))
      by (eapply insert_lookup; eauto).
    rewrite list_insert_insert_eq.
    destruct policy; cbn -[alter lookup insert settlePromise].
    + rewrite app_nil_r. reflexivity.
    + rewrite (settlePromise_eq i _ acc tp _ q (signal (withToken true op)))
        by (eapply insert_lookup; eauto).
      rewrite list_insert_insert_eq. reflexivity.
    + rewrite (settlePromise_eq i _ acc tp _ q (signal (withToken true op)))
        by (eapply insert_lookup; eauto).
      rewrite list_insert_insert_eq. reflexivity.
  - destruct policy; cbn -[alter lookup insert settlePromise].
    + rewrite app_nil_r. reflexivity.
    + rewrite (settlePromise_eq i _ acc tp _ q (withToken true op))
        by (eapply insert_lookup; eauto).
      rewrite list_insert_insert_eq. reflexivity.
    + rewrite (settlePromise_eq i _ acc tp _ q (withToken true op))
        by (eapply insert_lookup; eauto).
      rewrite list_insert_insert_eq. reflexivity.
Qed.

Lemma runCodeTunneCommand_eq ph args acc tp ops q :
  runCodeTunneCommand env ph args (mkService acc tp ops q)
  = (length ops, mkService acc tp (ops ++ [newOperation ph args]) q,
     [spawned env (length ops) args]).
Proof. reflexivity. Qed.

Lemma afterServe_eq i acc tp ops q :
  afterServe i (mkService acc tp ops q)
  = if bool_decide (tp = Some i)
    then (tt, mkService None None ops q, [TunnelFailed])
    else (tt, mkService acc tp ops q, []).
Proof.
  unfold afterServe, bind, getTunnelProcess. cbn.
  destruct (bool_decide (tp = Some i)); reflexivity.
Qed.

Lemma afterLogin_eq i acc tp ops q op :
  ops !! i = Some op ->
  afterLogin env i (mkService acc tp ops q)
  = match promise op with
    | Rejected _ => (tt, mkService acc None ops q, [TokenFailed true])
    | _ =>
        if bool_decide (tp = Some i)
        then (tt, mkService acc (Some (length ops))
                    (ops ++ [newOperation Serving ["tunnel"]]) q,
              [spawned env (length ops) ["tunnel"]])
        else (tt, mkService acc tp ops q, [])
    end.
Proof.
  intros H. unfold afterLogin.
  unfold bind at 1. unfold bind at 1. unfold getOperation at 1.
  cbn -[alter lookup insert runCodeTunneCommand]. rewrite H.
  destruct (promise op); unfold bind, getTunnelProcess, setTunnelProcess, emit, ret;
    cbn -[alter lookup insert runCodeTunneCommand].
  - destruct (bool_decide (tp = Some i)); [|reflexivity].
    rewrite runCodeTunneCommand_eq. reflexivity.
  - destruct (bool_decide (tp = Some i)); [|reflexivity].
    rewrite runCodeTunneCommand_eq. reflexivity.
  - reflexivity.
Qed.

Lemma reaction_eq i s op :
  operations s !! i = Some op ->
  reaction env i s
  = match phase op with
    | LoggingIn => afterLogin env i s
    | Serving => afterServe i s
    end.
Proof.
  intros H. unfold reaction, bind, getOperation.
  cbn -[afterLogin afterServe]. rewrite H.
  destruct (phase op).
  - destruct (afterLogin env i s) as [[[] s'] t]. reflexivity.
  - destruct (afterServe i s) as [[[] s'] t]. reflexivity.
Qed.

Lemma drain_eq b i acc tp ops :
  drainMicrotasks env (mkService acc tp ops (queued b i))
  = let '(s', t) := react env b i (mkService acc tp ops []) in (tt, s', t).
Proof.
  unfold drainMicrotasks, react, bind, takeMicrotasks.
  destruct b; cbn -[reaction]; unfold bind, ret.
  - destruct (reaction env i (mkService acc tp ops [])) as [[[] s'] t].
    cbn. rewrite ?app_nil_r. reflexivity.
  - reflexivity.
Qed.

(** ** One turn of the event loop, for each kind of event *)

Lemma step_exit i code acc tp ops op :
  ops !! i = Some op ->
  step policy env (ChildExit i code) (mkService acc tp ops [])
  = react env (exitedOp code op).2 i
      (mkService acc tp (<[i := (exitedOp code op).1]> ops) []).
Proof.
  intros H. unfold step, handle, bind.
  rewrite (onExit_eq i code acc tp ops [] op H). rewrite app_nil_l, drain_eq.
  destruct (react env _ _ _) as [s' t]. reflexivity.
Qed.

Lemma step_error i acc tp ops op :
  ops !! i = Some op ->
  step policy env (ChildError i) (mkService acc tp ops [])
  = react env (failedOp op).2 i
      (mkService acc tp (<[i := (failedOp op).1]> ops) []).
Proof.
  intros H. unfold step, handle, bind.
  rewrite (onError_eq i acc tp ops [] op H). rewrite app_nil_l, drain_eq.
  destruct (react env _ _ _) as [s' t]. reflexivity.
Qed.

Lemma step_missing i acc tp ops :
  ops !! i = None ->
  (forall code, step policy env (ChildExit i code) (mkService acc tp ops [])
                = (mkService acc tp ops [], []))
  /\ step policy env (ChildError i) (mkService acc tp ops [])
     = (mkService acc tp ops [], []).
Proof.
  intros H. destruct (handler_missing i acc tp ops [] H) as (He & Hr & _).
  split; intros; unfold step, handle, bind; rewrite ?He, ?Hr; reflexivity.
Qed.

Lemma step_unchanged a acc tp ops :
  accountChanged a acc = false ->
  step policy env (UpdateAccount a) (mkService acc tp ops [])
  = (mkService acc tp ops [], []).
Proof.
  intros H. unfold step, handle, updateAccount, bind, getAccount. cbn.
  rewrite H. reflexivity.
Qed.

Lemma step_changed_idle a acc ops :
  accountChanged a acc = true ->
  step policy env (UpdateAccount a) (mkService acc None ops [])
  = (mkService a (started env a ops).1.1 (started env a ops).1.2 [],
     [DidChangeAccount a; PublicLog2 (bool_decide (is_Some a))]
       ++ (started env a ops).2).
Proof.
  intros H. unfold step, handle, updateAccount, bind, getAccount. cbn.
  rewrite H. destruct a; reflexivity.
Qed.

Lemma step_changed_active a acc i ops op :
  accountChanged a acc = true ->
  ops !! i = Some op ->
  isCancellationRequested op || settled (promise op) = false ->
  step policy env (UpdateAccount a) (mkService acc (Some i) ops [])
  = let ops1 := <[i := (cancelledOp policy op).1]> ops in
    let '(s', t) :=
      react env (cancelledOp policy op).2 i
        (mkService a (started env a ops1).1.1 (started env a ops1).1.2 []) in
    (s', [DidChangeAccount a; PublicLog2 (bool_decide (is_Some a));
          CancelToken i] ++ (if tunnelProcess op then [Kill i] else [])
         ++ (started env a ops1).2 ++ t).
Proof.
  intros H Hop Hc. unfold step, handle, updateAccount, updateTunnelProcess.
  unfold bind at 1. unfold bind at 1. unfold getAccount at 1.
  cbn -[cancel drainMicrotasks runCodeTunneCommand]. rewrite H.
  unfold bind, setAccount, emit, getTunnelProcess, getAccount, setTunnelProcess, ret.
  cbn -[cancel drainMicrotasks runCodeTunneCommand].
  rewrite (cancel_eq i a (Some i) ops [] op Hop), Hc.
  cbn -[cancel drainMicrotasks runCodeTunneCommand cancelledOp].
  destruct a as [acc'|]; cbn -[cancel drainMicrotasks runCodeTunneCommand cancelledOp].
  - rewrite runCodeTunneCommand_eq.
    cbn -[cancel drainMicrotasks runCodeTunneCommand cancelledOp].
    rewrite drain_eq. destruct (react env _ _ _) as [s' t].
    destruct (tunnelProcess op); reflexivity.
  - rewrite drain_eq. destruct (react env _ _ _) as [s' t].
    destruct (tunnelProcess op); cbn; rewrite ?app_nil_r; reflexivity.
Qed.

(** ** Reactions *)

Lemma react_inactive b i acc tp ops :
  tp <> Some i ->
  react env b i (mkService acc tp ops []) = (mkService acc tp ops [], [])
  \/ (react env b i (mkService acc tp ops [])
       = (mkService acc None ops [], [TokenFailed true])
      /\ b = true
      /\ exists op reason, ops !! i = Some op /\ phase op = LoggingIn
                           /\ promise op = Rejected reason).
Proof.
  intros Hne. unfold react. destruct b; [|left; reflexivity].
  destruct (ops !! i) as [op|] eqn:Hop.
  - rewrite (reaction_eq i (mkService acc tp ops []) op Hop).
    destruct (phase op) eqn:Hph.
    + rewrite (afterLogin_eq i acc tp ops [] op Hop).
      destruct (promise op) as [| |reason] eqn:Hp.
      * rewrite bool_decide_eq_false_2 by exact Hne. left; reflexivity.
      * rewrite bool_decide_eq_false_2 by exact Hne. left; reflexivity.
      * right. split; [reflexivity|]. split; [reflexivity|]. eauto.
    + rewrite afterServe_eq, bool_decide_eq_false_2 by exact Hne.
      left; reflexivity.
  - destruct (handler_missing i acc tp ops [] Hop) as (_ & _ & _ & ->).
    left; reflexivity.
Qed.

Lemma react_active_login i acc ops op :
  ops !! i = Some op -> phase op = LoggingIn ->
  react env true i (mkService acc (Some i) ops [])
  = match promise op with
    | Rejected _ => (mkService acc None ops [], [TokenFailed true])
    | _ => (mkService acc (Some (List.length ops))
              (ops ++ [newOperation Serving ["tunnel"]]) [],
            [spawned env (List.length ops) ["tunnel"]])
    end.
Proof.
  intros Hop Hph. unfold react.
  rewrite (reaction_eq i (mkService acc (Some i) ops []) op Hop), Hph,
    (afterLogin_eq i acc _ ops [] op Hop).
  destruct (promise op); rewrite ?bool_decide_eq_true_2 by reflexivity;
    reflexivity.
Qed.

Lemma react_active_serve i acc ops op :
  ops !! i = Some op -> phase op = Serving ->
  react env true i (mkService acc (Some i) ops [])
  = (mkService None None ops [], [TunnelFailed]).
Proof.
  intros Hop Hph. unfold react.
  rewrite (reaction_eq i (mkService acc (Some i) ops []) op Hop), Hph,
    afterServe_eq.
  rewrite bool_decide_eq_true_2 by reflexivity. reflexivity.
Qed.

(** ** What the handlers do to a fresh operation *)

Lemma exitedOp_fresh code op :
  fresh op ->
  exitedOp code op
  = ({| phase := phase op; commandArgs := commandArgs op;
        isCancellationRequested := false; tunnelProcess := false;
        executor := Resolved tt; promise := Resolved tt;
        child := Exited code |}, true).
Proof.
  intros (H1 & H2 & H3 & H4 & H5). unfold exitedOp, settledExecutor, settledPromise.
  destruct op; simpl in *; subst; reflexivity.
Qed.

Lemma failedOp_fresh op :
  fresh op ->
  failedOp op
  = ({| phase := phase op; commandArgs := commandArgs op;
        isCancellationRequested := false; tunnelProcess := false;
        executor := Rejected ProcessError; promise := Rejected ProcessError;
        child := Failed |}, true).
Proof.
  intros (H1 & H2 & H3 & H4 & H5). unfold failedOp, settledExecutor, settledPromise.
  destruct op; simpl in *; subst; reflexivity.
Qed.

Lemma cancelledOp_fresh op :
  fresh op ->
  cancelledOp policy op
  = ({| phase := phase op; commandArgs := commandArgs op;
        isCancellationRequested := true; tunnelProcess := true;
        executor := Pending;
        promise := match policy with
                   | SettlesWithWork => Pending
                   | ResolvesOnCancel => Resolved tt
                   | RejectsOnCancel => Rejected Cancellation
                   end;
        child := Signalled |},
     match policy with SettlesWithWork => false | _ => true end).
Proof.
  intros (H1 & H2 & H3 & H4 & H5). unfold cancelledOp, settledPromise.
  destruct op; simpl in *; subst; destruct policy; reflexivity.
Qed.

Lemma fresh_cancellable op :
  fresh op -> isCancellationRequested op || settled (promise op) = false.
Proof. intros (H1 & _ & _ & H4 & _). rewrite H1, H4. reflexivity. Qed.

Lemma fresh_new ph args : fresh (newOperation ph args).
Proof. repeat split. Qed.

(** ** The invariant *)

Lemma Inv_intro acc tp ops :
  (forall i, tp = Some i -> exists op, ops !! i = Some op /\ fresh op) ->
  Inv (mkService acc tp ops []).
Proof. intros H. split; [reflexivity|exact H]. Qed.

Lemma Inv_idle acc ops : Inv (mkService acc None ops []).
Proof. apply Inv_intro. discriminate. Qed.

Lemma Inv_started acc ops ph args :
  Inv (mkService acc (Some (List.length ops)) (ops ++ [newOperation ph args]) []).
Proof.
  apply Inv_intro. intros i [= <-]. exists (newOperation ph args).
  split; [|apply fresh_new]. apply list_lookup_middle. reflexivity.
Qed.

Lemma Inv_insert acc acc' tp ops i x :
  Inv (mkService acc tp ops []) -> tp <> Some i ->
  Inv (mkService acc' tp (<[i := x]> ops) []).
Proof.
  intros [_ H] Hne. apply Inv_intro. intros j ->.
  destruct (H j eq_refl) as (op & Hop & Hf). exists op. split; [|exact Hf].
  cbn. rewrite list_lookup_insert_ne by congruence. exact Hop.
Qed.

Lemma Inv_react b i acc tp ops :
  Inv (mkService acc tp ops []) -> tp <> Some i ->
  Inv (react env b i (mkService acc tp ops [])).1.
Proof.
  intros HI Hne.
  destruct (react_inactive b i acc tp ops Hne) as [->|[-> _]]; cbn.
  - exact HI.
  - apply Inv_idle.
Qed.

Lemma Inv_react_active i acc ops op :
  ops !! i = Some op ->
  Inv (react env true i (mkService acc (Some i) ops [])).1.
Proof.
  intros Hop. destruct (phase op) eqn:Hph.
  - rewrite (react_active_login i acc ops op Hop Hph).
    destruct (promise op); cbn; auto using Inv_idle, Inv_started.
  - rewrite (react_active_serve i acc ops op Hop Hph). apply Inv_idle.
Qed.

Lemma lookup_inserted (ops : list Operation) i op x :
  ops !! i = Some op -> <[i := x]> ops !! i = Some x.
Proof. apply insert_lookup. Qed.

Theorem Inv_step e s : Inv s -> Inv (step policy env e s).1.
Proof.
  destruct s as [acc tp ops q]. intros HI. pose proof HI as [Hq Hact].
  cbn in Hq, Hact. subst q.
  destruct e as [a|i code|i].
  - destruct (accountChanged a acc) eqn:Hch.
    + destruct tp as [i|].
      * destruct (Hact i eq_refl) as (op & Hop & Hf).
        rewrite (step_changed_active a acc i ops op Hch Hop (fresh_cancellable op Hf)).
        cbv zeta.
        set (ops1 := <[i := (cancelledOp policy op).1]> ops).
        assert (Hlen : List.length ops1 = List.length ops)
          by apply length_insert.
        assert (Hi : (i < List.length ops)%nat)
          by (eapply lookup_lt_Some; eauto).
        assert (HI1 : Inv (mkService a (started env a ops1).1.1 (started env a ops1).1.2 [])).
        { destruct a; cbn; auto using Inv_idle, Inv_started. }
        assert (Hne : (started env a ops1).1.1 <> Some i).
        { destruct a; cbn; [|discriminate]. intros [= Heq]. lia. }
        pose proof (Inv_react (cancelledOp policy op).2 i _ _ _ HI1 Hne) as HI2.
        destruct (react env _ _ _) as [s' t]. exact HI2.
      * rewrite (step_changed_idle a acc ops Hch).
        destruct a; cbn; auto using Inv_idle, Inv_started.
    + rewrite (step_unchanged a acc tp ops Hch). exact HI.
  - destruct (ops !! i) as [op|] eqn:Hop.
    + rewrite (step_exit i code acc tp ops op Hop).
      destruct (decide (tp = Some i)) as [->|Hne].
      * destruct (Hact i eq_refl) as (op' & Hop' & Hf).
        assert (op' = op) by congruence. subst op'.
        rewrite (exitedOp_fresh code op Hf). cbn [fst snd].
        eapply Inv_react_active. eapply lookup_inserted; eauto.
      * apply Inv_react; [|exact Hne]. eapply Inv_insert; eauto.
    + destruct (step_missing i acc tp ops Hop) as [-> _]. exact HI.
  - destruct (ops !! i) as [op|] eqn:Hop.
    + rewrite (step_error i acc tp ops op Hop).
      destruct (decide (tp = Some i)) as [->|Hne].
      * destruct (Hact i eq_refl) as (op' & Hop' & Hf).
        assert (op' = op) by congruence. subst op'.
        rewrite (failedOp_fresh op Hf). cbn [fst snd].
        eapply Inv_react_active. eapply lookup_inserted; eauto.
      * apply Inv_react; [|exact Hne]. eapply Inv_insert; eauto.
    + destruct (step_missing i acc tp ops Hop) as [_ ->]. exact HI.
Qed.

Lemma run_cons e events s :
  run policy env (e :: events) s
  = let '(s1, t1) := step policy env e s in
    let '(s2, t2) := run policy env events s1 in (s2, t1 ++ t2).
Proof. reflexivity. Qed.

Lemma Inv_run events : forall s, Inv s -> Inv (run policy env events s).1.
Proof.
  induction events as [|e events IH]; intros s HI; [exact HI|].
  rewrite run_cons. pose proof (Inv_step e s HI) as H1.
  destruct (step policy env e s) as [s1 t1]. specialize (IH s1 H1).
  destruct (run policy env events s1) as [s2 t2]. exact IH.
Qed.

Theorem Inv_reachable events : Inv (stateAfter policy env events).
Proof. apply Inv_run. apply Inv_idle. Qed.

(** ** Operations never lose their phase *)

Lemma exitedOp_phase code op : phase (exitedOp code op).1 = phase op.
Proof.
  unfold exitedOp, settledExecutor, settledPromise.
  destruct op as [ph ar tk tpv ex pr ch]; cbn.
  destruct (alive ch), tpv, ex, pr; reflexivity.
Qed.

Lemma failedOp_phase op : phase (failedOp op).1 = phase op.
Proof.
  unfold failedOp, settledExecutor, settledPromise.
  destruct op as [ph ar tk tpv ex pr ch]; cbn.
  destruct (alive ch), tpv, ex, pr; reflexivity.
Qed.

Lemma exitedOp_promise code op :
  (exitedOp code op).2 = true -> promise (exitedOp code op).1 = Resolved tt.
Proof.
  unfold exitedOp, settledExecutor, settledPromise.
  destruct op as [ph ar tk tpv ex pr ch]; cbn.
  destruct (alive ch), tpv, ex, pr; cbn; congruence.
Qed.

Lemma exitedOp_dead code op :
  alive (child op) = false -> exitedOp code op = (op, false).
Proof. unfold exitedOp. intros ->. reflexivity. Qed.

Lemma failedOp_dead op :
  alive (child op) = false -> failedOp op = (op, false).
Proof. unfold failedOp. intros ->. reflexivity. Qed.

Lemma exitedOp_signalled code op :
  signalledIfCancelled op -> signalledIfCancelled (exitedOp code op).1.
Proof.
  unfold signalledIfCancelled, exitedOp, settledExecutor, settledPromise.
  destruct op as [ph ar tk tpv ex pr ch]; cbn.
  destruct (alive ch), tpv, ex, pr; cbn; auto.
Qed.

Lemma failedOp_signalled op :
  signalledIfCancelled op -> signalledIfCancelled (failedOp op).1.
Proof.
  unfold signalledIfCancelled, failedOp, settledExecutor, settledPromise.
  destruct op as [ph ar tk tpv ex pr ch]; cbn.
  destruct (alive ch), tpv, ex, pr; cbn; auto.
Qed.

(** ** [accountChanged] decides identity of accounts *)

Lemma accountChanged_false a b :
  accountChanged a b = false <-> sameAccount a b.
Proof.
  unfold accountChanged, sameAccount.
  destruct a as [[p t]|], b as [[p' t']|]; cbn; try (split; [discriminate|tauto]);
    [|tauto].
  rewrite orb_false_iff, !negb_false_iff, !String.eqb_eq. tauto.
Qed.

Lemma accountChanged_refl a : accountChanged a a = false.
Proof. apply accountChanged_false. destruct a; cbn; auto. Qed.

(** ** The active operation ends *)

Lemma active_is_fresh acc i ops op :
  Inv (mkService acc (Some i) ops []) -> ops !! i = Some op -> fresh op.
Proof.
  intros [_ H] Hop. destruct (H i eq_refl) as (op' & Hop' & Hf).
  cbn in Hop'. congruence.
Qed.

Lemma exit_active_login acc i ops op code :
  Inv (mkService acc (Some i) ops []) ->
  ops !! i = Some op -> phase op = LoggingIn ->
  step policy env (ChildExit i code) (mkService acc (Some i) ops [])
  = (mkService acc (Some (List.length ops))
       (<[i := (exitedOp code op).1]> ops ++ [newOperation Serving ["tunnel"]])
       [],
     [spawned env (List.length ops) ["tunnel"]]).
Proof.
  intros HI Hop Hph. pose proof (active_is_fresh _ _ _ _ HI Hop) as Hf.
  rewrite (step_exit i code acc _ ops op Hop).
  rewrite (exitedOp_fresh code op Hf) at 1. cbn [snd].
  rewrite (react_active_login i acc _ (exitedOp code op).1)
    by (eauto using lookup_inserted, exitedOp_phase, eq_trans).
  rewrite (exitedOp_fresh code op Hf). cbn [fst promise].
  rewrite length_insert. reflexivity.
Qed.

Lemma error_active_login acc i ops op :
  Inv (mkService acc (Some i) ops []) ->
  ops !! i = Some op -> phase op = LoggingIn ->
  step policy env (ChildError i) (mkService acc (Some i) ops [])
  = (mkService acc None (<[i := (failedOp op).1]> ops) [],
     [TokenFailed true]).
Proof.
  intros HI Hop Hph. pose proof (active_is_fresh _ _ _ _ HI Hop) as Hf.
  rewrite (step_error i acc _ ops op Hop).
  rewrite (failedOp_fresh op Hf) at 1. cbn [snd].
  rewrite (react_active_login i acc _ (failedOp op).1)
    by (eauto using lookup_inserted, failedOp_phase, eq_trans).
  rewrite (failedOp_fresh op Hf). reflexivity.
Qed.

Lemma exit_active_serve acc i ops op code :
  Inv (mkService acc (Some i) ops []) ->
  ops !! i = Some op -> phase op = Serving ->
  step policy env (ChildExit i code) (mkService acc (Some i) ops [])
  = (mkService None None (<[i := (exitedOp code op).1]> ops) [],
     [TunnelFailed]).
Proof.
  intros HI Hop Hph. pose proof (active_is_fresh _ _ _ _ HI Hop) as Hf.
  rewrite (step_exit i code acc _ ops op Hop).
  rewrite (exitedOp_fresh code op Hf) at 1. cbn [snd].
  rewrite (react_active_serve i acc _ (exitedOp code op).1)
    by (eauto using lookup_inserted, exitedOp_phase, eq_trans).
  reflexivity.
Qed.

Lemma error_active_serve acc i ops op :
  Inv (mkService acc (Some i) ops []) ->
  ops !! i = Some op -> phase op = Serving ->
  step policy env (ChildError i) (mkService acc (Some i) ops [])
  = (mkService None None (<[i := (failedOp op).1]> ops) [],
     [TunnelFailed]).
Proof.
  intros HI Hop Hph. pose proof (active_is_fresh _ _ _ _ HI Hop) as Hf.
  rewrite (step_error i acc _ ops op Hop).
  rewrite (failedOp_fresh op Hf) at 1. cbn [snd].
  rewrite (react_active_serve i acc _ (failedOp op).1)
    by (eauto using lookup_inserted, failedOp_phase, eq_trans).
  reflexivity.
Qed.

(** ** An operation that is not the active one ends *)

Lemma exit_inactive acc tp i ops op code :
  tp <> Some i -> ops !! i = Some op ->
  step policy env (ChildExit i code) (mkService acc tp ops [])
  = (mkService acc tp (<[i := (exitedOp code op).1]> ops) [], []).
Proof.
  intros Hne Hop. rewrite (step_exit i code acc tp ops op Hop).
  destruct (react_inactive (exitedOp code op).2 i acc tp
              (<[i := (exitedOp code op).1]> ops) Hne)
    as [->|(_ & Hb & op' & reason & Hop' & _ & Hp)]; [reflexivity|].
  rewrite (lookup_inserted ops i op _ Hop) in Hop'.
  injection Hop' as <-. rewrite (exitedOp_promise code op Hb) in Hp.
  discriminate.
Qed.

Lemma error_inactive acc tp i ops op :
  tp <> Some i -> ops !! i = Some op ->
  step policy env (ChildError i) (mkService acc tp ops [])
  = (mkService acc tp (<[i := (failedOp op).1]> ops) [], [])
  \/ (step policy env (ChildError i) (mkService acc tp ops [])
       = (mkService acc None (<[i := (failedOp op).1]> ops) [],
          [TokenFailed true])
      /\ phase op = LoggingIn).
Proof.
  intros Hne Hop. rewrite (step_error i acc tp ops op Hop).
  destruct (react_inactive (failedOp op).2 i acc tp
              (<[i := (failedOp op).1]> ops) Hne)
    as [->|(-> & Hb & op' & reason & Hop' & Hph & Hp)]; [left; reflexivity|].
  right. split; [reflexivity|].
  rewrite (lookup_inserted ops i op _ Hop) in Hop'.
  injection Hop' as <-. rewrite failedOp_phase in Hph. exact Hph.
Qed.


(** ** [updateAccount] while an operation is active *)

Lemma react_cancelled a i tp ops op :
  fresh op -> tp <> Some i ->
  ops !! i = Some (cancelledOp policy op).1 ->
  react env (cancelledOp policy op).2 i (mkService a tp ops [])
  = if cancelRejectsLogin policy (phase op)
    then (mkService a None ops [], [TokenFailed true])
    else (mkService a tp ops [], []).
Proof.
  intros Hf Hne Hop. rewrite (cancelledOp_fresh op Hf) in *. cbn [fst snd] in *.
  unfold react. rewrite (reaction_eq i (mkService a tp ops []) _ Hop).
  cbn [phase]. rewrite (afterLogin_eq i a _ _ [] _ Hop), afterServe_eq.
  cbn [promise]. rewrite bool_decide_eq_false_2 by exact Hne.
  destruct policy eqn:Hpol, (phase op); reflexivity.
Qed.

Lemma update_active a acc i ops op :
  Inv (mkService acc (Some i) ops []) ->
  ops !! i = Some op ->
  accountChanged a acc = true ->
  let ops1 := <[i := (cancelledOp policy op).1]> ops in
  step policy env (UpdateAccount a) (mkService acc (Some i) ops [])
  = (mkService a
       (if cancelRejectsLogin policy (phase op) then None
        else (started env a ops1).1.1)
       (started env a ops1).1.2 [],
     [DidChangeAccount a; PublicLog2 (bool_decide (is_Some a));
      CancelToken i; Kill i] ++ (started env a ops1).2
     ++ (if cancelRejectsLogin policy (phase op)
         then [TokenFailed true] else [])).
Proof.
  intros HI Hop Hch ops1. pose proof (active_is_fresh _ _ _ _ HI Hop) as Hf.
  rewrite (step_changed_active a acc i ops op Hch Hop (fresh_cancellable op Hf)).
  fold ops1. cbv zeta.
  assert (Hi : (i < List.length ops)%nat) by (eapply lookup_lt_Some; eauto).
  assert (Hne : (started env a ops1).1.1 <> Some i).
  { destruct a; cbn; [|discriminate]. intros [= Heq].
    unfold ops1 in Heq. rewrite length_insert in Heq. lia. }
  assert (Hop1 : (started env a ops1).1.2 !! i = Some (cancelledOp policy op).1).
  { destruct a; cbn; [rewrite lookup_app_l
                        by (unfold ops1; rewrite length_insert; exact Hi)|];
      eapply lookup_inserted; eauto. }
  assert (Hkill : tunnelProcess op = true) by apply Hf. rewrite Hkill.
  rewrite (react_cancelled a i _ _ op Hf Hne Hop1).
  destruct (cancelRejectsLogin policy (phase op)); reflexivity.
Qed.

(** ** Cancelled operations have signalled their child *)

Lemma signalled_new ph args : signalledIfCancelled (newOperation ph args).
Proof. intros H. discriminate H. Qed.

Lemma signalled_cancelled op :
  fresh op -> signalledIfCancelled (cancelledOp policy op).1.
Proof. intros Hf _. rewrite (cancelledOp_fresh op Hf). reflexivity. Qed.

Lemma signalled_started a ops :
  Forall signalledIfCancelled ops ->
  Forall signalledIfCancelled (started env a ops).1.2.
Proof.
  intros H. destruct a; cbn; [|exact H].
  apply Forall_app. split; [exact H|].
  apply Forall_cons. split; [apply signalled_new|apply Forall_nil_2].
Qed.

Lemma signalled_step e s :
  Inv s -> Forall signalledIfCancelled (operations s) ->
  Forall signalledIfCancelled (operations (step policy env e s).1).
Proof.
  destruct s as [acc tp ops q]. intros HI. pose proof HI as [Hq Hact].
  cbn in Hq, Hact. subst q. cbn [operations]. intros Hall.
  assert (Hnew : forall l, Forall signalledIfCancelled l ->
            Forall signalledIfCancelled (l ++ [newOperation Serving ["tunnel"]])).
  { intros l Hl. apply Forall_app. split; [exact Hl|].
    apply Forall_cons. split; [apply signalled_new|apply Forall_nil_2]. }
  destruct e as [a|i code|i].
  - destruct (accountChanged a acc) eqn:Hch.
    + destruct tp as [i|].
      * destruct (Hact i eq_refl) as (op & Hop & Hf). cbn in Hop.
        rewrite (update_active a acc i ops op HI Hop Hch). cbn [fst operations].
        apply signalled_started, Forall_insert;
          [exact Hall|apply signalled_cancelled; exact Hf].
      * rewrite (step_changed_idle a acc ops Hch). cbn [fst operations].
        apply signalled_started. exact Hall.
    + rewrite (step_unchanged a acc tp ops Hch). exact Hall.
  - destruct (ops !! i) as [op|] eqn:Hop.
    + assert (Hop' : signalledIfCancelled (exitedOp code op).1).
      { apply exitedOp_signalled.
        eapply (proj1 (Forall_lookup _ _) Hall); eauto. }
      destruct (decide (tp = Some i)) as [->|Hne].
      * destruct (phase op) eqn:Hph.
        -- rewrite (exit_active_login acc i ops op code HI Hop Hph).
           cbn [fst operations]. apply Hnew, Forall_insert; assumption.
        -- rewrite (exit_active_serve acc i ops op code HI Hop Hph).
           cbn [fst operations]. apply Forall_insert; assumption.
      * rewrite (exit_inactive acc tp i ops op code Hne Hop).
        cbn [fst operations]. apply Forall_insert; assumption.
    + destruct (step_missing i acc tp ops Hop) as [-> _]. exact Hall.
  - destruct (ops !! i) as [op|] eqn:Hop.
    + assert (Hop' : signalledIfCancelled (failedOp op).1).
      { apply failedOp_signalled.
        eapply (proj1 (Forall_lookup _ _) Hall); eauto. }
      destruct (decide (tp = Some i)) as [->|Hne].
      * destruct (phase op) eqn:Hph.
        -- rewrite (error_active_login acc i ops op HI Hop Hph).
           cbn [fst operations]. apply Forall_insert; assumption.
        -- rewrite (error_active_serve acc i ops op HI Hop Hph).
           cbn [fst operations]. apply Forall_insert; assumption.
      * destruct (error_inactive acc tp i ops op Hne Hop) as [->|[-> _]];
          cbn [fst operations]; apply Forall_insert; assumption.
    + destruct (step_missing i acc tp ops Hop) as [_ ->]. exact Hall.
Qed.

Lemma signalled_run events : forall s,
  Inv s -> Forall signalledIfCancelled (operations s) ->
  Forall signalledIfCancelled (operations (run policy env events s).1).
Proof.
  induction events as [|e events IH]; intros s HI Hall; [exact Hall|].
  rewrite run_cons. pose proof (Inv_step e s HI) as H1.
  pose proof (signalled_step e s HI Hall) as H2.
  destruct (step policy env e s) as [s1 t1]. specialize (IH s1 H1 H2).
  destruct (run policy env events s1) as [s2 t2]. exact IH.
Qed.

Lemma signalled_reachable events :
  Forall signalledIfCancelled (operations (stateAfter policy env events)).
Proof. apply signalled_run; [apply Inv_idle|apply Forall_nil_2]. Qed.

Lemma started_insert a ops i x :
  (started env a (<[i := x]> ops)).2 = (started env a ops).2
  /\ (started env a (<[i := x]> ops)).1.1 = (started env a ops).1.1.
Proof. destruct a; cbn; rewrite ?length_insert; auto. Qed.

(** ** The turn in which a login promise is rejected *)

Lemma react_inactive_eq b i acc tp ops op :
  tp <> Some i -> ops !! i = Some op ->
  react env b i (mkService acc tp ops [])
  = if b && rejectedLogin op
    then (mkService acc None ops [], [TokenFailed true])
    else (mkService acc tp ops [], []).
Proof.
  intros Hne Hop. unfold react, rejectedLogin. destruct b; [|reflexivity].
  rewrite (reaction_eq i (mkService acc tp ops []) op Hop).
  rewrite (afterLogin_eq i acc tp ops [] op Hop), afterServe_eq.
  rewrite bool_decide_eq_false_2 by exact Hne.
  destruct (phase op), (promise op); reflexivity.
Qed.

Lemma exitedOp_not_rejected code op :
  (exitedOp code op).2 && rejectedLogin (exitedOp code op).1 = false.
Proof.
  unfold exitedOp, settledExecutor, settledPromise, rejectedLogin.
  destruct op as [ph ar tk tpv ex pr ch]; cbn.
  destruct (alive ch), tpv, ex, pr, ph; reflexivity.
Qed.








(** Cancelling never counts as an unexpected end of the tunnel. *)
Lemma update_never_fails_tunnel a s :
  Inv s -> count isTunnelFailed (step policy env (UpdateAccount a) s).2 = 0%nat.
Proof.
  destruct s as [acc tp ops q]. intros HI. pose proof HI as [Hq Hact].
  cbn in Hq, Hact. subst q.
  destruct (accountChanged a acc) eqn:Hch.
  - destruct tp as [i|].
    + destruct (Hact i eq_refl) as (op & Hop & Hf). cbn in Hop.
      rewrite (update_active a acc i ops op HI Hop Hch). cbn [snd].
      destruct a, (cancelRejectsLogin policy (phase op)); reflexivity.
    + rewrite (step_changed_idle a acc ops Hch). destruct a; reflexivity.
  - rewrite (step_unchanged a acc tp ops Hch). reflexivity.
Qed.


(** ** The claims *)

Ltac reach events acc tp ops HI :=
  pose proof (Inv_reachable events) as HI;
  destruct (stateAfter policy env events) as [acc tp ops ?q];
  let Hq := fresh "Hq" in
  pose proof (proj1 HI) as Hq; cbn in Hq; subst.

(** C1 (as the code has it): in every state the service can reach, an
    operation whose token is cancelled has no child left that was not sent
    the kill signal; and a call of [updateAccount] that changes the account
    first cancels the active operation, if there is one, and signals its
    child, and only then spawns the login process, at most one.  The child
    that was signalled is not waited for. *)
Theorem cancel_precedes_spawn events a :
  let s := stateAfter policy env events in
  let r := step policy env (UpdateAccount a) s in
  Forall signalledIfCancelled (operations s)
  /\ (accountChanged a (_account s) = true ->
      (exists tail,
          r.2 = [DidChangeAccount a; PublicLog2 (bool_decide (is_Some a))]
                ++ cancelPart (_tunnelProcess s)
                ++ (started env a (operations s)).2 ++ tail
          /\ (tail = [] \/ tail = [TokenFailed true]))
      /\ (forall i, _tunnelProcess s = Some i ->
            exists op', operations r.1 !! i = Some op'
                        /\ isCancellationRequested op' = true
                        /\ child op' = Signalled)).
Proof.
  cbv zeta. split; [apply signalled_reachable|].
  reach events acc tp ops HI. cbn [_account _tunnelProcess operations].
  intros Hch. destruct tp as [i|].
  - destruct (proj2 HI i eq_refl) as (op & Hop & Hf). cbn in Hop.
    rewrite (update_active a acc i ops op HI Hop Hch). cbn [fst snd operations].
    destruct (started_insert a ops i (cancelledOp policy op).1) as [-> _].
    split.
    + exists (if cancelRejectsLogin policy (phase op)
              then [TokenFailed true] else []).
      split; [reflexivity|].
      destruct (cancelRejectsLogin policy (phase op)); auto.
    + intros j [= <-]. exists (cancelledOp policy op).1.
      assert (Hi : (i < List.length ops)%nat) by (eapply lookup_lt_Some; eauto).
      split.
      * destruct a; cbn;
          [rewrite lookup_app_l by (rewrite length_insert; exact Hi)|];
          eapply lookup_inserted; eauto.
      * rewrite (cancelledOp_fresh op Hf). auto.
  - rewrite (step_changed_idle a acc ops Hch). cbn [fst snd cancelPart].
    split; [|discriminate]. exists []. rewrite app_nil_r. auto.
Qed.

(** The slip in [runCodeTunneCommand]: when the token is cancelled as the
    executor starts, [resolve()] is called and the child is spawned
    nevertheless. *)
Remark launch_with_cancelled_token ph args s :
  (launch env ph args true s).2
  = [spawned env (List.length (operations s)) args].
Proof.
  destruct s as [acc tp ops q]. unfold launch, bind, pushOperation, emit, ret.
  cbn -[settlePromise lookup].
  rewrite (settlePromise_eq _ _ acc tp _ q
             {| phase := ph; commandArgs := args;
                isCancellationRequested := true; tunnelProcess := true;
                executor := Resolved tt; promise := Pending;
                child := Running |})
    by (apply list_lookup_middle; reflexivity).
  reflexivity.
Qed.

(** C2: when the child of the serve operation ends while the operation is
    still the active one, the active operation and the stored account are
    cleared and tunnel-failed fires once, and never again for that child; a
    later [updateAccount], also with the account that was stored before,
    is a change and starts the login.  When the serve operation is no
    longer the active one, nothing changes and nothing fires; and a call
    of [updateAccount], which cancels the active operation, never fires
    tunnel-failed. *)
Theorem serve_finished events i op e :
  let s := stateAfter policy env events in
  let r := step policy env e s in
  operations s !! i = Some op -> phase op = Serving -> finishes i e ->
  (_tunnelProcess s = Some i ->
     _tunnelProcess r.1 = None /\ _account r.1 = None /\ r.2 = [TunnelFailed]
     /\ (forall e', finishes i e' -> (step policy env e' r.1).2 = [])
     /\ (forall acc,
           let r' := step policy env (UpdateAccount (Some acc)) r.1 in
           r'.2 = [DidChangeAccount (Some acc); PublicLog2 true;
                   spawned env (List.length (operations r.1)) (loginArgs acc)]
           /\ _account r'.1 = Some acc
           /\ _tunnelProcess r'.1 = Some (List.length (operations r.1))))
  /\ (_tunnelProcess s <> Some i ->
      _tunnelProcess r.1 = _tunnelProcess s /\ _account r.1 = _account s
      /\ r.2 = [])
  /\ (forall a,
        count isTunnelFailed (step policy env (UpdateAccount a) s).2 = 0%nat).
Proof.
  cbv zeta. intros Hop Hph Hfin.
  assert (Hupdate : forall a,
             count isTunnelFailed
               (step policy env (UpdateAccount a)
                  (stateAfter policy env events)).2 = 0%nat).
  { intros a. apply update_never_fails_tunnel, Inv_reachable. }
  revert Hop Hph Hfin Hupdate. reach events acc tp ops HI.
  cbn [_account _tunnelProcess operations]. intros Hop Hph Hfin Hupdate.
  split; [|split; [|exact Hupdate]].
  - intros ->. pose proof (active_is_fresh _ _ _ _ HI Hop) as Hf.
    assert (Hstep : exists op',
               step policy env e (mkService acc (Some i) ops [])
               = (mkService None None (<[i := op']> ops) [], [TunnelFailed])
               /\ phase op' = Serving /\ alive (child op') = false).
    { destruct Hfin as [[code ->]| ->].
      - exists (exitedOp code op).1.
        rewrite (exit_active_serve acc i ops op code HI Hop Hph).
        rewrite exitedOp_phase, (exitedOp_fresh code op Hf). auto.
      - exists (failedOp op).1.
        rewrite (error_active_serve acc i ops op HI Hop Hph).
        rewrite failedOp_phase, (failedOp_fresh op Hf). auto. }
    destruct Hstep as (op' & -> & Hph' & Hdead). cbn [fst snd].
    cbn [_account _tunnelProcess operations].
    pose proof (lookup_inserted ops i op op' Hop) as Hop'.
    split; [reflexivity|]. split; [reflexivity|]. split; [reflexivity|].
    split.
    + intros e' [[code ->]| ->].
      * rewrite (exit_inactive None None i _ op' code)
          by (discriminate || exact Hop').
        reflexivity.
      * destruct (error_inactive None None i _ op' ltac:(discriminate) Hop')
          as [->|[_ Hlogin]]; [reflexivity|congruence].
    + intros acc0.
      rewrite (step_changed_idle (Some acc0) None _ eq_refl).
      repeat split.
  - intros Hne. destruct Hfin as [[code ->]| ->].
    + rewrite (exit_inactive acc tp i ops op code Hne Hop). auto.
    + destruct (error_inactive acc tp i ops op Hne Hop) as [->|[_ Hlogin]];
        [auto|congruence].
Qed.



(** C5: [updateAccount(a)] with an account that is identical to the stored
    one (both absent, or equal provider and equal token) changes nothing
    and fires nothing.  After any [updateAccount(a)] the stored account is
    identical to [a], so calling it twice in a row does what calling it
    once does: one account-changed notification, one cancellation if an
    operation was active, one login process if the account is present. *)
Theorem updateAccount_idempotent events a :
  let s := stateAfter policy env events in
  let r := step policy env (UpdateAccount a) s in
  (sameAccount a (_account s) -> r = (s, []))
  /\ sameAccount a (_account r.1)
  /\ step policy env (UpdateAccount a) r.1 = (r.1, [])
  /\ run policy env [UpdateAccount a; UpdateAccount a] s = r
  /\ (~ sameAccount a (_account s) ->
      count isDidChangeAccount r.2 = 1%nat
      /\ count isCancelToken r.2
         = match _tunnelProcess s with Some _ => 1%nat | None => 0%nat end
      /\ count isSpawn r.2
         = match a with Some _ => 1%nat | None => 0%nat end).
Proof.
  cbv zeta.
  assert (Hsame : sameAccount a
            (_account (step policy env (UpdateAccount a)
                         (stateAfter policy env events)).1)).
  { reach events acc tp ops HI. destruct (accountChanged a acc) eqn:Hch.
    - apply accountChanged_false.
      destruct tp as [i|].
      + destruct (proj2 HI i eq_refl) as (op & Hop & Hf). cbn in Hop.
        rewrite (update_active a acc i ops op HI Hop Hch). cbn.
        apply accountChanged_refl.
      + rewrite (step_changed_idle a acc ops Hch). cbn.
        apply accountChanged_refl.
    - rewrite (step_unchanged a acc tp ops Hch). cbn.
      apply accountChanged_false. exact Hch. }
  assert (Hagain : step policy env (UpdateAccount a)
                     (step policy env (UpdateAccount a)
                        (stateAfter policy env events)).1
                   = ((step policy env (UpdateAccount a)
                         (stateAfter policy env events)).1, [])).
  { pose proof (Inv_step (UpdateAccount a) _ (Inv_reachable events)) as HI.
    destruct (step policy env (UpdateAccount a)
                (stateAfter policy env events)).1 as [acc tp ops q].
    pose proof (proj1 HI) as Hq. cbn in Hq. subst q.
    apply step_unchanged. apply accountChanged_false. exact Hsame. }
  split; [|split; [exact Hsame|split; [exact Hagain|split]]].
  - reach events acc tp ops HI. cbn [_account]. intros H.
    apply step_unchanged. apply accountChanged_false. exact H.
  - rewrite run_cons.
    destruct (step policy env (UpdateAccount a) (stateAfter policy env events))
      as [s1 t1] eqn:Hstep.
    cbn [fst] in Hagain. rewrite run_cons, Hagain. cbn.
    rewrite !app_nil_r. reflexivity.
  - reach events acc tp ops HI. cbn [_account _tunnelProcess]. intros Hdiff.
    assert (Hch : accountChanged a acc = true).
    { destruct (accountChanged a acc) eqn:Hch; [reflexivity|].
      apply accountChanged_false in Hch. contradiction. }
    destruct tp as [i|].
    + destruct (proj2 HI i eq_refl) as (op & Hop & Hf). cbn in Hop.
      rewrite (update_active a acc i ops op HI Hop Hch). cbn [snd].
      destruct a, (cancelRejectsLogin policy (phase op)); repeat split.
    + rewrite (step_changed_idle a acc ops Hch). cbn [snd].
      destruct a; repeat split.
Qed.

End Facts.


(** ** Concrete runs *)

Lemma cancel_precedes_spawn_witness :
  (exists tail,
      (step RejectsOnCancel packaged (UpdateAccount accountB)
         (stateAfter RejectsOnCancel packaged [UpdateAccount accountA])).2
      = [DidChangeAccount accountB; PublicLog2 true;
         CancelToken 0; Kill 0;
         Spawn 1 "code-tunnel"
           ["tunnel"; "user"; "login"; "--provider"; "github";
            "--access-token"; "t2"]] ++ tail
      /\ (tail = [] \/ tail = [TokenFailed true]))
  /\ (forall i,
        Some 0%nat = Some i ->
        exists op',
          operations
            (step RejectsOnCancel packaged (UpdateAccount accountB)
               (stateAfter RejectsOnCancel packaged [UpdateAccount accountA])).1
            !! i = Some op'
          /\ isCancellationRequested op' = true /\ child op' = Signalled).
Proof.
  exact (proj2 (cancel_precedes_spawn RejectsOnCancel packaged
                  [UpdateAccount accountA] accountB) eq_refl).
Defined.

(** C1, the claim as written, fails: after two calls of [updateAccount] with
    different accounts the child of the first login has been signalled but
    has not exited, and the child of the second login runs: two children of
    the supervisor are alive.  This is so whatever [cancel()] does to the
    promise. *)
Lemma two_children_alive :
  liveChildren (stateAfter SettlesWithWork packaged
                  [UpdateAccount accountA; UpdateAccount accountB]) = 2%nat
  /\ liveChildren (stateAfter ResolvesOnCancel packaged
                     [UpdateAccount accountA; UpdateAccount accountB]) = 2%nat
  /\ liveChildren (stateAfter RejectsOnCancel packaged
                     [UpdateAccount accountA; UpdateAccount accountB]) = 2%nat.
Proof. repeat split. Qed.

Lemma serve_finished_witness :
  _tunnelProcess
    (step SettlesWithWork packaged (ChildExit 1 (Some 1%Z))
       (stateAfter SettlesWithWork packaged
          [UpdateAccount accountA; ChildExit 0 (Some 0%Z)])).1 = None
  /\ _account
       (step SettlesWithWork packaged (ChildExit 1 (Some 1%Z))
          (stateAfter SettlesWithWork packaged
             [UpdateAccount accountA; ChildExit 0 (Some 0%Z)])).1 = None
  /\ (step SettlesWithWork packaged (ChildExit 1 (Some 1%Z))
        (stateAfter SettlesWithWork packaged
           [UpdateAccount accountA; ChildExit 0 (Some 0%Z)])).2
     = [TunnelFailed].
Proof.
  destruct (serve_finished SettlesWithWork packaged
              [UpdateAccount accountA; ChildExit 0 (Some 0%Z)]
              1%nat (newOperation Serving ["tunnel"])
              (ChildExit 1 (Some 1%Z))
              eq_refl eq_refl
              (or_introl (ex_intro _ (Some 1%Z) eq_refl))) as [H _].
  destruct (H eq_refl) as (H1 & H2 & H3 & _).
  exact (conj H1 (conj H2 H3)).
Defined.





(** With a primitive whose [cancel()] rejects the promise, the [catch]
    branch of the cancelled login runs after the new login has been stored
    and clears [_tunnelProcess]: when the new login exits, no serve process
    is spawned. *)
Remark rejecting_cancel_forgets_new_login :
  _tunnelProcess
    (stateAfter RejectsOnCancel packaged
       [UpdateAccount accountA; UpdateAccount accountB]) = None
  /\ (step RejectsOnCancel packaged (ChildExit 1 (Some 0%Z))
        (stateAfter RejectsOnCancel packaged
           [UpdateAccount accountA; UpdateAccount accountB])).2 = []
  /\ (step SettlesWithWork packaged (ChildExit 1 (Some 0%Z))
        (stateAfter SettlesWithWork packaged
           [UpdateAccount accountA; UpdateAccount accountB])).2
     = [Spawn 2 "code-tunnel" ["tunnel"]].
Proof. repeat split. Qed.

Lemma updateAccount_idempotent_witness :
  step SettlesWithWork packaged
    (UpdateAccount
       (Some {| authenticationProviderId := "github"; token := "t1" |}))
    (stateAfter SettlesWithWork packaged [UpdateAccount accountA])
  = (stateAfter SettlesWithWork packaged [UpdateAccount accountA], [])
  /\ count isDidChangeAccount
       (step SettlesWithWork packaged (UpdateAccount accountB)
          (stateAfter SettlesWithWork packaged [UpdateAccount accountA])).2
     = 1%nat.
Proof.
  split.
  - exact (proj1 (updateAccount_idempotent SettlesWithWork packaged
                    [UpdateAccount accountA]
                    (Some {| authenticationProviderId := "github";
                             token := "t1" |}))
             (conj eq_refl eq_refl)).
  - refine (proj1 (proj2 (proj2 (proj2 (proj2
              (updateAccount_idempotent SettlesWithWork packaged
                 [UpdateAccount accountA] accountB)))) _)).
    intros [_ H]. discriminate H.
Defined.

End RemoteTunnelFacts.

(* ===================================================================== *)
(** * Properties of the watcher's log and of the marker *)
(* ===================================================================== *)

Module ReadinessLogFacts.
Import Promise Readiness ReadinessLog ReadinessFacts.

Lemma isReady_stdout data :
  isReady (StdoutData data)
  = match regexMatch (toStringAscii data) with
    | Some _ => true
    | None => false
    end.
Proof.
  unfold isReady. destruct (regexMatch (toStringAscii data)).
  - apply bool_decide_eq_true_2. eauto.
  - apply bool_decide_eq_false_2. intros [x Hx]. discriminate.
Qed.

Lemma deliver_found w e :
  endpointFound (deliver w e) = endpointFound w || isReady e.
Proof.
  destruct e as [data|error| |].
  - rewrite isReady_stdout. cbn [deliver]. unfold onStdout.
    destruct (regexMatch (toStringAscii data)); simpl;
      rewrite ?orb_true_r, ?orb_false_r; reflexivity.
  - cbn [deliver isReady]. unfold onStderr.
    destruct (contains EADDRINUSE error); simpl; rewrite orb_false_r;
      reflexivity.
  - cbn. rewrite orb_false_r. reflexivity.
  - cbn. rewrite orb_false_r. reflexivity.
Qed.

Lemma deliver_logged w e :
  logged (deliver w e)
  = logged w ++ (if endpointFound w then [] else logLineOf e).
Proof.
  destruct e as [data|error| |]; simpl.
  - unfold onStdout.
    destruct (regexMatch (toStringAscii data)), (endpointFound w); simpl;
      rewrite ?app_nil_r; reflexivity.
  - unfold onStderr.
    destruct (contains EADDRINUSE error), (endpointFound w); simpl;
      rewrite ?app_nil_r; reflexivity.
  - destruct (endpointFound w); rewrite app_nil_r; reflexivity.
  - destruct (endpointFound w); rewrite app_nil_r; reflexivity.
Qed.

Lemma runFrom_found events : forall w,
  endpointFound (runFrom w events) = endpointFound w || existsb isReady events.
Proof.
  induction events as [|e events IH]; intros w.
  - cbn. rewrite orb_false_r. reflexivity.
  - rewrite runFrom_cons, IH, deliver_found. cbn [existsb].
    rewrite orb_assoc. reflexivity.
Qed.

Lemma runFrom_logged_found events : forall w,
  endpointFound w = true -> logged (runFrom w events) = logged w.
Proof.
  induction events as [|e events IH]; intros w Hw; [reflexivity|].
  rewrite runFrom_cons, IH.
  - rewrite deliver_logged, Hw, app_nil_r. reflexivity.
  - rewrite deliver_found, Hw. reflexivity.
Qed.

Lemma runFrom_logged_not_ready events : forall w,
  endpointFound w = false -> forallb notReady events = true ->
  logged (runFrom w events) = logged w ++ flat_map logLineOf events.
Proof.
  induction events as [|e events IH]; intros w Hw Hn.
  - cbn. rewrite app_nil_r. reflexivity.
  - cbn [forallb] in Hn. apply andb_true_iff in Hn as [He Hn].
    unfold notReady in He. apply negb_true_iff in He.
    rewrite runFrom_cons, IH;
      [|rewrite deliver_found, Hw, He; reflexivity|exact Hn].
    rewrite deliver_logged, Hw, <- app_assoc. reflexivity.
Qed.

(** X1: [waitForEndpoint] logs every chunk of the output and of the error
    stream until a chunk of the output matches the marker: that chunk is
    the last line logged.  A port conflict does not stop the logging. *)
Theorem logs_until_endpoint_found :
  (forall events,
      forallb notReady events = true ->
      logged (waitForEndpoint events) = flat_map logLineOf events)
  /\ (forall before data after,
        forallb notReady before = true ->
        isReady (StdoutData data) = true ->
        logged (waitForEndpoint (before ++ StdoutData data :: after))
        = flat_map logLineOf before ++ [LogStdout data]).
Proof.
  split.
  - intros events Hn. unfold waitForEndpoint.
    rewrite runFrom_logged_not_ready by (auto; reflexivity). reflexivity.
  - intros before data after Hb Hd. unfold waitForEndpoint.
    rewrite runFrom_app, runFrom_cons, runFrom_logged_found.
    + rewrite deliver_logged, runFrom_found.
      assert (Hex : existsb isReady before = false).
      { clear -Hb. induction before as [|e l IH]; [reflexivity|].
        simpl in *. apply andb_true_iff in Hb as [He Hl].
        unfold notReady in He. apply negb_true_iff in He.
        rewrite He, IH by exact Hl. reflexivity. }
      rewrite Hex. cbn [unsettled endpointFound orb logLineOf].
      rewrite runFrom_logged_not_ready by (auto; reflexivity). reflexivity.
    + rewrite deliver_found, Hd, orb_true_r. reflexivity.
Qed.

Lemma logs_until_endpoint_found_witness :
  logged (waitForEndpoint
            ([StderrData "listen EADDRINUSE"] ++
             StdoutData "Web UI available at http://localhost:9000"
             :: [StdoutData "Extension host started"; StderrData "warning"]))
  = [LogStderr "listen EADDRINUSE";
     LogStdout "Web UI available at http://localhost:9000"].
Proof.
  exact (proj2 logs_until_endpoint_found
           [StderrData "listen EADDRINUSE"]
           "Web UI available at http://localhost:9000"
           [StdoutData "Extension host started"; StderrData "warning"]
           eq_refl eq_refl).
Defined.

Lemma runFrom_settled_iff events : forall w,
  settled (future (runFrom w events))
  = settled (future w) || existsb settles events.
Proof.
  induction events as [|e events IH]; intros w.
  - cbn. rewrite orb_false_r. reflexivity.
  - rewrite runFrom_cons, IH. cbn [existsb].
    rewrite orb_assoc. f_equal. unfold settles.
    destruct e as [data|error| |].
    + rewrite isReady_stdout. cbn [deliver isPortConflict]. unfold onStdout.
      destruct (regexMatch (toStringAscii data)); simpl;
        [destruct (future w); reflexivity|rewrite orb_false_r; reflexivity].
    + cbn [deliver isReady isPortConflict]. unfold onStderr.
      destruct (contains EADDRINUSE error); simpl;
        [destruct (future w); reflexivity|rewrite orb_false_r; reflexivity].
    + cbn. rewrite orb_false_r. reflexivity.
    + cbn. rewrite orb_false_r. reflexivity.
Qed.

Lemma runFrom_resolved_found events : forall w,
  (forall v, future w = Resolved v -> endpointFound w = true) ->
  forall v, future (runFrom w events) = Resolved v ->
            endpointFound (runFrom w events) = true.
Proof.
  induction events as [|e events IH]; intros w Hw; [exact Hw|].
  rewrite runFrom_cons. apply IH. intros v.
  rewrite deliver_found.
  destruct e as [data|error| |].
  - rewrite isReady_stdout. cbn [deliver]. unfold onStdout.
    destruct (regexMatch (toStringAscii data)); simpl.
    + rewrite orb_true_r. reflexivity.
    + rewrite orb_false_r. apply Hw.
  - cbn [deliver isReady]. rewrite orb_false_r. unfold onStderr.
    destruct (contains EADDRINUSE error); simpl; [|apply Hw].
    destruct (future w) eqn:F; simpl; try discriminate. intros H. eauto.
  - cbn. rewrite orb_false_r. apply Hw.
  - cbn. rewrite orb_false_r. apply Hw.
Qed.

(** X2: the promise of [waitForEndpoint] is settled exactly when some chunk
    of the output matched the marker or some chunk of the error stream
    named EADDRINUSE; [endpointFound] is set exactly when some chunk of the
    output matched; a resolved promise implies [endpointFound]. *)
Theorem future_settled_exactly_when events :
  settled (future (waitForEndpoint events)) = existsb settles events
  /\ endpointFound (waitForEndpoint events) = existsb isReady events
  /\ (forall v, future (waitForEndpoint events) = Resolved v ->
                endpointFound (waitForEndpoint events) = true).
Proof.
  unfold waitForEndpoint. split; [|split].
  - rewrite runFrom_settled_iff. reflexivity.
  - rewrite runFrom_found. reflexivity.
  - apply runFrom_resolved_found. intros v H. discriminate H.
Qed.

Lemma future_settled_exactly_when_witness :
  endpointFound
    (waitForEndpoint [StdoutData "Web UI available at http://localhost:9000"])
  = true.
Proof.
  exact (proj2 (proj2 (future_settled_exactly_when
           [StdoutData "Web UI available at http://localhost:9000"]))
           "http://localhost:9000" eq_refl).
Defined.

Lemma stripPrefix_append p : forall s,
  stripPrefix p (String.append p s) = Some s.
Proof.
  induction p as [|a p IH]; intros s.
  - reflexivity.
  - rewrite append_String. simpl. rewrite Ascii.eqb_refl. apply IH.
Qed.

Lemma regexMatch_marker before c rest :
  isLineTerminator c = false ->
  exists endpoint,
    regexMatch (String.append before (String.append marker (String c rest)))
    = Some endpoint.
Proof.
  intros Hc. induction before as [|a before IH].
  - rewrite append_empty. exists (dotRun (String c rest)).
    destruct (String.append marker (String c rest)) eqn:E; [discriminate E|].
    cbn [regexMatch]. rewrite <- E. unfold matchHere.
    rewrite stripPrefix_append. simpl dotRun. rewrite Hc. reflexivity.
  - destruct IH as [endpoint IH]. rewrite append_String. cbn [regexMatch].
    destruct (matchHere _); eauto.
Qed.

Lemma toStringAscii_append a : forall b,
  toStringAscii (String.append a b)
  = String.append (toStringAscii a) (toStringAscii b).
Proof.
  induction a as [|c a IH]; intros b; [reflexivity|].
  rewrite append_String. cbn [toStringAscii]. rewrite IH, append_String.
  reflexivity.
Qed.

Lemma lineFree_head g :
  g <> EmptyString -> lineFree g = true ->
  exists c g', g = String c g' /\ isLineTerminator c = false.
Proof.
  destruct g as [|c g']; [contradiction|]. intros _ Hl. cbn in Hl.
  apply andb_true_iff in Hl as [Hc _]. apply negb_true_iff in Hc. eauto.
Qed.

(** X3: a chunk of the output matches exactly when its text, decoded
    with the high bit of every byte unset as [toString('ascii')] does,
    holds the marker followed by a character that is not a line
    terminator, wherever the marker stands.  So a chunk whose bytes hold
    the marker followed by a byte that is neither of the two line
    terminators after its high bit is unset matches; and a matching
    chunk that comes while the promise is pending resolves it. *)
Theorem chunk_with_marker_resolves (data : Buffer) :
  (isReady (StdoutData data) = true <->
   exists before c rest,
     toStringAscii data
     = String.append before (String.append marker (String c rest))
     /\ isLineTerminator c = false)
  /\ (forall before c rest,
        data = String.append before (String.append marker (String c rest)) ->
        isLineTerminator (clearHighBit c) = false ->
        isReady (StdoutData data) = true)
  /\ (forall earlier later,
        isReady (StdoutData data) = true ->
        forallb quiet earlier = true ->
        exists endpoint,
          future (waitForEndpoint (earlier ++ StdoutData data :: later))
          = Resolved endpoint
          /\ regexMatch (toStringAscii data) = Some endpoint
          /\ endpointFound
               (waitForEndpoint (earlier ++ StdoutData data :: later))
             = true).
Proof.
  assert (Hdec : forall before c rest,
             toStringAscii data
             = String.append before (String.append marker (String c rest)) ->
             isLineTerminator c = false ->
             isReady (StdoutData data) = true).
  { intros before c rest Hd Hc. rewrite isReady_stdout.
    destruct (regexMatch_marker before c rest Hc) as [endpoint He].
    rewrite Hd, He. reflexivity. }
  split; [|split].
  - split.
    + rewrite isReady_stdout.
      destruct (regexMatch (toStringAscii data)) as [g|] eqn:E;
        [intros _|discriminate].
      apply regexMatch_Some in E as (before & after & Hs & Hne & Hl & _).
      destruct (lineFree_head g Hne Hl) as (c & g' & -> & Hc).
      exists before, c, (String.append g' after).
      rewrite Hs, append_String. auto.
    + intros (before & c & rest & Hd & Hc). eapply Hdec; eauto.
  - intros before c rest -> Hc.
    apply (Hdec (toStringAscii before) (clearHighBit c) (toStringAscii rest));
      [|exact Hc].
    rewrite !toStringAscii_append. reflexivity.
  - intros earlier later Hr Hq. rewrite isReady_stdout in Hr.
    destruct (regexMatch (toStringAscii data)) as [endpoint|] eqn:E;
      [|discriminate Hr].
    exists endpoint. unfold waitForEndpoint.
    rewrite runFrom_app, runFrom_cons. split; [|split; [reflexivity|]].
    + assert (Hf : future (deliver (runFrom unsettled earlier)
                             (StdoutData data)) = Resolved endpoint).
      { cbn [deliver]. unfold onStdout. rewrite E. cbn [future].
        rewrite runFrom_quiet by exact Hq. reflexivity. }
      rewrite runFrom_settled; rewrite Hf; reflexivity.
    + rewrite runFrom_found, deliver_found, isReady_stdout, E.
      rewrite orb_true_r. reflexivity.
Qed.

Lemma chunk_with_marker_resolves_witness :
  isReady (StdoutData "[12:00:01] Web UI available at http://localhost:9000")
  = true.
Proof.
  exact (proj1 (proj2 (chunk_with_marker_resolves
           "[12:00:01] Web UI available at http://localhost:9000"))
           "[12:00:01] " "h"%char "ttp://localhost:9000" eq_refl eq_refl).
Defined.

(** The byte 8A is not a line terminator, but it is decoded as a line
    feed: a chunk that ends with the marker and that byte does not
    match. *)
Remark high_bit_line_feed_does_not_match :
  isLineTerminator (ascii_of_nat 138) = false
  /\ isReady (StdoutData (String.append marker
                            (String (ascii_of_nat 138) EmptyString)))
     = false.
Proof. split; reflexivity. Qed.

End ReadinessLogFacts.

(* ===================================================================== *)
(** * More properties of [teardown] *)
(* ===================================================================== *)

Module TeardownCountFacts.
Import Teardown TeardownCount TeardownFacts.

(** X4: [teardown] probes only after a failed kill, so the probes are as
    many as the kills or one less; and it logs that it gave up only as its
    last action, after three kills that failed and three probes that found
    the process alive. *)
Theorem gives_up_only_when_unkillable env pid t r :
  teardown env (Some pid) = Some (t, r) ->
  ((probeRequests t <= killRequests t)%nat
   /\ (killRequests t <= S (probeRequests t))%nat)
  /\ (existsb isGaveUp t = true ->
      last t = Some (LogGaveUp 3)
      /\ killRequests t = 3%nat /\ probeRequests t = 3%nat
      /\ forall k, (1 <= k <= 3)%nat ->
           treeKill env k <> None /\ probe env k = true).
Proof.
  intros Ht. revert Ht. evaluate. answers env; evaluate;
    repeat match goal with H : _ = _ |- _ => rewrite H; evaluate end;
    intros Ht; injection Ht as <- <-; (split; [cbn; lia|]); cbn;
    try discriminate.
  intros _. repeat split; try reflexivity;
    destruct k as [|[|[|[|k]]]]; try lia; congruence.
Qed.

Lemma gives_up_only_when_unkillable_witness :
  last [TreeKill 7; Probe 7; LogError 7 1 "EPERM";
        TreeKill 7; Probe 7; LogError 7 2 "EPERM";
        TreeKill 7; Probe 7; LogError 7 3 "EPERM"; LogGaveUp 3]
  = Some (LogGaveUp 3).
Proof.
  exact (proj1 (proj2 (gives_up_only_when_unkillable unkillable 7%Z _
                         (Normal tt) eq_refl) eq_refl)).
Defined.

End TeardownCountFacts.

(* ===================================================================== *)
(** * Properties of the per-window events *)
(* ===================================================================== *)

Module LoggerMainEventsFacts.
Import LoggerMain LoggerMainEvents.

Section Service.

Variable Base : Type.
Variable superRegisterLogger : ILoggerResource -> Base -> Base.
Variable superDeregisterLogger : URI -> Base -> Base.
Variable superGetRegisteredLoggers : Base -> list ILoggerResource.
Variable LogLevel : Type.

Let Service := LoggerMainService Base.
Let interested := isInterestedLoggerResource Base.
Let register := registerLogger Base superRegisterLogger.
Let getLoggers := getRegisteredLoggers Base superGetRegisteredLoggers.
Let eventFor := loggersEventFor Base.

Lemma eventFor_single (w : Z) (s : Service) r :
  eventFor w s {| added := [r]; removed := [] |}
  = if interested (resource r) (Some w) s
    then Some {| added := [r]; removed := [] |} else None.
Proof.
  unfold eventFor, loggersEventFor. cbn [added removed].
  rewrite filter_cons, filter_nil. unfold interested.
  destruct (isInterestedLoggerResource Base (resource r) (Some w) s) eqn:E.
  - rewrite decide_True by reflexivity. reflexivity.
  - rewrite decide_False by discriminate. reflexivity.
Qed.


(** X5: after [registerLogger(r, w)] the resource of [r] is of interest to
    window [w] and to no other window, whatever was recorded for it before:
    the event that announces [r], a change of its log level and a change of
    its visibility pass the filter of [w] only, while a change of the
    global log level passes every filter.  Other resources are not
    affected. *)
Theorem registered_for_window_only (s : Service) r (w w' : Z) :
  interested (resource r) (Some w') (register r (Some w) s)
  = bool_decide (w = w')
  /\ interested (resource r) None (register r (Some w) s) = false
  /\ eventFor w' (register r (Some w) s) {| added := [r]; removed := [] |}
     = (if bool_decide (w = w')
        then Some {| added := [r]; removed := [] |} else None)
  /\ (forall level visible,
        passesLogLevelFilter Base LogLevel w' (register r (Some w) s)
          (ResourceLevel LogLevel (resource r) level) = bool_decide (w = w')
        /\ passesLogLevelFilter Base LogLevel w' (register r (Some w) s)
             (GlobalLevel LogLevel level) = true
        /\ passesVisibilityFilter Base w' (register r (Some w) s)
             (resource r, visible) = bool_decide (w = w'))
  /\ (forall u windowId,
        u <> resource r ->
        interested u windowId (register r (Some w) s)
        = interested u windowId s).
Proof.
  assert (H1 : interested (resource r) (Some w') (register r (Some w) s)
               = bool_decide (w = w')).
  { unfold interested, register, isInterestedLoggerResource, registerLogger.
    cbn. rewrite lookup_insert_eq. reflexivity. }
  split; [exact H1|]. split; [|split; [|split]]; [| |intros level visible; auto|].
  - unfold interested, register, isInterestedLoggerResource, registerLogger.
    cbn. rewrite lookup_insert_eq. reflexivity.
  - rewrite eventFor_single, H1. reflexivity.
  - intros u windowId Hu.
    unfold interested, register, isInterestedLoggerResource, registerLogger.
    cbn. rewrite lookup_insert_ne by congruence. reflexivity.
Qed.

(** X6: [registerLogger(r)] without a window id leaves the window recorded
    for the resource of [r] in place: a resource recorded for window [w]
    stays hidden from every other window, in [getRegisteredLoggers] and in
    the events, whatever the base class does. *)
Theorem registering_again_keeps_window (s : Service) r (w w' : Z) :
  loggerResourcesByWindow Base s !! resource r = Some w -> w' <> w ->
  interested (resource r) (Some w') (register r None s) = false
  /\ (forall x, resource x = resource r ->
                x ∉ getLoggers (Some w') (register r None s))
  /\ eventFor w' (register r None s) {| added := [r]; removed := [] |} = None
  /\ interested (resource r) (Some w) (register r None s) = true.
Proof.
  intros Hw Hne.
  assert (H1 : interested (resource r) (Some w') (register r None s) = false).
  { unfold interested, register, isInterestedLoggerResource, registerLogger.
    cbn. rewrite Hw. apply bool_decide_eq_false_2. congruence. }
  split; [exact H1|]. split; [|split].
  - intros x Hx Hin. unfold getLoggers, getRegisteredLoggers in Hin.
    apply list_elem_of_filter in Hin as [Hin _]. rewrite Hx in Hin.
    unfold interested in H1. congruence.
  - rewrite eventFor_single, H1. reflexivity.
  - unfold interested, register, isInterestedLoggerResource, registerLogger.
    cbn. rewrite Hw. apply bool_decide_eq_true_2. reflexivity.
Qed.


Lemma deregisterLoggersIn_map entries (w : Z) : forall s : Service,
  loggerResourcesByWindow Base
    (deregisterLoggersIn Base superDeregisterLogger entries w s)
  = fold_left (fun m entry => if bool_decide (entry.2 = w)
                              then delete entry.1 m else m)
      entries (loggerResourcesByWindow Base s).
Proof.
  induction entries as [|e entries IH]; intros s; [reflexivity|].
  cbn [deregisterLoggersIn fold_left]. unfold deregisterLoggersIn in IH.
  rewrite IH. destruct (bool_decide (e.2 = w)); reflexivity.
Qed.

Lemma fold_delete_lookup (entries : list (URI * Z)) (w : Z) u :
  forall m : gmap string Z,
    fold_left (fun m entry => if bool_decide (entry.2 = w)
                              then delete entry.1 m else m) entries m !! u
    = if bool_decide ((u, w) ∈ entries) then None else m !! u.
Proof.
  induction entries as [|[u0 w0] entries IH]; intros m.
  - cbn. rewrite bool_decide_eq_false_2 by (intros H; inversion H). reflexivity.
  - cbn [fold_left fst snd]. rewrite IH.
    destruct (decide ((u, w) ∈ entries)) as [Hin|Hnin].
    + rewrite !bool_decide_eq_true_2; [reflexivity|right; exact Hin|exact Hin].
    + rewrite (bool_decide_eq_false_2 _ Hnin).
      destruct (decide (w0 = w)) as [->|Hw].
      * rewrite (bool_decide_eq_true_2 (w = w)) by reflexivity.
        destruct (decide (u0 = u)) as [->|Hu].
        -- rewrite lookup_delete_eq, bool_decide_eq_true_2 by left. reflexivity.
        -- rewrite lookup_delete_ne by exact Hu.
           rewrite bool_decide_eq_false_2; [reflexivity|].
           intros Hin. apply elem_of_cons in Hin as [Heq|Hin];
             [congruence|contradiction].
      * rewrite (bool_decide_eq_false_2 _ Hw).
        rewrite bool_decide_eq_false_2; [reflexivity|].
        intros Hin. apply elem_of_cons in Hin as [Heq|Hin];
          [congruence|contradiction].
Qed.

(** X8: [deregisterLoggers(w)] removes from [loggerResourcesByWindow]
    exactly the resources recorded for window [w], in whatever order the
    map is iterated; no resource is recorded for [w] afterwards, and the
    resources of other windows keep their window. *)
Theorem deregisterLoggers_removes_window (s : Service) entries (w : Z) :
  entries ≡ₚ map_to_list (loggerResourcesByWindow Base s) ->
  let s' := deregisterLoggersIn Base superDeregisterLogger entries w s in
  (forall u, loggerResourcesByWindow Base s' !! u
             = match loggerResourcesByWindow Base s !! u with
               | Some w' => if bool_decide (w' = w) then None else Some w'
               | None => None
               end)
  /\ (forall u, loggerResourcesByWindow Base s' !! u <> Some w)
  /\ (forall u w', loggerResourcesByWindow Base s !! u = Some w' ->
                   w' <> w ->
                   forall windowId,
                     interested u windowId s' = interested u windowId s).
Proof.
  intros Hperm. cbv zeta.
  assert (Hlook : forall u,
             loggerResourcesByWindow Base
               (deregisterLoggersIn Base superDeregisterLogger entries w s) !! u
             = match loggerResourcesByWindow Base s !! u with
               | Some w' => if bool_decide (w' = w) then None else Some w'
               | None => None
               end).
  { intros u. rewrite deregisterLoggersIn_map, fold_delete_lookup.
    destruct (loggerResourcesByWindow Base s !! u) as [w'|] eqn:Hu.
    - destruct (decide (w' = w)) as [->|Hw].
      + rewrite !bool_decide_eq_true_2; [reflexivity|reflexivity|].
        rewrite Hperm. apply elem_of_map_to_list. exact Hu.
      + rewrite (bool_decide_eq_false_2 _ Hw).
        rewrite bool_decide_eq_false_2; [reflexivity|].
        rewrite Hperm. intros Hin. apply elem_of_map_to_list in Hin.
        congruence.
    - destruct (bool_decide _); reflexivity. }
  split; [exact Hlook|]. split.
  - intros u. rewrite Hlook.
    destruct (loggerResourcesByWindow Base s !! u) as [w'|]; [|discriminate].
    destruct (decide (w' = w)) as [->|Hw].
    + rewrite bool_decide_eq_true_2 by reflexivity. discriminate.
    + rewrite (bool_decide_eq_false_2 _ Hw). congruence.
  - intros u w' Hu Hw windowId. unfold interested, isInterestedLoggerResource.
    rewrite Hlook. unfold URI in *. rewrite Hu, (bool_decide_eq_false_2 _ Hw).
    reflexivity.
Qed.

Lemma filter_none_length {A} (P : A -> Prop)
    `{!forall a, Decision (P a)} (l : list A) :
  bool_decide (0 < length (filter P l))%nat = false
  <-> forall r, r ∈ l -> ~ P r.
Proof.
  rewrite bool_decide_eq_false. split.
  - intros Hlen r Hr HP.
    assert (Hin : r ∈ filter P l) by (apply list_elem_of_filter; auto).
    destruct (filter P l); [inversion Hin|]. apply Hlen. cbn. lia.
  - intros Hno Hlen.
    destruct (filter P l) as [|r l'] eqn:E; [cbn in Hlen; lia|].
    assert (Hin : r ∈ filter P l) by (rewrite E; left).
    apply list_elem_of_filter in Hin as [HP Hin]. exact (Hno r Hin HP).
Qed.

Lemma filter_all {A} (P : A -> Prop) `{!forall a, Decision (P a)}
    (l : list A) :
  (forall a, a ∈ l -> P a) -> filter P l = l.
Proof.
  induction l as [|a l IH]; intros Hall; [reflexivity|].
  rewrite filter_cons_True by (apply Hall; left).
  rewrite IH by (intros b Hb; apply Hall; right; exact Hb). reflexivity.
Qed.

Lemma filter_sublist {A} (P Q : A -> Prop)
    `{!forall a, Decision (P a)} `{!forall a, Decision (Q a)} (l : list A) :
  (forall a, P a -> Q a) -> filter P l `sublist_of` filter Q l.
Proof.
  intros HPQ. induction l as [|a l IH]; [constructor|].
  rewrite !filter_cons. destruct (decide (P a)) as [HP|HP].
  - rewrite decide_True by auto. constructor. exact IH.
  - destruct (decide (Q a)); [constructor|]; exact IH.
Qed.

(** X9: [getRegisteredLoggers()] without a window id returns the registered
    loggers that are recorded for no window, in the order of the base
    class; every window sees these and, in between, its own. *)
Theorem loggers_without_window (s : Service) (w : Z) :
  getLoggers None s `sublist_of` getLoggers (Some w) s
  /\ (forall r, r ∈ getLoggers None s <->
        r ∈ superGetRegisteredLoggers (base Base s)
        /\ loggerResourcesByWindow Base s !! resource r = None)
  /\ getLoggers (Some w) s `sublist_of` superGetRegisteredLoggers (base Base s).
Proof.
  split; [|split].
  - unfold getLoggers, getRegisteredLoggers. apply filter_sublist.
    intros r. unfold isInterestedLoggerResource.
    destruct (loggerResourcesByWindow Base s !! resource r); [discriminate|auto].
  - intros r. unfold getLoggers, getRegisteredLoggers.
    rewrite list_elem_of_filter. unfold isInterestedLoggerResource.
    destruct (loggerResourcesByWindow Base s !! resource r);
      split; intros [H1 H2]; try discriminate; auto.
  - unfold getLoggers, getRegisteredLoggers. apply sublist_filter.
Qed.

(** X10: the event of [getOnDidChangeLoggersEvent(w)] is dropped exactly
    when none of its loggers is of interest to [w]; otherwise it carries
    exactly the loggers of interest, in their order, and it is the event
    itself when all of them are. *)
Theorem loggers_event_filtered (s : Service) (w : Z) e :
  (eventFor w s e = None <->
   forall r, r ∈ added e ++ removed e ->
             interested (resource r) (Some w) s = false)
  /\ (forall e', eventFor w s e = Some e' ->
        added e' `sublist_of` added e /\ removed e' `sublist_of` removed e
        /\ (forall r, r ∈ added e' ++ removed e' ->
                      interested (resource r) (Some w) s = true)
        /\ (forall r, r ∈ added e ++ removed e ->
                      interested (resource r) (Some w) s = true ->
                      r ∈ added e' ++ removed e'))
  /\ ((forall r, r ∈ added e ++ removed e ->
                 interested (resource r) (Some w) s = true) ->
      added e ++ removed e <> [] ->
      eventFor w s e = Some e).
Proof.
  unfold eventFor, loggersEventFor, interested.
  set (P := fun r : ILoggerResource =>
              isInterestedLoggerResource Base (resource r) (Some w) s = true).
  cbn [added removed].
  split; [|split].
  - destruct (bool_decide (0 < length (filter P (added e)))%nat) eqn:Ea;
      [|destruct (bool_decide (0 < length (filter P (removed e)))%nat) eqn:Er];
      cbn [orb].
    + split; [discriminate|]. intros Hall. exfalso.
      apply bool_decide_eq_true in Ea.
      destruct (filter P (added e)) as [|r l'] eqn:E; [cbn in Ea; lia|].
      assert (Hin : r ∈ filter P (added e)) by (rewrite E; left).
      apply list_elem_of_filter in Hin as [HP Hin]. unfold P in HP.
      rewrite Hall in HP by (apply elem_of_app; auto). discriminate.
    + split; [discriminate|]. intros Hall. exfalso.
      apply bool_decide_eq_true in Er.
      destruct (filter P (removed e)) as [|r l'] eqn:E; [cbn in Er; lia|].
      assert (Hin : r ∈ filter P (removed e)) by (rewrite E; left).
      apply list_elem_of_filter in Hin as [HP Hin]. unfold P in HP.
      rewrite Hall in HP by (apply elem_of_app; auto). discriminate.
    + split; [|reflexivity]. intros _ r Hr.
      pose proof (proj1 (filter_none_length P (added e)) Ea) as Ha.
      pose proof (proj1 (filter_none_length P (removed e)) Er) as Hr'.
      apply elem_of_app in Hr as [Hr|Hr].
      * specialize (Ha r Hr). unfold P in Ha.
        destruct (isInterestedLoggerResource _ _ _ _); congruence.
      * specialize (Hr' r Hr). unfold P in Hr'.
        destruct (isInterestedLoggerResource _ _ _ _); congruence.
  - intros e' He'.
    destruct (bool_decide _ || bool_decide _); [|discriminate].
    injection He' as <-. cbn [added removed].
    split; [apply sublist_filter|]. split; [apply sublist_filter|]. split.
    + intros r Hr. apply elem_of_app in Hr as [Hr|Hr];
        apply list_elem_of_filter in Hr as [HP _]; exact HP.
    + intros r Hr HP. apply elem_of_app.
      apply elem_of_app in Hr as [Hr|Hr]; [left|right];
        apply list_elem_of_filter; auto.
  - intros Hall Hne.
    assert (Ha : filter P (added e) = added e).
    { apply filter_all. intros r Hr. apply Hall, elem_of_app; auto. }
    assert (Hr : filter P (removed e) = removed e).
    { apply filter_all. intros r Hr. apply Hall, elem_of_app; auto. }
    rewrite Ha, Hr. destruct e as [a r]. cbn [added removed] in *.
    destruct a as [|x a]; [destruct r as [|x r]; [contradiction Hne; reflexivity|]|];
      cbn; reflexivity.
Qed.

End Service.

Lemma registered_for_window_only_witness :
  isInterestedLoggerResource (list ILoggerResource) (resource mainLog)
    (Some 2%Z)
    (registerLogger (list ILoggerResource) listRegisterLogger
       (rendererLog 1) (Some 1%Z) noLoggers)
  = isInterestedLoggerResource (list ILoggerResource) (resource mainLog)
      (Some 2%Z) noLoggers.
Proof.
  refine (proj2 (proj2 (proj2 (proj2
            (registered_for_window_only (list ILoggerResource)
               listRegisterLogger unit noLoggers (rendererLog 1) 1%Z 2%Z))))
            (resource mainLog) (Some 2%Z) _).
  vm_compute. discriminate.
Defined.

Lemma registering_again_keeps_window_witness :
  isInterestedLoggerResource (list ILoggerResource)
    (resource (rendererLog 1)) (Some 2%Z)
    (registerLogger (list ILoggerResource) listRegisterLogger
       (rendererLog 1) None threeLoggers)
  = false.
Proof.
  refine (proj1 (registering_again_keeps_window (list ILoggerResource)
                   listRegisterLogger (fun b => b) threeLoggers
                   (rendererLog 1) 1%Z 2%Z _ _)).
  - vm_compute. reflexivity.
  - lia.
Defined.


Lemma deregisterLoggers_removes_window_witness :
  loggerResourcesByWindow (list ILoggerResource)
    (deregisterLoggersIn (list ILoggerResource) listDeregisterLogger
       (map_to_list (loggerResourcesByWindow (list ILoggerResource)
                       threeLoggers))
       1%Z threeLoggers)
  !! resource (rendererLog 2) = Some 2%Z.
Proof.
  refine (eq_trans
            (proj1 (deregisterLoggers_removes_window (list ILoggerResource)
                      listDeregisterLogger threeLoggers
                      (map_to_list (loggerResourcesByWindow
                                      (list ILoggerResource) threeLoggers))
                      1%Z _)
               (resource (rendererLog 2))) _).
  - reflexivity.
  - vm_compute. reflexivity.
Defined.

Lemma loggers_without_window_witness :
  mainLog ∈ getRegisteredLoggers (list ILoggerResource) (fun b => b) None
              threeLoggers.
Proof.
  refine (proj2 (proj1 (proj2 (loggers_without_window
                                 (list ILoggerResource) (fun b => b)
                                 threeLoggers 1%Z)) mainLog) (conj _ _)).
  - vm_compute. constructor.
  - vm_compute. reflexivity.
Defined.

Lemma loggers_event_filtered_witness :
  loggersEventFor (list ILoggerResource) 2%Z threeLoggers
    {| added := [mainLog; rendererLog 1]; removed := [rendererLog 2] |}
  = Some {| added := [mainLog]; removed := [rendererLog 2] |}
  /\ [mainLog] `sublist_of` [mainLog; rendererLog 1].
Proof.
  assert (H : loggersEventFor (list ILoggerResource) 2%Z threeLoggers
                {| added := [mainLog; rendererLog 1];
                   removed := [rendererLog 2] |}
              = Some {| added := [mainLog]; removed := [rendererLog 2] |})
    by (vm_compute; reflexivity).
  exact (conj H (proj1 (proj1 (proj2 (loggers_event_filtered
                                  (list ILoggerResource) threeLoggers 2%Z
                                  {| added := [mainLog; rendererLog 1];
                                     removed := [rendererLog 2] |}))
                          _ H))).
Defined.

End LoggerMainEventsFacts.

(* ===================================================================== *)
(** * More properties of the tunnel supervisor *)
(* ===================================================================== *)

Module TunnelLifecycleFacts.

Import Promise RemoteTunnel TunnelSummary RemoteTunnelFacts TunnelLifecycle.

Section Facts.

Variable policy : CancelPolicy.
Variable env : Environment.

Lemma step_turn e s :
  Inv s -> Turn policy env s e (step policy env e s).
Proof.
  destruct s as [acc tp ops q]. intros HI. pose proof HI as [Hq Hact].
  cbn in Hq, Hact. subst q.
  destruct e as [a|i code|i].
  - destruct (accountChanged a acc) eqn:Hch.
    + destruct tp as [i|].
      * destruct (Hact i eq_refl) as (op & Hop & Hf). cbn in Hop.
        rewrite (update_active policy env a acc i ops op HI Hop Hch).
        cbv zeta. apply TurnRestart; assumption.
      * rewrite (step_changed_idle policy env a acc ops Hch).
        apply TurnStart. exact Hch.
    + rewrite (step_unchanged policy env a acc tp ops Hch).
      apply TurnSameAccount. exact Hch.
  - destruct (ops !! i) as [op|] eqn:Hop.
    + destruct (decide (tp = Some i)) as [->|Hne].
      * pose proof (active_is_fresh _ _ _ _ HI Hop) as Hf.
        destruct (phase op) eqn:Hph.
        -- rewrite (exit_active_login policy env acc i ops op code HI Hop Hph).
           apply TurnLoginExit; assumption.
        -- rewrite (exit_active_serve policy env acc i ops op code HI Hop Hph).
           apply TurnServeExit; assumption.
      * rewrite (exit_inactive policy env acc tp i ops op code Hne Hop).
        apply TurnStaleExit; assumption.
    + destruct (step_missing policy env i acc tp ops Hop) as [-> _].
      apply TurnUnknownExit. exact Hop.
  - destruct (ops !! i) as [op|] eqn:Hop.
    + destruct (decide (tp = Some i)) as [->|Hne].
      * pose proof (active_is_fresh _ _ _ _ HI Hop) as Hf.
        destruct (phase op) eqn:Hph.
        -- rewrite (error_active_login policy env acc i ops op HI Hop Hph).
           apply TurnLoginError; assumption.
        -- rewrite (error_active_serve policy env acc i ops op HI Hop Hph).
           apply TurnServeError; assumption.
      * rewrite (step_error policy env i acc tp ops op Hop).
        rewrite (react_inactive_eq env _ i acc tp _ (failedOp op).1 Hne)
          by (eapply lookup_inserted; eauto).
        destruct ((failedOp op).2 && rejectedLogin (failedOp op).1) eqn:Hb.
        -- apply TurnStaleLoginError; assumption.
        -- apply TurnStaleError; assumption.
    + destruct (step_missing policy env i acc tp ops Hop) as [_ ->].
      apply TurnUnknownError. exact Hop.
Qed.


Lemma count_app p t1 t2 : count p (t1 ++ t2) = (count p t1 + count p t2)%nat.
Proof. unfold count. rewrite List.filter_app, length_app. reflexivity. Qed.

Lemma run_preserves (Q : Event -> bool) (P : Service -> Prop) :
  (forall s e, Inv s -> P s -> Q e = true -> P (step policy env e s).1) ->
  forall events s,
    Inv s -> P s -> forallb Q events = true ->
    P (run policy env events s).1.
Proof.
  intros Hstep. induction events as [|e events IH]; intros s HI HP HQ;
    [exact HP|].
  cbn [forallb] in HQ. apply andb_true_iff in HQ as [He HQ].
  rewrite run_cons. pose proof (Inv_step policy env e s HI) as HI1.
  pose proof (Hstep s e HI HP He) as HP1.
  destruct (step policy env e s) as [s1 t1].
  specialize (IH s1 HI1 HP1 HQ).
  destruct (run policy env events s1) as [s2 t2]. exact IH.
Qed.

Lemma forallb_true_const (events : list Event) :
  forallb (fun _ => true) events = true.
Proof. induction events; [reflexivity|assumption]. Qed.

Lemma reachable_preserves (P : Service -> Prop) :
  P initial ->
  (forall s e, Inv s -> P s -> P (step policy env e s).1) ->
  forall events, P (stateAfter policy env events).
Proof.
  intros H0 Hstep events. unfold stateAfter.
  apply (run_preserves (fun _ => true) P); auto using Inv_idle, forallb_true_const.
  apply Inv_idle.
Qed.

(** ** At most one spawn and one kill in a turn *)

Lemma turn_counts s e r :
  Turn policy env s e r ->
  (count isSpawn r.2 <= 1)%nat
  /\ (count isKill r.2 <= 1)%nat
  /\ count isKill r.2 = count isCancelToken r.2
  /\ (isChildEvent e = true -> count isKill r.2 = 0%nat)
  /\ List.length (operations r.1)
     = (List.length (operations s) + count isSpawn r.2)%nat.
Proof.
  intros HT. destruct HT; cbn [fst snd operations isChildEvent];
    rewrite ?length_app, ?length_insert;
    try (repeat split; cbn; (lia || discriminate)).
  - destruct a; cbn; rewrite ?length_app; cbn; repeat split; (lia || discriminate).
  - destruct a, (cancelRejectsLogin policy (phase op)); cbn;
      rewrite ?length_app, ?length_insert; cbn;
      repeat split; (lia || discriminate).
Qed.

(** X11: in every turn the service spawns at most one process and signals
    at most one, a kill goes with every cancellation, an event of a child
    never kills, and the operations grow by exactly what was spawned. *)
Theorem one_spawn_one_kill_per_turn events e :
  let s := stateAfter policy env events in
  let r := step policy env e s in
  (count isSpawn r.2 <= 1)%nat
  /\ (count isKill r.2 <= 1)%nat
  /\ count isKill r.2 = count isCancelToken r.2
  /\ (isChildEvent e = true -> count isKill r.2 = 0%nat)
  /\ List.length (operations r.1)
     = (List.length (operations s) + count isSpawn r.2)%nat.
Proof.
  cbv zeta. apply turn_counts, step_turn, Inv_reachable.
Qed.

(** ** The active operation is the latest one *)

Lemma turn_latest s e r :
  Turn policy env s e r -> latestIsActive s -> latestIsActive r.1.
Proof.
  unfold latestIsActive.
  intros HT. destruct HT; cbn [fst _tunnelProcess operations]; intros HL j Hj;
    rewrite ?length_app, ?length_insert; try discriminate;
    try (injection Hj as <-; cbn; lia);
    try (specialize (HL j Hj); cbn in HL; lia).
  - destruct a; cbn in *; [|discriminate]. injection Hj as <-.
    rewrite length_app. cbn. lia.
  - destruct (cancelRejectsLogin policy (phase op)); [discriminate|].
    destruct a; cbn in *; [|discriminate]. injection Hj as <-.
    rewrite length_app, length_insert. cbn. lia.
Qed.

Lemma run_lengths events : forall s,
  Inv s ->
  List.length (operations (run policy env events s).1)
  = (List.length (operations s) + count isSpawn (run policy env events s).2)%nat.
Proof.
  induction events as [|e events IH]; intros s HI; [cbn; lia|].
  rewrite run_cons. pose proof (Inv_step policy env e s HI) as HI1.
  pose proof (turn_counts _ _ _ (step_turn e s HI)) as (_ & _ & _ & _ & Hlen).
  destruct (step policy env e s) as [s1 t1]. specialize (IH s1 HI1).
  destruct (run policy env events s1) as [s2 t2]. cbn [fst snd] in *.
  rewrite count_app. lia.
Qed.

Lemma turn_active_account s e r :
  Turn policy env s e r -> activeHasAccount s -> activeHasAccount r.1.
Proof.
  unfold activeHasAccount.
  intros HT. destruct HT; cbn [fst _account _tunnelProcess]; intros HA Hacc;
    try reflexivity; try (specialize (HA Hacc); discriminate HA); auto.
  - subst a. reflexivity.
  - subst a. destruct (cancelRejectsLogin policy (phase op)); reflexivity.
Qed.

Lemma reachable_active_account events :
  activeHasAccount (stateAfter policy env events).
Proof.
  apply (reachable_preserves activeHasAccount).
  - intros _. reflexivity.
  - intros s e HI HA.
    eapply turn_active_account; [apply step_turn; exact HI|exact HA].
Qed.

(** X12: [_tunnelProcess], when set, refers to the operation created last;
    the service has as many operations as it has spawned processes; and
    without a stored account no operation is active. *)
Theorem active_is_latest events :
  let s := stateAfter policy env events in
  (forall i, _tunnelProcess s = Some i -> S i = List.length (operations s))
  /\ List.length (operations s) = count isSpawn (traceOf policy env events)
  /\ (storedAccount s = None -> _tunnelProcess s = None).
Proof.
  cbv zeta. split; [|split].
  - apply (reachable_preserves latestIsActive).
    + intros i H. discriminate H.
    + intros s e HI HL. eapply turn_latest; [apply step_turn; exact HI|exact HL].
  - unfold stateAfter, traceOf. rewrite run_lengths by apply Inv_idle.
    reflexivity.
  - apply reachable_active_account.
Qed.

(** ** The stored account is cleared only with tunnel-failed *)

Lemma turn_account s e r :
  Turn policy env s e r -> isChildEvent e = true ->
  (r.2 = [TunnelFailed] /\ _account r.1 = None /\ _tunnelProcess r.1 = None
   /\ exists i op, finishes i e /\ _tunnelProcess s = Some i
                   /\ operations s !! i = Some op /\ phase op = Serving)
  \/ (count isTunnelFailed r.2 = 0%nat /\ _account r.1 = _account s).
Proof.
  intros HT He. destruct HT; try discriminate He;
    cbn [fst snd _account _tunnelProcess operations];
    try (right; split; reflexivity).
  - left. repeat split. exists i, op. repeat split; auto.
    left. eexists; reflexivity.
  - left. repeat split. exists i, op. repeat split; auto.
    right. reflexivity.
Qed.

(** X13: an event of a child changes what [getAccount] returns only in the
    turn in which the child of the active serve operation ends: then
    tunnel-failed fires and the account is cleared; in every other turn
    tunnel-failed does not fire and the account stays. *)
Theorem account_cleared_only_with_tunnel_failed events e :
  let s := stateAfter policy env events in
  let r := step policy env e s in
  isChildEvent e = true ->
  (r.2 = [TunnelFailed] /\ storedAccount r.1 = None
   /\ _tunnelProcess r.1 = None
   /\ exists i op, finishes i e /\ _tunnelProcess s = Some i
                   /\ operations s !! i = Some op /\ phase op = Serving)
  \/ (count isTunnelFailed r.2 = 0%nat
      /\ storedAccount r.1 = storedAccount s).
Proof.
  cbv zeta. intros He.
  apply (turn_account _ _ _ (step_turn e _ (Inv_reachable policy env events)) He).
Qed.

(** ** While no operation is active *)

Lemma turn_idle s e r :
  Turn policy env s e r -> isChildEvent e = true -> _tunnelProcess s = None ->
  _tunnelProcess r.1 = None /\ _account r.1 = _account s
  /\ count isSpawn r.2 = 0%nat /\ count isTunnelFailed r.2 = 0%nat
  /\ count isKill r.2 = 0%nat.
Proof.
  intros HT He. destruct HT; try discriminate He;
    cbn [fst snd _account _tunnelProcess operations]; intros Htp;
    try discriminate Htp; subst; repeat split.
Qed.

Lemma run_idle events : forall s,
  Inv s -> _tunnelProcess s = None -> forallb isChildEvent events = true ->
  _tunnelProcess (run policy env events s).1 = None
  /\ _account (run policy env events s).1 = _account s
  /\ count isSpawn (run policy env events s).2 = 0%nat
  /\ count isTunnelFailed (run policy env events s).2 = 0%nat
  /\ count isKill (run policy env events s).2 = 0%nat.
Proof.
  induction events as [|e events IH]; intros s HI Htp Hev; [cbn; auto|].
  cbn [forallb] in Hev. apply andb_true_iff in Hev as [He Hev].
  rewrite run_cons. pose proof (Inv_step policy env e s HI) as HI1.
  pose proof (turn_idle _ _ _ (step_turn e s HI) He Htp)
    as (H1 & H2 & H3 & H4 & H5).
  destruct (step policy env e s) as [s1 t1]. cbn [fst snd] in *.
  specialize (IH s1 HI1 H1 Hev).
  destruct (run policy env events s1) as [s2 t2]. cbn [fst snd] in *.
  destruct IH as (I1 & I2 & I3 & I4 & I5).
  rewrite !count_app. repeat split; try congruence; lia.
Qed.

(** X14: [updateAccount(undefined)] clears the account and the active
    operation and spawns nothing, and whatever the children do afterwards
    the service stays so: no process is spawned or signalled and
    tunnel-failed does not fire. *)
Theorem turned_off_stays_off events later :
  let s := stateAfter policy env events in
  let off := step policy env (UpdateAccount None) s in
  let r := run policy env later off.1 in
  forallb isChildEvent later = true ->
  (storedAccount off.1 = None /\ _tunnelProcess off.1 = None
   /\ count isSpawn off.2 = 0%nat)
  /\ (storedAccount r.1 = None /\ _tunnelProcess r.1 = None
      /\ count isSpawn r.2 = 0%nat /\ count isTunnelFailed r.2 = 0%nat
      /\ count isKill r.2 = 0%nat).
Proof.
  cbv zeta. intros Hev.
  pose proof (Inv_reachable policy env events) as HI.
  pose proof (reachable_active_account events) as HA.
  pose proof (Inv_step policy env (UpdateAccount None) _ HI) as HI1.
  pose proof (step_turn (UpdateAccount None) _ HI) as HT.
  assert (Hoff : _account (step policy env (UpdateAccount None)
                             (stateAfter policy env events)).1 = None
                 /\ _tunnelProcess (step policy env (UpdateAccount None)
                                      (stateAfter policy env events)).1 = None
                 /\ count isSpawn (step policy env (UpdateAccount None)
                                     (stateAfter policy env events)).2 = 0%nat).
  { remember (stateAfter policy env events) as s eqn:Hs. clear Hs HI HI1.
    remember (step policy env (UpdateAccount None) s) as r eqn:Hr. clear Hr.
    remember (UpdateAccount None) as e eqn:Hevt.
    destruct HT; try discriminate Hevt; injection Hevt as ->;
      cbn [fst snd _account _tunnelProcess].
    - destruct acc; [discriminate|]. pose proof (HA eq_refl) as Htp.
      cbn in Htp. subst tp. repeat split.
    - repeat split.
    - destruct (cancelRejectsLogin policy (phase op)); repeat split. }
  destruct Hoff as (H1 & H2 & H3). split; [auto|].
  destruct (run_idle later _ HI1 H2 Hev) as (I1 & I2 & I3 & I4 & I5).
  unfold storedAccount, getAccount. cbn [fst]. rewrite I2, H1. auto.
Qed.


(** ** [dispose] *)




(** ** The only child that runs unsignalled *)

Lemma exitedOp_not_running code op : child (exitedOp code op).1 <> Running.
Proof.
  unfold exitedOp, settledExecutor, settledPromise.
  destruct op as [ph ar tk tpv ex pr ch]; cbn.
  destruct ch, tpv, ex, pr; cbn; discriminate.
Qed.

Lemma failedOp_not_running op : child (failedOp op).1 <> Running.
Proof.
  unfold failedOp, settledExecutor, settledPromise.
  destruct op as [ph ar tk tpv ex pr ch]; cbn.
  destruct ch, tpv, ex, pr; cbn; discriminate.
Qed.

Lemma exitedOp_settled code op :
  fresh op \/ settled (promise op) = true ->
  settled (promise (exitedOp code op).1) = true.
Proof.
  intros [Hf|Hs]; [rewrite (exitedOp_fresh code op Hf); reflexivity|].
  unfold exitedOp, settledExecutor, settledPromise.
  destruct op as [ph ar tk tpv ex pr ch]; cbn in *.
  destruct (alive ch), tpv, ex, pr; cbn; auto.
Qed.

Lemma failedOp_settled op :
  fresh op \/ settled (promise op) = true ->
  settled (promise (failedOp op).1) = true.
Proof.
  intros [Hf|Hs]; [rewrite (failedOp_fresh op Hf); reflexivity|].
  unfold failedOp, settledExecutor, settledPromise.
  destruct op as [ph ar tk tpv ex pr ch]; cbn in *.
  destruct (alive ch), tpv, ex, pr; cbn; auto.
Qed.

Lemma failedOp_settled_quiet op :
  settled (promise op) = true -> (failedOp op).2 = false.
Proof.
  unfold failedOp, settledExecutor, settledPromise.
  destruct op as [ph ar tk tpv ex pr ch]; cbn.
  destruct (alive ch), tpv, ex, pr; cbn; auto; discriminate.
Qed.

Lemma lookup_written (ops tl : list Operation) i x j o :
  (i < List.length ops)%nat ->
  (<[i := x]> ops ++ tl) !! j = Some o ->
  (j = i /\ o = x) \/ (j <> i /\ ops !! j = Some o)
  \/ ((List.length ops <= j)%nat /\ tl !! (j - List.length ops)%nat = Some o).
Proof.
  intros Hi Hj. destruct (decide (j < List.length ops)%nat) as [Hlt|Hge].
  - rewrite lookup_app_l in Hj by (rewrite length_insert; exact Hlt).
    destruct (decide (j = i)) as [->|Hne].
    + rewrite list_lookup_insert_eq in Hj by exact Hi. left. split; congruence.
    + rewrite list_lookup_insert_ne in Hj by congruence. auto.
  - rewrite lookup_app_r in Hj by (rewrite length_insert; lia).
    rewrite length_insert in Hj. right. right. split; [lia|exact Hj].
Qed.

Lemma lookup_last_only (ops : list Operation) (x : Operation) j (o : Operation) :
  (List.length ops <= j)%nat -> [x] !! (j - List.length ops)%nat = Some o ->
  j = List.length ops.
Proof.
  intros Hge Hj. destruct (j - List.length ops)%nat as [|k] eqn:E; [lia|].
  discriminate Hj.
Qed.

Lemma calm_policy e : calm policy e = true -> policy <> RejectsOnCancel.
Proof. unfold calm. intros H Hp. rewrite Hp in H. discriminate H. Qed.

Lemma calm_error i :
  calm policy (ChildError i) = true -> policy = ResolvesOnCancel.
Proof. unfold calm. destruct policy; (reflexivity || discriminate). Qed.

Lemma cancelledOp_sole op :
  fresh op ->
  child (cancelledOp policy op).1 <> Running
  /\ (policy = ResolvesOnCancel ->
      settled (promise (cancelledOp policy op).1) = true).
Proof.
  intros Hf. rewrite (cancelledOp_fresh policy op Hf). cbn. split; [discriminate|].
  intros ->. reflexivity.
Qed.

Lemma turn_sole s e r :
  Turn policy env s e r -> calm policy e = true ->
  soleRunner policy s -> soleRunner policy r.1.
Proof.
  unfold soleRunner.
  intros HT Hcalm. destruct HT; cbn [fst _tunnelProcess operations];
    intros HS j o Hj Hne.
  - (* same account *) exact (HS j o Hj Hne).
  - (* start *)
    destruct a as [acc'|]; cbn in Hj, Hne.
    + destruct (decide (j < List.length ops)%nat) as [Hlt|Hge].
      * rewrite lookup_app_l in Hj by exact Hlt.
        apply (HS j o Hj). discriminate.
      * rewrite lookup_app_r in Hj by lia.
        pose proof (lookup_last_only ops _ j o ltac:(lia) Hj). congruence.
    + apply (HS j o Hj). discriminate.
  - (* restart *)
    assert (Hrej : cancelRejectsLogin policy (phase op) = false).
    { pose proof (calm_policy _ Hcalm) as Hp. unfold cancelRejectsLogin.
      destruct policy; (reflexivity || contradiction Hp; reflexivity). }
    rewrite Hrej in Hne.
    assert (Hi : (i < List.length ops)%nat) by (eapply lookup_lt_Some; eauto).
    assert (Hold : (j = i /\ o = (cancelledOp policy op).1)
                   \/ (j <> i /\ ops !! j = Some o)
                   \/ j = List.length ops).
    { destruct a as [acc'|]; cbn in Hj.
      - destruct (lookup_written ops _ i _ j o Hi Hj) as [Hw|[Hw|[Hge Hl]]]; auto.
        right. right. eapply lookup_last_only; eauto.
      - rewrite <- (app_nil_r (<[i:=_]> ops)) in Hj.
        destruct (lookup_written ops _ i _ j o Hi Hj) as [Hw|[Hw|[Hge Hl]]]; auto.
        rewrite lookup_nil in Hl. discriminate. }
    destruct Hold as [[-> ->]|[[Hji Hold]|Hnew]].
    + apply cancelledOp_sole. assumption.
    + apply (HS j o Hold). congruence.
    + destruct a as [acc'|]; cbn in Hne, Hj.
      * rewrite length_insert in Hne. congruence.
      * apply lookup_lt_Some in Hj. rewrite length_insert in Hj. lia.
  - (* login exit *)
    assert (Hi : (i < List.length ops)%nat) by (eapply lookup_lt_Some; eauto).
    destruct (lookup_written ops _ i _ j o Hi Hj) as [[-> ->]|[[Hji Hold]|[Hge Hl]]].
    + split; [apply exitedOp_not_running|]. intros _. apply exitedOp_settled. auto.
    + apply (HS j o Hold). congruence.
    + pose proof (lookup_last_only ops _ j o Hge Hl). congruence.
  - (* login error *)
    assert (Hi : (i < List.length ops)%nat) by (eapply lookup_lt_Some; eauto).
    rewrite <- (app_nil_r (<[i:=_]> ops)) in Hj.
    destruct (lookup_written ops _ i _ j o Hi Hj) as [[-> ->]|[[Hji Hold]|[Hge Hl]]].
    + split; [apply failedOp_not_running|]. intros _. apply failedOp_settled. auto.
    + apply (HS j o Hold). congruence.
    + rewrite lookup_nil in Hl. discriminate.
  - (* serve exit *)
    assert (Hi : (i < List.length ops)%nat) by (eapply lookup_lt_Some; eauto).
    rewrite <- (app_nil_r (<[i:=_]> ops)) in Hj.
    destruct (lookup_written ops _ i _ j o Hi Hj) as [[-> ->]|[[Hji Hold]|[Hge Hl]]].
    + split; [apply exitedOp_not_running|]. intros _. apply exitedOp_settled. auto.
    + apply (HS j o Hold). congruence.
    + rewrite lookup_nil in Hl. discriminate.
  - (* serve error *)
    assert (Hi : (i < List.length ops)%nat) by (eapply lookup_lt_Some; eauto).
    rewrite <- (app_nil_r (<[i:=_]> ops)) in Hj.
    destruct (lookup_written ops _ i _ j o Hi Hj) as [[-> ->]|[[Hji Hold]|[Hge Hl]]].
    + split; [apply failedOp_not_running|]. intros _. apply failedOp_settled. auto.
    + apply (HS j o Hold). congruence.
    + rewrite lookup_nil in Hl. discriminate.
  - (* stale exit *)
    assert (Hi : (i < List.length ops)%nat) by (eapply lookup_lt_Some; eauto).
    rewrite <- (app_nil_r (<[i:=_]> ops)) in Hj.
    destruct (lookup_written ops _ i _ j o Hi Hj) as [[-> ->]|[[Hji Hold]|[Hge Hl]]].
    + split; [apply exitedOp_not_running|]. intros Hp. apply exitedOp_settled.
      right. apply (HS i op); assumption.
    + apply (HS j o Hold Hne).
    + rewrite lookup_nil in Hl. discriminate.
  - (* stale error, nothing fires *)
    assert (Hi : (i < List.length ops)%nat) by (eapply lookup_lt_Some; eauto).
    rewrite <- (app_nil_r (<[i:=_]> ops)) in Hj.
    destruct (lookup_written ops _ i _ j o Hi Hj) as [[-> ->]|[[Hji Hold]|[Hge Hl]]].
    + split; [apply failedOp_not_running|]. intros Hp. apply failedOp_settled.
      right. apply (HS i op); assumption.
    + apply (HS j o Hold Hne).
    + rewrite lookup_nil in Hl. discriminate.
  - (* stale login error: excluded *)
    exfalso. pose proof (calm_error _ Hcalm) as Hp.
    assert (Hs : settled (promise op) = true) by (apply (HS i op); assumption).
    rewrite (failedOp_settled_quiet op Hs) in *. discriminate.
  - exact (HS j o Hj Hne).
  - exact (HS j o Hj Hne).
Qed.

(** ** Turns that reject the promise of a cancelled login *)

Lemma cancelledLoginRejected_settled op op' :
  settled (promise op) = true -> cancelledLoginRejected op op' = false.
Proof.
  intros H. unfold cancelledLoginRejected. rewrite H.
  apply andb_false_r.
Qed.

Lemma cancelledLoginRejected_same op : cancelledLoginRejected op op = false.
Proof.
  unfold cancelledLoginRejected, rejectedLogin.
  destruct (isCancellationRequested op), (phase op), (promise op);
    reflexivity.
Qed.

Lemma cancelledLoginRejected_token op op' :
  isCancellationRequested op' = false -> cancelledLoginRejected op op' = false.
Proof. intros H. unfold cancelledLoginRejected. rewrite H. reflexivity. Qed.

Lemma cancelledLoginRejected_kept op op' :
  rejectedLogin op' = false -> cancelledLoginRejected op op' = false.
Proof.
  intros H. unfold cancelledLoginRejected. rewrite H.
  rewrite andb_false_r. reflexivity.
Qed.

Lemma rejects_at s s' i op op' :
  rejectsCancelledLogin s s' = false ->
  operations s !! i = Some op -> operations s' !! i = Some op' ->
  cancelledLoginRejected op op' = false.
Proof.
  intros H Ho Ho'. destruct (cancelledLoginRejected op op') eqn:E;
    [|reflexivity].
  exfalso. apply not_true_iff_false in H. apply H.
  unfold rejectsCancelledLogin. apply existsb_exists. exists i. split.
  - apply in_seq. apply lookup_lt_Some in Ho. lia.
  - rewrite Ho, Ho'. exact E.
Qed.

Lemma rejects_none s s' :
  (forall i op op',
      operations s !! i = Some op -> operations s' !! i = Some op' ->
      cancelledLoginRejected op op' = false) ->
  rejectsCancelledLogin s s' = false.
Proof.
  intros H. unfold rejectsCancelledLogin.
  apply not_true_iff_false. intros Hex.
  apply existsb_exists in Hex as (i & _ & Hi).
  destruct (operations s !! i) as [op|] eqn:Ho; [|discriminate Hi].
  destruct (operations s' !! i) as [op'|] eqn:Ho'; [|discriminate Hi].
  rewrite (H i op op' Ho Ho') in Hi. discriminate Hi.
Qed.

Lemma exitedOp_token code op :
  isCancellationRequested (exitedOp code op).1 = isCancellationRequested op.
Proof.
  unfold exitedOp, settledExecutor, settledPromise.
  destruct op as [ph ar tk tpv ex pr ch]; cbn.
  destruct (alive ch), tpv, ex, pr; reflexivity.
Qed.

Lemma failedOp_token op :
  isCancellationRequested (failedOp op).1 = isCancellationRequested op.
Proof.
  unfold failedOp, settledExecutor, settledPromise.
  destruct op as [ph ar tk tpv ex pr ch]; cbn.
  destruct (alive ch), tpv, ex, pr; reflexivity.
Qed.

Lemma failedOp_queued_pending op :
  (failedOp op).2 = true -> settled (promise op) = false.
Proof.
  intros H. destruct (settled (promise op)) eqn:E; [|reflexivity].
  rewrite (failedOp_settled_quiet op E) in H. discriminate H.
Qed.

Lemma exitedOp_rejects_nothing code op :
  cancelledLoginRejected op (exitedOp code op).1 = false.
Proof.
  unfold cancelledLoginRejected, rejectedLogin, exitedOp, settledExecutor,
    settledPromise.
  destruct op as [ph ar tk tpv ex pr ch]; cbn.
  destruct (alive ch), tpv, ex, pr, tk, ph; reflexivity.
Qed.

Lemma cancelledOp_token op :
  fresh op -> isCancellationRequested (cancelledOp policy op).1 = true.
Proof. intros Hf. rewrite (cancelledOp_fresh policy op Hf). reflexivity. Qed.

Lemma cancelledOp_rejects op :
  fresh op ->
  cancelledLoginRejected op (cancelledOp policy op).1
  = cancelRejectsLogin policy (phase op).
Proof.
  intros Hf. rewrite (cancelledOp_fresh policy op Hf).
  destruct Hf as (_ & _ & _ & Hp & _).
  unfold cancelledLoginRejected, rejectedLogin, cancelRejectsLogin.
  rewrite Hp. cbn. destruct policy, (phase op); reflexivity.
Qed.

Lemma lookup_written_at (ops tl : list Operation) i (x : Operation) :
  (i < List.length ops)%nat -> (<[i := x]> ops ++ tl) !! i = Some x.
Proof.
  intros Hi. rewrite lookup_app_l by (rewrite length_insert; exact Hi).
  apply list_lookup_insert_eq. exact Hi.
Qed.

Lemma started_written a (ops : list Operation) i (x : Operation) :
  (i < List.length ops)%nat ->
  (started env a (<[i := x]> ops)).1.2 !! i = Some x.
Proof.
  intros Hi. destruct a as [acc|]; cbn [started fst snd].
  - apply lookup_written_at. exact Hi.
  - apply list_lookup_insert_eq. exact Hi.
Qed.

Lemma turn_done s e r :
  Turn policy env s e r -> rejectsCancelledLogin s r.1 = false ->
  othersDone s -> othersDone r.1.
Proof.
  unfold othersDone.
  intros HT. destruct HT; cbn [fst _tunnelProcess operations];
    intros Hrej HS j o Hj Hne.
  - (* same account *) exact (HS j o Hj Hne).
  - (* start *)
    destruct a as [acc'|]; cbn in Hj, Hne.
    + destruct (decide (j < List.length ops)%nat) as [Hlt|Hge].
      * rewrite lookup_app_l in Hj by exact Hlt.
        apply (HS j o Hj). discriminate.
      * rewrite lookup_app_r in Hj by lia.
        pose proof (lookup_last_only ops _ j o ltac:(lia) Hj). congruence.
    + apply (HS j o Hj). discriminate.
  - (* restart *)
    assert (Hi : (i < List.length ops)%nat) by (eapply lookup_lt_Some; eauto).
    assert (Hno : cancelRejectsLogin policy (phase op) = false).
    { rewrite <- (cancelledOp_rejects op) by assumption.
      apply (rejects_at _ _ i op (cancelledOp policy op).1 Hrej);
        cbn [operations]; [assumption|].
      apply started_written. exact Hi. }
    rewrite Hno in Hne.
    assert (Hold : (j = i /\ o = (cancelledOp policy op).1)
                   \/ (j <> i /\ ops !! j = Some o)
                   \/ j = List.length ops).
    { destruct a as [acc'|]; cbn in Hj.
      - destruct (lookup_written ops _ i _ j o Hi Hj) as [Hw|[Hw|[Hge Hl]]]; auto.
        right. right. eapply lookup_last_only; eauto.
      - rewrite <- (app_nil_r (<[i:=_]> ops)) in Hj.
        destruct (lookup_written ops _ i _ j o Hi Hj) as [Hw|[Hw|[Hge Hl]]]; auto.
        rewrite lookup_nil in Hl. discriminate. }
    destruct Hold as [[-> ->]|[[Hji Hold]|Hnew]].
    + split; [apply cancelledOp_sole; assumption|].
      right. apply cancelledOp_token. assumption.
    + apply (HS j o Hold). congruence.
    + destruct a as [acc'|]; cbn in Hne, Hj.
      * rewrite length_insert in Hne. congruence.
      * apply lookup_lt_Some in Hj. rewrite length_insert in Hj. lia.
  - (* login exit *)
    assert (Hi : (i < List.length ops)%nat) by (eapply lookup_lt_Some; eauto).
    destruct (lookup_written ops _ i _ j o Hi Hj) as [[-> ->]|[[Hji Hold]|[Hge Hl]]].
    + split; [apply exitedOp_not_running|]. left. apply exitedOp_settled. auto.
    + apply (HS j o Hold). congruence.
    + pose proof (lookup_last_only ops _ j o Hge Hl). congruence.
  - (* login error *)
    assert (Hi : (i < List.length ops)%nat) by (eapply lookup_lt_Some; eauto).
    rewrite <- (app_nil_r (<[i:=_]> ops)) in Hj.
    destruct (lookup_written ops _ i _ j o Hi Hj) as [[-> ->]|[[Hji Hold]|[Hge Hl]]].
    + split; [apply failedOp_not_running|]. left. apply failedOp_settled. auto.
    + apply (HS j o Hold). congruence.
    + rewrite lookup_nil in Hl. discriminate.
  - (* serve exit *)
    assert (Hi : (i < List.length ops)%nat) by (eapply lookup_lt_Some; eauto).
    rewrite <- (app_nil_r (<[i:=_]> ops)) in Hj.
    destruct (lookup_written ops _ i _ j o Hi Hj) as [[-> ->]|[[Hji Hold]|[Hge Hl]]].
    + split; [apply exitedOp_not_running|]. left. apply exitedOp_settled. auto.
    + apply (HS j o Hold). congruence.
    + rewrite lookup_nil in Hl. discriminate.
  - (* serve error *)
    assert (Hi : (i < List.length ops)%nat) by (eapply lookup_lt_Some; eauto).
    rewrite <- (app_nil_r (<[i:=_]> ops)) in Hj.
    destruct (lookup_written ops _ i _ j o Hi Hj) as [[-> ->]|[[Hji Hold]|[Hge Hl]]].
    + split; [apply failedOp_not_running|]. left. apply failedOp_settled. auto.
    + apply (HS j o Hold). congruence.
    + rewrite lookup_nil in Hl. discriminate.
  - (* stale exit *)
    assert (Hi : (i < List.length ops)%nat) by (eapply lookup_lt_Some; eauto).
    rewrite <- (app_nil_r (<[i:=_]> ops)) in Hj.
    destruct (lookup_written ops _ i _ j o Hi Hj) as [[-> ->]|[[Hji Hold]|[Hge Hl]]].
    + split; [apply exitedOp_not_running|].
      destruct (HS i op) as [_ [Hs|Hc]]; try assumption.
      * left. apply exitedOp_settled. auto.
      * right. rewrite exitedOp_token. exact Hc.
    + apply (HS j o Hold Hne).
    + rewrite lookup_nil in Hl. discriminate.
  - (* stale error, nothing fires *)
    assert (Hi : (i < List.length ops)%nat) by (eapply lookup_lt_Some; eauto).
    rewrite <- (app_nil_r (<[i:=_]> ops)) in Hj.
    destruct (lookup_written ops _ i _ j o Hi Hj) as [[-> ->]|[[Hji Hold]|[Hge Hl]]].
    + split; [apply failedOp_not_running|].
      destruct (HS i op) as [_ [Hs|Hc]]; try assumption.
      * left. apply failedOp_settled. auto.
      * right. rewrite failedOp_token. exact Hc.
    + apply (HS j o Hold Hne).
    + rewrite lookup_nil in Hl. discriminate.
  - (* stale login error: the promise of a cancelled login is rejected *)
    exfalso.
    assert (Hi : (i < List.length ops)%nat) by (eapply lookup_lt_Some; eauto).
    match goal with
    | Hboth : _ && _ = true |- _ => apply andb_true_iff in Hboth as [Hq Hr]
    end.
    pose proof (rejects_at _ _ i op (failedOp op).1 Hrej) as Hat.
    cbn [operations] in Hat.
    specialize (Hat ltac:(assumption)
                    (list_lookup_insert_eq ops i (failedOp op).1 Hi)).
    unfold cancelledLoginRejected in Hat.
    rewrite Hr, (failedOp_queued_pending op Hq), failedOp_token in Hat.
    destruct (HS i op) as [_ [Hs|Hc]]; try assumption.
    + rewrite (failedOp_queued_pending op Hq) in Hs. discriminate Hs.
    + rewrite Hc in Hat. discriminate Hat.
  - exact (HS j o Hj Hne).
  - exact (HS j o Hj Hne).
Qed.

Lemma run_done events : forall s,
  Inv s -> othersDone s ->
  noCancelledLoginRejected policy env events s = true ->
  othersDone (run policy env events s).1.
Proof.
  induction events as [|e events IH]; intros s HI HS Hn; [exact HS|].
  cbn [noCancelledLoginRejected] in Hn.
  apply andb_true_iff in Hn as [He Hn]. apply negb_true_iff in He.
  rewrite run_cons.
  pose proof (Inv_step policy env e s HI) as HI1.
  pose proof (turn_done s e _ (step_turn e s HI) He HS) as HS1.
  destruct (step policy env e s) as [s1 t1]. cbn [fst] in *.
  specialize (IH s1 HI1 HS1 Hn).
  destruct (run policy env events s1) as [s2 t2]. exact IH.
Qed.

(** With a calm event no promise of a cancelled login is rejected. *)
Lemma turn_calm s e r :
  Turn policy env s e r -> calm policy e = true ->
  soleRunner policy s -> rejectsCancelledLogin s r.1 = false.
Proof.
  intros HT Hcalm HS. apply rejects_none.
  destruct HT; cbn [fst operations]; intros j o o' Hj Hj';
    try (assert (Hi : (i < List.length ops)%nat)
           by (eapply lookup_lt_Some; eauto)).
  - rewrite Hj in Hj'. injection Hj' as <-.
    apply cancelledLoginRejected_same.
  - destruct a as [acc'|]; cbn in Hj'.
    + rewrite lookup_app_l in Hj' by (eapply lookup_lt_Some; eauto).
      rewrite Hj in Hj'. injection Hj' as <-.
      apply cancelledLoginRejected_same.
    + rewrite Hj in Hj'. injection Hj' as <-.
      apply cancelledLoginRejected_same.
  - assert (Hrej : cancelRejectsLogin policy (phase op) = false).
    { pose proof (calm_policy _ Hcalm) as Hp. unfold cancelRejectsLogin.
      destruct policy; (reflexivity || contradiction Hp; reflexivity). }
    assert (Hold : (j = i /\ o' = (cancelledOp policy op).1)
                   \/ (j <> i /\ ops !! j = Some o')).
    { pose proof (lookup_lt_Some _ _ _ Hj) as Hlt.
      destruct a as [acc'|]; cbn in Hj'.
      - destruct (lookup_written ops _ i _ j o' Hi Hj')
          as [Hw|[Hw|[Hge Hl]]]; auto. lia.
      - rewrite <- (app_nil_r (<[i:=_]> ops)) in Hj'.
        destruct (lookup_written ops _ i _ j o' Hi Hj')
          as [Hw|[Hw|[Hge Hl]]]; auto. lia. }
    destruct Hold as [[-> ->]|[_ Hold]].
    + assert (o = op) by congruence. subst o.
      rewrite cancelledOp_rejects by assumption. exact Hrej.
    + rewrite Hj in Hold. injection Hold as <-.
      apply cancelledLoginRejected_same.
  - pose proof (lookup_lt_Some _ _ _ Hj) as Hlt.
    destruct (lookup_written ops _ i _ j o' Hi Hj')
      as [[-> ->]|[[_ Hold]|[Hge _]]]; [| |lia].
    + assert (o = op) by congruence. subst o.
      apply exitedOp_rejects_nothing.
    + rewrite Hj in Hold. injection Hold as <-.
      apply cancelledLoginRejected_same.
  - rewrite <- (app_nil_r (<[i:=_]> ops)) in Hj'.
    pose proof (lookup_lt_Some _ _ _ Hj) as Hlt.
    destruct (lookup_written ops _ i _ j o' Hi Hj')
      as [[-> ->]|[[_ Hold]|[Hge _]]]; [| |lia].
    + apply cancelledLoginRejected_token.
      rewrite (failedOp_fresh op) by assumption. reflexivity.
    + rewrite Hj in Hold. injection Hold as <-.
      apply cancelledLoginRejected_same.
  - rewrite <- (app_nil_r (<[i:=_]> ops)) in Hj'.
    pose proof (lookup_lt_Some _ _ _ Hj) as Hlt.
    destruct (lookup_written ops _ i _ j o' Hi Hj')
      as [[-> ->]|[[_ Hold]|[Hge _]]]; [| |lia].
    + assert (o = op) by congruence. subst o.
      apply exitedOp_rejects_nothing.
    + rewrite Hj in Hold. injection Hold as <-.
      apply cancelledLoginRejected_same.
  - rewrite <- (app_nil_r (<[i:=_]> ops)) in Hj'.
    pose proof (lookup_lt_Some _ _ _ Hj) as Hlt.
    destruct (lookup_written ops _ i _ j o' Hi Hj')
      as [[-> ->]|[[_ Hold]|[Hge _]]]; [| |lia].
    + apply cancelledLoginRejected_token.
      rewrite (failedOp_fresh op) by assumption. reflexivity.
    + rewrite Hj in Hold. injection Hold as <-.
      apply cancelledLoginRejected_same.
  - rewrite <- (app_nil_r (<[i:=_]> ops)) in Hj'.
    pose proof (lookup_lt_Some _ _ _ Hj) as Hlt.
    destruct (lookup_written ops _ i _ j o' Hi Hj')
      as [[-> ->]|[[_ Hold]|[Hge _]]]; [| |lia].
    + assert (o = op) by congruence. subst o.
      apply exitedOp_rejects_nothing.
    + rewrite Hj in Hold. injection Hold as <-.
      apply cancelledLoginRejected_same.
  - rewrite <- (app_nil_r (<[i:=_]> ops)) in Hj'.
    pose proof (lookup_lt_Some _ _ _ Hj) as Hlt.
    destruct (lookup_written ops _ i _ j o' Hi Hj')
      as [[-> ->]|[[_ Hold]|[Hge _]]]; [| |lia].
    + assert (o = op) by congruence. subst o.
      apply cancelledLoginRejected_settled.
      pose proof (calm_error _ Hcalm) as Hp.
      apply (HS i op); assumption.
    + rewrite Hj in Hold. injection Hold as <-.
      apply cancelledLoginRejected_same.
  - exfalso. pose proof (calm_error _ Hcalm) as Hp.
    assert (Hs : settled (promise op) = true) by (apply (HS i op); assumption).
    rewrite (failedOp_settled_quiet op Hs) in *. discriminate.
  - rewrite Hj in Hj'. injection Hj' as <-.
    apply cancelledLoginRejected_same.
  - rewrite Hj in Hj'. injection Hj' as <-.
    apply cancelledLoginRejected_same.
Qed.

Lemma run_calm events : forall s,
  Inv s -> soleRunner policy s -> forallb (calm policy) events = true ->
  noCancelledLoginRejected policy env events s = true.
Proof.
  induction events as [|e events IH]; intros s HI HS Hc; [reflexivity|].
  cbn [forallb] in Hc. apply andb_true_iff in Hc as [He Hc].
  cbn [noCancelledLoginRejected].
  pose proof (step_turn e s HI) as HT.
  rewrite (turn_calm s e _ HT He HS). cbn [negb andb].
  apply IH; [apply Inv_step; exact HI| |exact Hc].
  eapply turn_sole; eauto.
Qed.

(** X16: as long as no turn rejects the promise of a cancelled login, the
    only child that runs without having been signalled is that of the
    active operation: there is at most one.  No turn does so when
    [cancel()] resolves the promise, or when it leaves the promise to the
    wrapped work and no child reports an error. *)
Theorem one_unsignalled_child events :
  (noCancelledLoginRejected policy env events initial = true ->
   (forall j op,
       operations (stateAfter policy env events) !! j = Some op ->
       child op = Running ->
       _tunnelProcess (stateAfter policy env events) = Some j)
   /\ (forall j k op op',
         operations (stateAfter policy env events) !! j = Some op ->
         operations (stateAfter policy env events) !! k = Some op' ->
         child op = Running -> child op' = Running -> j = k))
  /\ (forallb (calm policy) events = true ->
      noCancelledLoginRejected policy env events initial = true).
Proof.
  split.
  - intros Hn.
    assert (HS : othersDone (stateAfter policy env events)).
    { unfold stateAfter. apply run_done; [apply Inv_idle| |exact Hn].
      intros j op Hj. discriminate Hj. }
    assert (H1 : forall j op,
               operations (stateAfter policy env events) !! j = Some op ->
               child op = Running ->
               _tunnelProcess (stateAfter policy env events) = Some j).
    { intros j op Hj Hrun.
      destruct (decide (_tunnelProcess (stateAfter policy env events) = Some j))
        as [H|H]; [exact H|].
      destruct (HS j op Hj H) as [Hnr _]. contradiction. }
    split; [exact H1|].
    intros j k op op' Hj Hk Hr Hr'.
    pose proof (H1 j op Hj Hr). pose proof (H1 k op' Hk Hr'). congruence.
  - intros Hc. apply run_calm; [apply Inv_idle| |exact Hc].
    intros j op Hj. discriminate Hj.
Qed.

(** ** What is spawned, and for whom *)

Lemma started_spawn a ops x :
  x ∈ (started env a ops).2 ->
  exists acc, a = Some acc
              /\ x = spawned env (List.length ops) (loginArgs acc).
Proof.
  destruct a as [acc|]; cbn [started snd]; intros H.
  - apply list_elem_of_singleton in H. eauto.
  - apply elem_of_nil in H. contradiction.
Qed.

Lemma spawned_command_line n cargs :
  spawned env n cargs
  = if VSCODE_DEV env
    then Spawn n "cargo" ("run" :: "--" :: cargs)
    else Spawn n (tunnelCommand env) cargs.
Proof.
  unfold spawned, spawnCommand. destruct (VSCODE_DEV env); reflexivity.
Qed.

Lemma turn_spawn s e r x :
  Turn policy env s e r -> x ∈ r.2 -> isSpawn x = true ->
  spawnOrigin env s e r x.
Proof.
  intros HT. destruct HT; cbn [fst snd operations _tunnelProcess];
    intros Hin Hs;
    try (apply elem_of_nil in Hin; contradiction);
    try (apply list_elem_of_singleton in Hin as ->; discriminate Hs).
  - apply elem_of_app in Hin as [Hin|Hin].
    + repeat (apply elem_of_cons in Hin as [->|Hin]; [discriminate Hs|]).
      apply elem_of_nil in Hin. contradiction.
    + apply started_spawn in Hin as (y & -> & ->).
      exists (loginArgs y). split; [apply spawned_command_line|].
      left. exists y. repeat split; reflexivity.
  - repeat (apply elem_of_cons in Hin as [->|Hin]; [discriminate Hs|]).
    apply elem_of_app in Hin as [Hin|Hin].
    + apply started_spawn in Hin as (y & -> & ->).
      exists (loginArgs y). rewrite length_insert.
      split; [apply spawned_command_line|].
      left. exists y. repeat split; reflexivity.
    + destruct (cancelRejectsLogin policy (phase op)).
      * apply list_elem_of_singleton in Hin as ->. discriminate Hs.
      * apply elem_of_nil in Hin. contradiction.
  - apply list_elem_of_singleton in Hin as ->.
    exists ["tunnel"]. split; [apply spawned_command_line|].
    right. exists i, op, code. repeat split; assumption.
Qed.

(** X17: a process is spawned only by a call of [updateAccount] with an
    account, and then it is the login command with the provider and the
    token of that account, which is the account stored afterwards; or by
    the exit of the active login, and then it is the serve command, which
    carries no token.  With [VSCODE_DEV] set the program is [cargo] and
    the arguments follow [run --]; otherwise the program is the tunnel
    command and the arguments are passed as they are.  Its pid is the
    index of the new operation. *)
Theorem spawn_command_lines events e a :
  a ∈ (step policy env e (stateAfter policy env events)).2 ->
  isSpawn a = true ->
  spawnOrigin env (stateAfter policy env events) e
    (step policy env e (stateAfter policy env events)) a.
Proof.
  apply turn_spawn, step_turn, Inv_reachable.
Qed.

End Facts.

Lemma one_spawn_one_kill_per_turn_witness :
  count isKill
    (step SettlesWithWork packaged (ChildExit 0 (Some 0%Z))
       (stateAfter SettlesWithWork packaged [UpdateAccount accountA])).2
  = 0%nat.
Proof.
  exact (proj1 (proj2 (proj2 (proj2
           (one_spawn_one_kill_per_turn SettlesWithWork packaged
              [UpdateAccount accountA] (ChildExit 0 (Some 0%Z))))))
           eq_refl).
Defined.

Lemma active_is_latest_witness :
  2%nat
  = List.length
      (operations
         (stateAfter SettlesWithWork packaged
            [UpdateAccount accountA; ChildExit 0 (Some 0%Z)])).
Proof.
  exact (proj1 (active_is_latest SettlesWithWork packaged
                  [UpdateAccount accountA; ChildExit 0 (Some 0%Z)])
           1%nat eq_refl).
Defined.

Lemma account_cleared_only_with_tunnel_failed_witness :
  count isTunnelFailed
    (step SettlesWithWork packaged (ChildExit 0 (Some 1%Z))
       (stateAfter SettlesWithWork packaged [UpdateAccount accountA])).2
  = 0%nat
  /\ storedAccount
       (step SettlesWithWork packaged (ChildExit 0 (Some 1%Z))
          (stateAfter SettlesWithWork packaged [UpdateAccount accountA])).1
     = accountA.
Proof.
  destruct (account_cleared_only_with_tunnel_failed SettlesWithWork packaged
              [UpdateAccount accountA] (ChildExit 0 (Some 1%Z)) eq_refl)
    as [[H _]|H].
  - vm_compute in H. discriminate H.
  - exact H.
Defined.

Lemma turned_off_stays_off_witness :
  count isSpawn
    (run SettlesWithWork packaged [ChildExit 0 (Some 0%Z); ChildError 0]
       (step SettlesWithWork packaged (UpdateAccount None)
          (stateAfter SettlesWithWork packaged [UpdateAccount accountA])).1).2
  = 0%nat.
Proof.
  exact (proj1 (proj2 (proj2 (proj2
           (turned_off_stays_off SettlesWithWork packaged
              [UpdateAccount accountA]
              [ChildExit 0 (Some 0%Z); ChildError 0] eq_refl))))).
Defined.


Lemma one_unsignalled_child_witness :
  _tunnelProcess
    (stateAfter RejectsOnCancel packaged
       [UpdateAccount accountA; ChildExit 0 (Some 0%Z);
        UpdateAccount accountB; ChildError 1])
  = Some 2%nat.
Proof.
  eapply (proj1 (proj1 (one_unsignalled_child RejectsOnCancel packaged
                          [UpdateAccount accountA; ChildExit 0 (Some 0%Z);
                           UpdateAccount accountB; ChildError 1])
                   eq_refl)).
  - vm_compute. reflexivity.
  - vm_compute. reflexivity.
Defined.

Lemma spawn_command_lines_witness :
  spawnOrigin development
    (stateAfter SettlesWithWork development [])
    (UpdateAccount accountA)
    (step SettlesWithWork development (UpdateAccount accountA)
       (stateAfter SettlesWithWork development []))
    (Spawn 0 "cargo"
       ["run"; "--"; "tunnel"; "user"; "login"; "--provider"; "github";
        "--access-token"; "t1"]).
Proof.
  apply (spawn_command_lines SettlesWithWork development []
           (UpdateAccount accountA)).
  - vm_compute. do 2 right. left.
  - reflexivity.
Defined.

End TunnelLifecycleFacts.

(* ===================================================================== *)
(** * Properties of the server's command line *)
(* ===================================================================== *)

Module ServerLaunchFacts.
Import ServerLaunch.

Lemma portsTaken_cons c calls :
  portsTaken (c :: calls)
  = ((if mkdirFails c then 0 else 1) + portsTaken calls)%N.
Proof.
  unfold portsTaken. cbn [List.filter].
  destruct (mkdirFails c); cbn [negb List.length]; lia.
Qed.

Lemma portsTaken_take_le k : forall calls,
  (portsTaken (take k calls) <= portsTaken calls)%N.
Proof.
  induction k as [|k IH]; intros [|c calls]; cbn [take];
    try (unfold portsTaken; cbn; lia).
  rewrite !portsTaken_cons. specialize (IH calls). lia.
Qed.

Lemma launchServer_port c port :
  (port < maxExact)%N ->
  (launchServer c port).2
  = (port + (if mkdirFails c then 0 else 1))%N.
Proof.
  intros Hp. unfold launchServer, increment.
  destruct (mkdirFails c); cbn [snd]; [lia|].
  apply N.ltb_lt in Hp. rewrite Hp.
  destruct (truthy (codeServerPath c) && requireFails c); cbn; reflexivity.
Qed.

Lemma launchServer_port_0 c port :
  mkdirFails c = true -> (launchServer c port).2 = port.
Proof. intros H. unfold launchServer. rewrite H. reflexivity. Qed.

Lemma launchAll_port calls : forall port,
  (port + portsTaken calls <= maxExact)%N ->
  (launchAll calls port).2 = (port + portsTaken calls)%N.
Proof.
  induction calls as [|c calls IH]; intros port Hb; cbn [launchAll].
  - unfold portsTaken. cbn. lia.
  - rewrite portsTaken_cons in *.
    destruct (launchServer c port) as [outcome port1] eqn:E.
    assert (E1 : port1 = (port + (if mkdirFails c then 0 else 1))%N).
    { change port1 with (outcome, port1).2. rewrite <- E.
      destruct (mkdirFails c) eqn:M.
      - rewrite launchServer_port_0 by exact M. lia.
      - rewrite launchServer_port by lia. rewrite M. reflexivity. }
    specialize (IH port1).
    destruct (launchAll calls port1) as [more port2]. cbn [snd] in *.
    rewrite IH by lia. lia.
Qed.

Lemma launchAll_lookup calls : forall port k args,
  (port + portsTaken calls <= maxExact)%N ->
  (launchAll calls port).1 !! k = Some (Spawns args) ->
  exists c, calls !! k = Some c /\ mkdirFails c = false
            /\ args = serverArgs (port + portsTaken (take k calls)) (options c).
Proof.
  induction calls as [|c calls IH]; intros port k args Hb H;
    [discriminate H|].
  cbn [launchAll] in H. rewrite portsTaken_cons in Hb.
  destruct (launchServer c port) as [outcome port1] eqn:E.
  destruct (launchAll calls port1) as [more port2] eqn:E2.
  cbn [fst] in H. destruct k as [|k].
  - injection H as ->. exists c. split; [reflexivity|].
    unfold launchServer in E. destruct (mkdirFails c); [discriminate E|].
    split; [reflexivity|].
    destruct (truthy (codeServerPath c) && requireFails c);
      [discriminate E|].
    injection E as <- _. cbn [take]. unfold portsTaken. cbn.
    rewrite N.add_0_r. reflexivity.
  - cbn in H.
    assert (E1 : port1 = (port + (if mkdirFails c then 0 else 1))%N).
    { change port1 with (outcome, port1).2. rewrite <- E.
      destruct (mkdirFails c) eqn:M.
      - rewrite launchServer_port_0 by exact M. lia.
      - rewrite launchServer_port by lia. rewrite M. reflexivity. }
    specialize (IH port1 k args). rewrite E2 in IH.
    destruct (IH ltac:(lia) H) as (c' & Hc & Hm & ->). exists c'.
    split; [exact Hc|]. split; [exact Hm|]. f_equal.
    cbn [take]. rewrite portsTaken_cons. lia.
Qed.

Lemma argumentOf_port port o :
  argumentOf "--port" (serverArgs port o) = Some (pretty port).
Proof. reflexivity. Qed.

Lemma portsTaken_take_S k : forall calls c,
  calls !! k = Some c -> mkdirFails c = false ->
  portsTaken (take (S k) calls) = (portsTaken (take k calls) + 1)%N.
Proof.
  induction k as [|k IH]; intros [|c0 calls] c H M; try discriminate H.
  - injection H as ->. rewrite take_0. cbn [firstn].
    rewrite portsTaken_cons, M. reflexivity.
  - cbn in H. change (take (S (S k)) (c0 :: calls))
      with (c0 :: take (S k) calls).
    change (take (S k) (c0 :: calls)) with (c0 :: take k calls).
    rewrite !portsTaken_cons, (IH calls c H M). lia.
Qed.

Lemma portsTaken_take_mono calls : forall k k',
  (k <= k')%nat -> (portsTaken (take k calls) <= portsTaken (take k' calls))%N.
Proof.
  intros k k' Hle.
  replace (take k calls) with (take k (take k' calls))
    by (rewrite take_take; f_equal; lia).
  apply portsTaken_take_le.
Qed.

(** X18: as long as the counter stays within the exact range of a number,
    a call of [launchServer] that reaches [spawn] passes as [--port] the
    number 9000 plus the number of earlier calls whose [mkdir] succeeded,
    whatever its options; so no two spawned servers are given the same
    port.  A call whose [mkdir] fails takes no port; one that fails later
    has taken one. *)
Theorem ports_are_never_reused calls :
  (firstPort + portsTaken calls <= maxExact)%N ->
  (launchAll calls firstPort).2 = (9000 + portsTaken calls)%N
  /\ (forall k args,
        (launchAll calls firstPort).1 !! k = Some (Spawns args) ->
        argumentOf "--port" args
        = Some (pretty (9000 + portsTaken (take k calls))%N))
  /\ (forall k k' args args',
        (launchAll calls firstPort).1 !! k = Some (Spawns args) ->
        (launchAll calls firstPort).1 !! k' = Some (Spawns args') ->
        k <> k' ->
        argumentOf "--port" args <> argumentOf "--port" args').
Proof.
  intros Hb.
  assert (Hport : forall k args,
             (launchAll calls firstPort).1 !! k = Some (Spawns args) ->
             argumentOf "--port" args
             = Some (pretty (9000 + portsTaken (take k calls))%N)).
  { intros k args H.
    destruct (launchAll_lookup calls firstPort k args Hb H)
      as (c & _ & _ & ->).
    apply argumentOf_port. }
  split; [apply launchAll_port; exact Hb|]. split; [exact Hport|].
  assert (Hlt : forall k k' args args',
             (launchAll calls firstPort).1 !! k = Some (Spawns args) ->
             (launchAll calls firstPort).1 !! k' = Some (Spawns args') ->
             (k < k')%nat ->
             (portsTaken (take k calls) < portsTaken (take k' calls))%N).
  { intros k k' args args' H H' Hlt.
    destruct (launchAll_lookup calls firstPort k args Hb H)
      as (c & Hc & Hm & _).
    pose proof (portsTaken_take_S k calls c Hc Hm) as HS.
    pose proof (portsTaken_take_mono calls (S k) k' ltac:(lia)). lia. }
  intros k k' args args' H H' Hne.
  rewrite (Hport k args H), (Hport k' args' H'). intros [= Heq].
  apply (inj pretty) in Heq.
  destruct (Nat.lt_total k k') as [L|[L|L]]; [|contradiction|].
  - pose proof (Hlt k k' args args' H H' L). lia.
  - pose proof (Hlt k' k args' args H' H L). lia.
Qed.

Lemma ports_are_never_reused_witness :
  argumentOf "--port" (serverArgs 9001 (options secondCall))
  = Some (pretty 9001%N).
Proof.
  refine (proj1 (proj2 (ports_are_never_reused
                          [firstCall; failedMkdir; secondCall] _))
            2%nat (serverArgs 9001 (options secondCall)) eq_refl).
  vm_compute. discriminate.
Defined.

End ServerLaunchFacts.

